(** * ics::HashMap (hash_map.hpp): a shallow embedding and its properties

    The table of hash_map.hpp is a bucket array [map] of singly linked
    chains of heap nodes [LN]; every chain ends in a trailer node made by
    [new LN()].  Iterators keep raw pointers into those chains.  The
    embedding therefore keeps the node heap explicit:

    - a node pointer [LN*] is [option nat] ([None] is [nullptr]); the heap
      [nodes] is a list of cells, a cell being [None] once deleted;
      [new] appends a cell, so addresses are never reused;
    - a table object lives in the store [tables] and is named by its index
      (the C++ [this] / [&rhs] / [ref_map]);
    - [int] is [Z] (no overflow is modelled: signed overflow is undefined in
      C++), [double load_threshold] is a rational (every finite double is
      one, and comparing an [int] with a double is exact);
    - [KEY] is [std::string]: the source compares keys with the literal
      empty string, which fixes the key type; the mapped type [T] is a
      parameter, with [T_default] the value of [T()] and [T_eqb] its [==];
    - a member function is a computation [M A]: it ends normally ([Ok]),
      throws one of the ics exceptions ([Throw], with the state at the
      throw), has undefined behaviour ([Undefined]: a null or dangling
      dereference, an index outside an array, a division by zero), or does
      not end within the fuel of a pointer-chasing loop ([OutOfFuel]). *)

From Stdlib Require Import ZArith QArith String List Lia Bool.
From stdpp Require Import base list.

Local Open Scope Z_scope.

Module ics.

(** ** Outcomes *)

Inductive ics_exception : Type :=
| TemplateFunctionError
| KeyError
| ConcurrentModificationError
| CannotEraseError
| IteratorPositionIllegal
| IteratorTypeError
| ComparingDifferentIteratorsError.

(** Outcome of a [const] member function: it cannot change the state. *)
Inductive Result (A : Type) : Type :=
| Ret (a : A)
| Raise (e : ics_exception)
| UndefinedR
| OutOfFuelR.
Arguments Ret {A} a.
Arguments Raise {A} e.
Arguments UndefinedR {A}.
Arguments OutOfFuelR {A}.

Definition rbind {A B : Type} (r : Result A) (k : A -> Result B) : Result B :=
  match r with
  | Ret a => k a
  | Raise e => Raise e
  | UndefinedR => UndefinedR
  | OutOfFuelR => OutOfFuelR
  end.

Notation "x <~ c ;; k" := (rbind c (fun x => k))
  (at level 20, c at level 99, k at level 200, only parsing).

Definition KEY : Type := string.

(** [LN*]: [None] is [nullptr], [Some a] the address of heap cell [a]. *)
Definition LNptr : Type := option nat.

Definition LNptr_eqb (p q : LNptr) : bool :=
  match p, q with
  | None, None => true
  | Some a, Some b => Nat.eqb a b
  | _, _ => false
  end.

Section Model.

Context {T : Type}.
(** [T_default] is the value of [T()]; [T_eqb] is [operator ==] of [T]
    ([operator !=] is taken to be its negation). *)
Variable T_default : T.
Variable T_eqb : T -> T -> bool.

(** ** Data *)

(** [ics::pair<KEY,T>] *)
Record Entry : Type := mkEntry { first : KEY; second : T }.

(** [class LN] *)
Record LN : Type := mkLN { value : Entry; next : LNptr }.

(** [LN()]: a default constructed entry and no successor. *)
Definition LN_default : LN := mkLN (mkEntry EmptyString T_default) None.

(** The instance variables of [HashMap]; [map] is the bucket array. *)
Record HashMap : Type := mkHashMap {
  hash : KEY -> Z;
  map : list LNptr;
  load_threshold : Q;
  bins : Z;
  used : Z;
  mod_count : Z
}.

Definition set_map (m : HashMap) (a : list LNptr) : HashMap :=
  mkHashMap (hash m) a (load_threshold m) (bins m) (used m) (mod_count m).
Definition set_bins (m : HashMap) (b : Z) : HashMap :=
  mkHashMap (hash m) (map m) (load_threshold m) b (used m) (mod_count m).
Definition set_used (m : HashMap) (u : Z) : HashMap :=
  mkHashMap (hash m) (map m) (load_threshold m) (bins m) u (mod_count m).
Definition set_mod_count (m : HashMap) (c : Z) : HashMap :=
  mkHashMap (hash m) (map m) (load_threshold m) (bins m) (used m) c.

(** The node heap and the table objects. *)
Record World : Type := mkWorld {
  nodes : list (option LN);
  tables : list HashMap
}.

Definition set_nodes (w : World) (h : list (option LN)) : World :=
  mkWorld h (tables w).
Definition set_tables (w : World) (t : list HashMap) : World :=
  mkWorld (nodes w) t.

(** Outcome of a member function that may change the state. *)
Inductive Outcome (A : Type) : Type :=
| Ok (a : A) (w : World)
| Throw (e : ics_exception) (w : World)
| Undefined
| OutOfFuel.
Arguments Ok {A} a w.
Arguments Throw {A} e w.
Arguments Undefined {A}.
Arguments OutOfFuel {A}.

Definition M (A : Type) : Type := World -> Outcome A.

Definition ret {A : Type} (a : A) : M A := fun w => Ok a w.

Definition bind {A B : Type} (c : M A) (k : A -> M B) : M B :=
  fun w =>
    match c w with
    | Ok a w' => k a w'
    | Throw e w' => Throw e w'
    | Undefined => Undefined
    | OutOfFuel => OutOfFuel
    end.

(** Run a [const] function in the current state. *)
Definition read {A : Type} (f : World -> Result A) : M A :=
  fun w =>
    match f w with
    | Ret a => Ok a w
    | Raise e => Throw e w
    | UndefinedR => Undefined
    | OutOfFuelR => OutOfFuel
    end.

Definition throw {A : Type} (e : ics_exception) : M A := fun w => Throw e w.

Notation "x <- c ;; k" := (bind c (fun x => k))
  (at level 20, c at level 99, k at level 200, only parsing).
Notation "'do' c ;; k" := (bind c (fun _ => k))
  (at level 20, c at level 99, k at level 200, only parsing).

(** ** Heap and array primitives *)

(** [*p] read *)
Definition load (w : World) (p : LNptr) : Result LN :=
  match p with
  | None => UndefinedR
  | Some a =>
      match nodes w !! a with
      | Some (Some n) => Ret n
      | _ => UndefinedR
      end
  end.

(** [*p = n] *)
Definition store (p : LNptr) (n : LN) : M unit :=
  fun w =>
    match load w p, p with
    | Ret _, Some a => Ok tt (set_nodes w (<[a := Some n]> (nodes w)))
    | _, _ => Undefined
    end.

(** [new LN(...)]: the fresh cell is appended to the heap. *)
Definition new_LN (n : LN) : M LNptr :=
  fun w => Ok (Some (length (nodes w))) (set_nodes w (nodes w ++ [Some n])).

(** [delete p] *)
Definition delete_LN (p : LNptr) : M unit :=
  fun w =>
    match p with
    | None => Ok tt w
    | Some a =>
        match load w p with
        | Ret _ => Ok tt (set_nodes w (<[a := None]> (nodes w)))
        | _ => Undefined
        end
    end.

(** [*this] read and write, for the table object at index [this]. *)
Definition get_table (w : World) (this : nat) : Result HashMap :=
  match tables w !! this with
  | Some m => Ret m
  | None => UndefinedR
  end.

Definition put_table (this : nat) (m : HashMap) : M unit :=
  fun w =>
    match tables w !! this with
    | Some _ => Ok tt (set_tables w (<[this := m]> (tables w)))
    | None => Undefined
    end.

Definition this_table (this : nat) : M HashMap :=
  read (fun w => get_table w this).

(** [a[i]] read and write on a bucket array. *)
Definition index (a : list LNptr) (i : Z) : Result LNptr :=
  if i <? 0 then UndefinedR
  else match a !! Z.to_nat i with
       | Some p => Ret p
       | None => UndefinedR
       end.

Definition assign_index (a : list LNptr) (i : Z) (p : LNptr)
  : Result (list LNptr) :=
  if i <? 0 then UndefinedR
  else match a !! Z.to_nat i with
       | Some _ => Ret (<[Z.to_nat i := p]> a)
       | None => UndefinedR
       end.

(** Fuel of a loop that follows [next] pointers.  A chain without a cycle
    has at most one node per heap cell, so a loop that stops at the trailer
    loads at most [length (nodes w)] nodes; [fuel] leaves it one more step,
    and a loop that runs until [nullptr] one more again for its last test. *)
Definition fuel (w : World) : nat := S (length (nodes w)).
Definition fuel_null (w : World) : nat := S (fuel w).

(** ** Private helper methods *)

(** [hash_compress]: [abs(hash(key)) % bins], [%] truncating.  [abs] is
    read as the absolute value of the integers, which is what the code
    computes for every int but the least one; see [abs_fits]. *)
Definition hash_compress (m : HashMap) (key : KEY) : Result Z :=
  if bins m =? 0 then UndefinedR
  else Ret (Z.rem (Z.abs (hash m key)) (bins m)).

(** [find_key], inner loop: [for(LN* j = map[i]; j != nullptr; j = j->next)]. *)
Fixpoint find_key_chain (f : nat) (w : World) (key : KEY) (j : LNptr)
  : Result LNptr :=
  match f with
  | O => OutOfFuelR
  | S f' =>
      match j with
      | None => Ret None
      | Some _ =>
          n <~ load w j ;;
          if String.eqb (first (value n)) key then Ret j
          else find_key_chain f' w key (next n)
      end
  end.

(** [find_key], outer loop: [k] iterations are left, the next one is [i]. *)
Fixpoint find_key_bins (k : nat) (w : World) (m : HashMap) (key : KEY) (i : Z)
  : Result LNptr :=
  match k with
  | O => Ret None
  | S k' =>
      j <~ index (map m) i ;;
      r <~ find_key_chain (fuel_null w) w key j ;;
      match r with
      | Some _ => Ret r
      | None => find_key_bins k' w m key (i + 1)
      end
  end.

Definition find_key (w : World) (this : nat) (key : KEY) : Result LNptr :=
  m <~ get_table w this ;;
  find_key_bins (Z.to_nat (bins m)) w m key 0.

(** ** Queries *)

Definition empty (w : World) (this : nat) : Result bool :=
  m <~ get_table w this ;; Ret (used m =? 0).

Definition size (w : World) (this : nat) : Result Z :=
  m <~ get_table w this ;; Ret (used m).

(** [has_key], inner loop:
    [for(LN*j = map[i]; j->next != nullptr; j = j->next)]. *)
Fixpoint has_key_chain (f : nat) (w : World) (key : KEY) (j : LNptr)
  : Result bool :=
  match f with
  | O => OutOfFuelR
  | S f' =>
      n <~ load w j ;;
      match next n with
      | None => Ret false
      | Some _ =>
          if String.eqb (first (value n)) key then Ret true
          else has_key_chain f' w key (next n)
      end
  end.

Fixpoint has_key_bins (k : nat) (w : World) (m : HashMap) (key : KEY) (i : Z)
  : Result bool :=
  match k with
  | O => Ret false
  | S k' =>
      j <~ index (map m) i ;;
      b <~ has_key_chain (fuel w) w key j ;;
      if b then Ret true else has_key_bins k' w m key (i + 1)
  end.

Definition has_key (w : World) (this : nat) (key : KEY) : Result bool :=
  m <~ get_table w this ;;
  has_key_bins (Z.to_nat (bins m)) w m key 0.

(** [has_value]: the same scan, testing [j->value.second == value]. *)
Fixpoint has_value_chain (f : nat) (w : World) (v : T) (j : LNptr)
  : Result bool :=
  match f with
  | O => OutOfFuelR
  | S f' =>
      n <~ load w j ;;
      match next n with
      | None => Ret false
      | Some _ =>
          if T_eqb (second (value n)) v then Ret true
          else has_value_chain f' w v (next n)
      end
  end.

Fixpoint has_value_bins (k : nat) (w : World) (m : HashMap) (v : T) (i : Z)
  : Result bool :=
  match k with
  | O => Ret false
  | S k' =>
      j <~ index (map m) i ;;
      b <~ has_value_chain (fuel w) w v j ;;
      if b then Ret true else has_value_bins k' w m v (i + 1)
  end.

Definition has_value (w : World) (this : nat) (v : T) : Result bool :=
  m <~ get_table w this ;;
  has_value_bins (Z.to_nat (bins m)) w m v 0.

(** [operator [] const]: the value at the node [find_key] returns. *)
Definition operator_index_const (w : World) (this : nat) (key : KEY)
  : Result T :=
  current <~ find_key w this key ;;
  match current with
  | Some _ => n <~ load w current ;; Ret (second (value n))
  | None => Raise KeyError
  end.

(** ** The load-factor controller *)

(** [map = new LN*[bins]; for (int i=0; i<bins; ++i) map[i] = new LN();] *)
Fixpoint new_trailers (k : nat) : M (list LNptr) :=
  match k with
  | O => ret []
  | S k' =>
      p <- new_LN LN_default ;;
      ps <- new_trailers k' ;;
      ret (p :: ps)
  end.

(** [ensure_load_threshold], inner loop:
    [for(LN* j = old_map[i]; j != nullptr ; j = j->next)], each node met is
    copied to the front of the chain that [hash_compress] names. *)
Fixpoint rehouse_chain (f : nat) (this : nat) (j : LNptr) : M unit :=
  match f with
  | O => fun _ => OutOfFuel
  | S f' =>
      match j with
      | None => ret tt
      | Some _ =>
          n <- read (fun w => load w j) ;;
          m <- this_table this ;;
          h <- read (fun _ => hash_compress m (first (value n))) ;;
          head <- read (fun _ => index (map m) h) ;;
          p <- new_LN (mkLN (mkEntry (first (value n)) (second (value n))) head) ;;
          a <- read (fun _ => assign_index (map m) h p) ;;
          do put_table this (set_map m a) ;;
          rehouse_chain f' this (next n)
      end
  end.

Fixpoint rehouse_bins (k : nat) (this : nat) (old_map : list LNptr) (i : Z)
  : M unit :=
  match k with
  | O => ret tt
  | S k' =>
      j <- read (fun _ => index old_map i) ;;
      f <- read (fun w => Ret (fuel_null w)) ;;
      do rehouse_chain f this j ;;
      rehouse_bins k' this old_map (i + 1)
  end.

(** [ensure_load_threshold]: [new_used / bins] is a division of two [int]s
    (truncating); its result is then compared with the double.  The final
    [delete old_map] frees the old array only: the old nodes stay
    allocated. *)
Definition ensure_load_threshold (this : nat) (new_used : Z) : M unit :=
  m <- this_table this ;;
  if bins m =? 0 then (fun _ => Undefined)
  else if Qle_bool (inject_Z (Z.quot new_used (bins m))) (load_threshold m)
  then ret tt
  else
    let old_map := map m in
    let bins' := bins m * 2 in
    a <- new_trailers (Z.to_nat bins') ;;
    do put_table this (set_map (set_bins m bins') a) ;;
    rehouse_bins (Z.to_nat (Z.quot bins' 2)) this old_map 0.

(** ** Commands *)

(** [put]; the line it prints to [std::cout] for a new key is left out. *)
Definition put (this : nat) (key : KEY) (v : T) : M T :=
  m <- this_table this ;;
  hash_index <- read (fun _ => hash_compress m key) ;;
  b <- read (fun w => has_key w this key) ;;
  if b then
    found_key <- read (fun w => find_key w this key) ;;
    n <- read (fun w => load w found_key) ;;
    let old_value := second (value n) in
    do store found_key (mkLN (mkEntry (first (value n)) v) (next n)) ;;
    ret old_value
  else
    do put_table this (set_used m (used m + 1)) ;;
    do ensure_load_threshold this (used m + 1) ;;
    m1 <- this_table this ;;
    head <- read (fun _ => index (map m1) hash_index) ;;
    p <- new_LN (mkLN (mkEntry key v) head) ;;
    a <- read (fun _ => assign_index (map m1) hash_index p) ;;
    do put_table this (set_mod_count (set_map m1 a) (mod_count m1 + 1)) ;;
    m2 <- this_table this ;;
    front <- read (fun _ => index (map m2) hash_index) ;;
    n <- read (fun w => load w front) ;;
    ret (second (value n)).

(** [erase]: the successor is copied over the node found, then deleted. *)
Definition erase (this : nat) (key : KEY) : M T :=
  current <- read (fun w => find_key w this key) ;;
  match current with
  | Some _ =>
      n <- read (fun w => load w current) ;;
      let to_return := second (value n) in
      let to_delete := next n in
      succ <- read (fun w => load w to_delete) ;;
      do store current succ ;;
      do delete_LN to_delete ;;
      m <- this_table this ;;
      do put_table this (set_mod_count (set_used m (used m - 1)) (mod_count m + 1)) ;;
      ret to_return
  | None => throw KeyError
  end.

(** [clear], inner loop: deletes up to the trailer, which becomes the head. *)
Fixpoint clear_chain (f : nat) (this : nat) (i : Z) (j : LNptr) : M unit :=
  match f with
  | O => fun _ => OutOfFuel
  | S f' =>
      match j with
      | None => ret tt
      | Some _ =>
          n <- read (fun w => load w j) ;;
          match next n with
          | None =>
              m <- this_table this ;;
              a <- read (fun _ => assign_index (map m) i j) ;;
              put_table this (set_map m a)
          | Some _ =>
              do delete_LN j ;;
              clear_chain f' this i (next n)
          end
      end
  end.

Fixpoint clear_bins (k : nat) (this : nat) (i : Z) : M unit :=
  match k with
  | O => ret tt
  | S k' =>
      m <- this_table this ;;
      j <- read (fun _ => index (map m) i) ;;
      f <- read (fun w => Ret (fuel w)) ;;
      do clear_chain f this i j ;;
      clear_bins k' this (i + 1)
  end.

Definition clear (this : nat) : M unit :=
  m <- this_table this ;;
  do clear_bins (Z.to_nat (bins m)) this 0 ;;
  m1 <- this_table this ;;
  put_table this (set_mod_count (set_used m1 0) (mod_count m1 + 1)).

(** [put_all], over the entries an iterable yields. *)
Fixpoint put_all_from (this : nat) (l : list Entry) (count : Z) : M Z :=
  match l with
  | [] => ret count
  | m_entry :: l' =>
      do put this (first m_entry) (second m_entry) ;;
      put_all_from this l' (count + 1)
  end.

Definition put_all (this : nat) (l : list Entry) : M Z :=
  put_all_from this l 0.

(** ** Copying *)

(** [copy_list]: the live nodes are copied, the trailer is a new [LN()]. *)
Fixpoint copy_list (f : nat) (l : LNptr) : M LNptr :=
  match f with
  | O => fun _ => OutOfFuel
  | S f' =>
      n <- read (fun w => load w l) ;;
      match next n with
      | None => new_LN LN_default
      | Some _ =>
          rest <- copy_list f' (next n) ;;
          new_LN (mkLN (value n) rest)
      end
  end.

(** [copy_hash_table]: writes the copies into the array of [this]. *)
Fixpoint copy_hash_table_from (k : nat) (this : nat) (ht : list LNptr) (i : Z)
  : M unit :=
  match k with
  | O => ret tt
  | S k' =>
      l <- read (fun _ => index ht i) ;;
      f <- read (fun w => Ret (fuel w)) ;;
      c <- copy_list f l ;;
      m <- this_table this ;;
      a <- read (fun _ => assign_index (map m) i c) ;;
      do put_table this (set_map m a) ;;
      copy_hash_table_from k' this ht (i + 1)
  end.

Definition copy_hash_table (this : nat) (ht : list LNptr) (the_bins : Z)
  : M (list LNptr) :=
  do copy_hash_table_from (Z.to_nat the_bins) this ht 0 ;;
  m <- this_table this ;;
  ret (map m).

(** [operator =]: every field but [mod_count] is taken from [rhs]; the
    nodes and the array that [this] held before are left as they are. *)
Definition operator_assign (this rhs : nat) : M unit :=
  if Nat.eqb this rhs then ret tt
  else
    r <- this_table rhs ;;
    m <- this_table this ;;
    do put_table this
         (mkHashMap (hash r) (map m) (load_threshold r) (bins r) (used r)
                    (mod_count m)) ;;
    a <- new_trailers (Z.to_nat (bins r)) ;;
    m0 <- this_table this ;;
    do put_table this (set_map m0 a) ;;
    a' <- copy_hash_table this (map r) (bins r) ;;
    m1 <- this_table this ;;
    put_table this (set_map m1 a').

(** ** Equality of tables *)

(** [operator ==], inner loop; [Some b] stands for [return b]. *)
Fixpoint equal_chain (f : nat) (w : World) (rhs : nat) (current : LNptr)
  : Result (option bool) :=
  match f with
  | O => OutOfFuelR
  | S f' =>
      n <~ load w current ;;
      match next n with
      | None => Ret None
      | Some _ =>
          if String.eqb (first (value n)) EmptyString then Ret None
          else
            v <~ operator_index_const w rhs (first (value n)) ;;
            if negb (T_eqb (second (value n)) v) then Ret (Some false)
            else equal_chain f' w rhs (next n)
      end
  end.

Fixpoint equal_bins (k : nat) (w : World) (m : HashMap) (rhs : nat) (i : Z)
  : Result bool :=
  match k with
  | O => Ret true
  | S k' =>
      current <~ index (map m) i ;;
      r <~ equal_chain (fuel w) w rhs current ;;
      match r with
      | Some b => Ret b
      | None => equal_bins k' w m rhs (i + 1)
      end
  end.

Definition operator_eq (w : World) (this rhs : nat) : Result bool :=
  if Nat.eqb this rhs then Ret true
  else
    m <~ get_table w this ;;
    r <~ get_table w rhs ;;
    if negb (used m =? used r) then Ret false
    else equal_bins (Z.to_nat (bins m)) w m rhs 0.

Definition operator_ne (w : World) (this rhs : nat) : Result bool :=
  b <~ operator_eq w this rhs ;; Ret (negb b).

(** ** Constructors

    The choice between the template hash and the constructor hash is made
    before a table exists; [the_hash] is the function that choice bound. *)

(** [HashMap(double the_load_threshold, chash)]: one bin. *)
Definition HashMap_default (the_load_threshold : Q) (the_hash : KEY -> Z)
  : M nat :=
  a <- new_trailers 1 ;;
  fun w =>
    Ok (length (tables w))
       (set_tables w (tables w ++ [mkHashMap the_hash a the_load_threshold 1 0 0])).

(** [HashMap(int initial_bins, double the_load_threshold, chash)] *)
Definition HashMap_bins (initial_bins : Z) (the_load_threshold : Q)
  (the_hash : KEY -> Z) : M nat :=
  a <- new_trailers (Z.to_nat initial_bins) ;;
  fun w =>
    Ok (length (tables w))
       (set_tables w
          (tables w ++ [mkHashMap the_hash a the_load_threshold initial_bins 0 0])).

(** [str]: the scan behind the debugging string; the model keeps the
    entries it prints, in the order it prints them. *)
Fixpoint str_chain (f : nat) (w : World) (j : LNptr) : Result (list Entry) :=
  match f with
  | O => OutOfFuelR
  | S f' =>
      n <~ load w j ;;
      match next n with
      | None => Ret []
      | Some _ => rest <~ str_chain f' w (next n) ;; Ret (value n :: rest)
      end
  end.

Fixpoint str_bins (k : nat) (w : World) (m : HashMap) (i : Z)
  : Result (list Entry) :=
  match k with
  | O => Ret []
  | S k' =>
      j <~ index (map m) i ;;
      here <~ str_chain (fuel w) w j ;;
      rest <~ str_bins k' w m (i + 1) ;;
      Ret (here ++ rest)
  end.

Definition str (w : World) (this : nat) : Result (list Entry) :=
  m <~ get_table w this ;;
  str_bins (Z.to_nat (bins m)) w m 0.

(** ** The iterator *)

(** [pair<int,LN*>]: the bin index and the node. *)
Definition Cursor : Type := (Z * LNptr)%type.

Record Iterator : Type := mkIterator {
  current : Cursor;
  ref_map : nat;
  expected_mod_count : Z;
  can_erase : bool
}.

Definition set_current (it : Iterator) (c : Cursor) : Iterator :=
  mkIterator c (ref_map it) (expected_mod_count it) (can_erase it).
Definition set_can_erase (it : Iterator) (b : bool) : Iterator :=
  mkIterator (current it) (ref_map it) (expected_mod_count it) b.
Definition set_expected_mod_count (it : Iterator) (c : Z) : Iterator :=
  mkIterator (current it) (ref_map it) c (can_erase it).

(** The cursor a default constructed [pair<int,LN*>] holds. *)
Definition Cursor_default : Cursor := (0, None).

(** The constructor's scan: the head of the first bin whose head is not a
    trailer (its inner loop runs its body at most once). *)
Fixpoint begin_bins (k : nat) (w : World) (m : HashMap) (i : Z)
  : Result (option Cursor) :=
  match k with
  | O => Ret None
  | S k' =>
      j <~ index (map m) i ;;
      n <~ load w j ;;
      match next n with
      | Some _ => Ret (Some (i, j))
      | None => begin_bins k' w m (i + 1)
      end
  end.

(** [Iterator(iterate_over, from_begin)] *)
Definition Iterator_new (w : World) (iterate_over : nat) (from_begin : bool)
  : Result Iterator :=
  m <~ get_table w iterate_over ;;
  e <~ empty w iterate_over ;;
  if negb from_begin || e
  then Ret (mkIterator (-1, None) iterate_over (mod_count m) true)
  else
    c <~ begin_bins (Z.to_nat (bins m)) w m 0 ;;
    Ret (mkIterator (match c with Some c' => c' | None => Cursor_default end)
                    iterate_over (mod_count m) true).

Definition begin (w : World) (this : nat) : Result Iterator :=
  Iterator_new w this true.

Definition end_ (w : World) (this : nat) : Result Iterator :=
  Iterator_new w this false.

(** [advance_cursors], the scan of one later bin: the first node before the
    trailer whose key is not the empty string. *)
Fixpoint advance_chain (f : nat) (w : World) (j : LNptr) : Result LNptr :=
  match f with
  | O => OutOfFuelR
  | S f' =>
      n <~ load w j ;;
      match next n with
      | None => Ret None
      | Some _ =>
          if negb (String.eqb (first (value n)) EmptyString) then Ret j
          else advance_chain f' w (next n)
      end
  end.

Fixpoint advance_bins (k : nat) (w : World) (m : HashMap) (i : Z)
  : Result Cursor :=
  match k with
  | O => Ret (-1, None)
  | S k' =>
      j <~ index (map m) i ;;
      r <~ advance_chain (fuel w) w j ;;
      match r with
      | Some _ => Ret (i, r)
      | None => advance_bins k' w m (i + 1)
      end
  end.

(** [advance_cursors] *)
Definition advance_cursors (w : World) (it : Iterator) : Result Iterator :=
  n <~ load w (snd (current it)) ;;
  succ <~ load w (next n) ;;
  if negb (String.eqb (first (value succ)) EmptyString)
  then Ret (set_current it (fst (current it), next n))
  else
    m <~ get_table w (ref_map it) ;;
    c <~ advance_bins (Z.to_nat (bins m - (fst (current it) + 1))) w m
                      (fst (current it) + 1) ;;
    Ret (set_current it c).

(** The test every iterator operation starts with. *)
Definition check_mod_count (w : World) (it : Iterator) : Result unit :=
  m <~ get_table w (ref_map it) ;;
  if negb (expected_mod_count it =? mod_count m)
  then Raise ConcurrentModificationError
  else Ret tt.

(** [Iterator::erase] *)
Definition Iterator_erase (it : Iterator) : M (Entry * Iterator) :=
  do read (fun w => check_mod_count w it) ;;
  if negb (can_erase it) then throw CannotEraseError
  else match snd (current it) with
  | None => throw CannotEraseError
  | Some _ =>
      let it1 := set_can_erase it false in
      n <- read (fun w => load w (snd (current it1))) ;;
      let to_return := value n in
      let to_delete := snd (current it1) in
      succ <- read (fun w => load w (next n)) ;;
      it2 <- match next succ with
             | None => read (fun w => advance_cursors w it1)
             | Some _ => ret it1
             end ;;
      d <- read (fun w => load w to_delete) ;;
      do erase (ref_map it2) (first (value d)) ;;
      m <- this_table (ref_map it2) ;;
      ret (to_return, set_expected_mod_count it2 (mod_count m))
  end.

(** Prefix [operator ++] *)
Definition operator_pre_inc (w : World) (it : Iterator) : Result Iterator :=
  _ <~ check_mod_count w it ;;
  match snd (current it) with
  | None => Ret it
  | Some _ =>
      if can_erase it then advance_cursors w it
      else Ret (set_can_erase it true)
  end.

(** Postfix [operator ++]: the iterator returned and the advanced one. *)
Definition operator_post_inc (w : World) (it : Iterator)
  : Result (Iterator * Iterator) :=
  _ <~ check_mod_count w it ;;
  match snd (current it) with
  | None => Ret (it, it)
  | Some _ =>
      let to_return := it in
      if can_erase it then it' <~ advance_cursors w it ;; Ret (to_return, it')
      else Ret (to_return, set_can_erase it true)
  end.

(** [Iterator::operator ==]; the [dynamic_cast] of the address of an
    [Iterator] to [const Iterator*] is never null. *)
Definition Iterator_eq (w : World) (it rhs : Iterator) : Result bool :=
  _ <~ check_mod_count w it ;;
  if negb (Nat.eqb (ref_map it) (ref_map rhs))
  then Raise ComparingDifferentIteratorsError
  else Ret (LNptr_eqb (snd (current it)) (snd (current rhs))).

Definition Iterator_ne (w : World) (it rhs : Iterator) : Result bool :=
  _ <~ check_mod_count w it ;;
  if negb (Nat.eqb (ref_map it) (ref_map rhs))
  then Raise ComparingDifferentIteratorsError
  else Ret (negb (LNptr_eqb (snd (current it)) (snd (current rhs)))).

(** [operator *] *)
Definition operator_deref (w : World) (it : Iterator) : Result Entry :=
  _ <~ check_mod_count w it ;;
  if negb (can_erase it) || LNptr_eqb (snd (current it)) None
  then Raise IteratorPositionIllegal
  else n <~ load w (snd (current it)) ;; Ret (value n).

(** [operator ->], its position test read as the one of [operator *]. *)
Definition operator_arrow (w : World) (it : Iterator) : Result Entry :=
  _ <~ check_mod_count w it ;;
  if negb (can_erase it) || LNptr_eqb (snd (current it)) None
  then Raise IteratorPositionIllegal
  else n <~ load w (snd (current it)) ;; Ret (value n).

(** The for-each loop of a client: starting from [begin()], while the
    iterator differs from [end()], dereference it and advance it with the
    prefix [++]. *)
Fixpoint traverse_from (f : nat) (w : World) (this : nat) (it : Iterator)
  : Result (list Entry) :=
  match f with
  | O => OutOfFuelR
  | S f' =>
      e <~ end_ w this ;;
      go <~ Iterator_ne w it e ;;
      if go then
        x <~ operator_deref w it ;;
        it' <~ operator_pre_inc w it ;;
        rest <~ traverse_from f' w this it' ;;
        Ret (x :: rest)
      else Ret []
  end.

Definition traverse (w : World) (this : nat) : Result (list Entry) :=
  it <~ begin w this ;;
  traverse_from (fuel w) w this it.

(** ** Vocabulary of the statements *)

(** What a client may do to the tables while an iterator is outstanding. *)
Inductive Command : Type :=
| Cput (this : nat) (key : KEY) (v : T)
| Cerase (this : nat) (key : KEY)
| Cclear (this : nat)
| Cput_all (this : nat) (l : list Entry)
| Cassign (this rhs : nat)
| Citerator_erase (it : Iterator)
| Cnew (the_load_threshold : Q) (the_hash : KEY -> Z)
| Cnew_bins (initial_bins : Z) (the_load_threshold : Q) (the_hash : KEY -> Z).

Definition run_command (c : Command) : M unit :=
  match c with
  | Cput this key v => do put this key v ;; ret tt
  | Cerase this key => do erase this key ;; ret tt
  | Cclear this => clear this
  | Cput_all this l => do put_all this l ;; ret tt
  | Cassign this rhs => operator_assign this rhs
  | Citerator_erase it => do Iterator_erase it ;; ret tt
  | Cnew lt h => do HashMap_default lt h ;; ret tt
  | Cnew_bins b lt h => do HashMap_bins b lt h ;; ret tt
  end.

Fixpoint run_commands (cs : list Command) : M unit :=
  match cs with
  | [] => ret tt
  | c :: cs' => do run_command c ;; run_commands cs'
  end.

(** The iterator's snapshot agrees with the counter of its table. *)
Definition in_sync (w : World) (it : Iterator) : Prop :=
  exists m, tables w !! ref_map it = Some m /\
            expected_mod_count it = mod_count m.

(** Every operation of the iterator fails with
    ConcurrentModificationError. *)
Definition fenced (w : World) (it : Iterator) : Prop :=
  operator_pre_inc w it = Raise ConcurrentModificationError /\
  operator_post_inc w it = Raise ConcurrentModificationError /\
  operator_deref w it = Raise ConcurrentModificationError /\
  operator_arrow w it = Raise ConcurrentModificationError /\
  (forall rhs, Iterator_eq w it rhs = Raise ConcurrentModificationError) /\
  (forall rhs, Iterator_ne w it rhs = Raise ConcurrentModificationError) /\
  Iterator_erase it w = Throw ConcurrentModificationError w.

(** ... and keeps failing whatever the client does to the tables next. *)
Definition fenced_for_good (w : World) (it : Iterator) : Prop :=
  forall cs w', run_commands cs w = Ok tt w' -> fenced w' it.

(** [chain w p addrs l]: from [p] the [next] pointers lead through live
    nodes holding the entries [l] to a trailer; [addrs] are the cells
    visited, the trailer's included. *)
Inductive chain (w : World) : LNptr -> list nat -> list Entry -> Prop :=
| chain_trailer (a : nat) (n : LN) :
    nodes w !! a = Some (Some n) -> next n = None ->
    chain w (Some a) [a] []
| chain_live (a : nat) (n : LN) (addrs : list nat) (l : list Entry) :
    nodes w !! a = Some (Some n) -> chain w (next n) addrs l ->
    chain w (Some a) (a :: addrs) (value n :: l).

(** Every trailer carries the empty key, as [LN()] makes it. *)
Definition trailers_empty (w : World) : bool :=
  forallb (fun c => match c with
                    | Some n =>
                        match next n with
                        | None => String.eqb (first (value n)) EmptyString
                        | Some _ => true
                        end
                    | None => true
                    end) (nodes w).

(** [grows w w1]: the heap of [w1] is the heap of [w] with new cells. *)
Definition grows (w w1 : World) : Prop :=
  exists ext, nodes w1 = nodes w ++ ext.

(** [touches R this w w']: every table of [w] is still a table of [w'];
    the one at [this] changed as [R] says, the others did not change. *)
Definition touches (R : HashMap -> HashMap -> Prop) (this : nat)
  (w w' : World) : Prop :=
  forall t m, tables w !! t = Some m ->
    exists m', tables w' !! t = Some m' /\
               (t = this -> R m m') /\ (t <> this -> m' = m).

Definition kept_count (m m' : HashMap) : Prop := mod_count m' = mod_count m.
Definition bumped_count (m m' : HashMap) : Prop :=
  mod_count m' = mod_count m + 1.
Definition grown_count (m m' : HashMap) : Prop :=
  mod_count m <= mod_count m'.

(** Only the bucket array and its length may differ. *)
Definition kept_but_bins (m m' : HashMap) : Prop :=
  hash m' = hash m /\ load_threshold m' = load_threshold m /\
  used m' = used m /\ mod_count m' = mod_count m.

(** The counters after a put of a new key, an erase and a clear. *)
Definition put_counts (m m' : HashMap) : Prop :=
  used m' = used m + 1 /\ mod_count m' = mod_count m + 1.
Definition erase_counts (m m' : HashMap) : Prop :=
  used m' = used m - 1 /\ mod_count m' = mod_count m + 1.
Definition clear_counts (m m' : HashMap) : Prop :=
  used m' = 0 /\ mod_count m' = mod_count m + 1.

(** The counters of the tables never go down. *)
Definition counts_grow (w w' : World) : Prop :=
  forall t m, tables w !! t = Some m ->
    exists m', tables w' !! t = Some m' /\ mod_count m <= mod_count m'.

(** [same_links w w1]: the same cells are allocated, with the same keys and
    the same successors; only mapped values may differ. *)
Definition same_links (w w1 : World) : Prop :=
  tables w1 = tables w /\
  length (nodes w1) = length (nodes w) /\
  forall p,
    match load w p with
    | Ret x => exists x', load w1 p = Ret x' /\
                          first (value x') = first (value x) /\
                          next x' = next x
    | _ => load w1 p = load w p
    end.

(** What an iterator does in [w1] is what it does in [w], up to the mapped
    value it may read. *)
Definition as_usable_as (w w1 : World) (it : Iterator) : Prop :=
  operator_pre_inc w1 it = operator_pre_inc w it /\
  operator_post_inc w1 it = operator_post_inc w it /\
  (forall rhs, Iterator_eq w1 it rhs = Iterator_eq w it rhs) /\
  (forall rhs, Iterator_ne w1 it rhs = Iterator_ne w it rhs) /\
  (forall e, operator_deref w it = Ret e ->
     exists e', operator_deref w1 it = Ret e' /\ first e' = first e) /\
  (forall e, operator_arrow w it = Ret e ->
     exists e', operator_arrow w1 it = Ret e' /\ first e' = first e).

End Model.

Arguments Ok {T A} a w.
Arguments Throw {T A} e w.
Arguments Undefined {T A}.
Arguments OutOfFuel {T A}.

Notation "x <- c ;; k" := (bind c (fun x => k))
  (at level 20, c at level 99, k at level 200, only parsing).
Notation "'do' c ;; k" := (bind c (fun _ => k))
  (at level 20, c at level 99, k at level 200, only parsing).

(** ** Tables of [HashMap<std::string,int>] built through the public interface *)

Section Clients.

Local Open Scope string_scope.

(** A hash function a client may bind: the code of the first character. *)
Definition hash_first (s : string) : Z :=
  match s with
  | EmptyString => 0
  | String c _ => Z.of_nat (Ascii.nat_of_ascii c)
  end.

(** Another one: the length of the key, plus one. *)
Definition hash_length (s : string) : Z := Z.of_nat (String.length s) + 1.

(** The state before any table or node exists. *)
Definition no_objects : @World Z := mkWorld [] [].

(** [T()] is [0] for [int]. *)
Definition put_int : nat -> KEY -> Z -> M Z := put 0.

(** A default constructed table (one bin, threshold 1.0). *)
Definition client_empty : Outcome nat :=
  HashMap_default 0 1 hash_first no_objects.

(** [put("a",1); put("c",2)] on a default constructed table. *)
Definition client_a_c : Outcome nat :=
  (t <- HashMap_default 0 1 hash_first ;;
   do put_int t "a" 1 ;;
   do put_int t "c" 2 ;;
   ret t) no_objects.

(** [put("b",1); put("d",2)] on a default constructed table. *)
Definition client_b_d : Outcome nat :=
  (t <- HashMap_default 0 1 hash_first ;;
   do put_int t "b" 1 ;;
   do put_int t "d" 2 ;;
   ret t) no_objects.

(** Two bins, threshold 1.0, the empty string put twice. *)
Definition client_empty_key_twice : Outcome (nat * Z * Z) :=
  (t <- HashMap_bins 0 2 1 hash_length ;;
   r1 <- put_int t EmptyString 5 ;;
   r2 <- put_int t EmptyString 6 ;;
   ret (t, r1, r2)) no_objects.

(** Four bins, threshold 0.5, three keys. *)
Definition client_half_full : Outcome nat :=
  (t <- HashMap_bins 0 4 (1 # 2) hash_first ;;
   do put_int t "a" 1 ;;
   do put_int t "b" 2 ;;
   do put_int t "c" 3 ;;
   ret t) no_objects.

(** Two tables of one entry each, with different keys. *)
Definition client_two_tables : Outcome (nat * nat) :=
  (a <- HashMap_default 0 1 hash_first ;;
   b <- HashMap_default 0 1 hash_first ;;
   do put_int a "a" 1 ;;
   do put_int b "b" 1 ;;
   ret (a, b)) no_objects.

(** The state an outcome leaves, and the iterator a scan returned. *)
Definition state_of {A : Type} (o : Outcome A) : @World Z :=
  match o with
  | Ok _ w => w
  | Throw _ w => w
  | _ => no_objects
  end.

Definition iterator_of (r : Result Iterator) : Iterator :=
  match r with
  | Ret it => it
  | _ => mkIterator Cursor_default 0 0 true
  end.

(** [put("a",1)] on a default constructed table, which is table [0]. *)
Definition client_a : Outcome nat :=
  (t <- HashMap_default 0 1 hash_first ;;
   do put_int t "a" 1 ;;
   ret t) no_objects.

Definition world_a : @World Z := state_of client_a.
Definition begin_a : Iterator := iterator_of (begin world_a 0).

Definition world_two_tables : @World Z := state_of client_two_tables.

End Clients.

(** * More of the class *)

Section Binding.

Context {T : Type}.
Variable T_default : T.

(** ** The choice of the hash function

    A pointer to a function from [KEY] to [int]: [None] is
    [undefinedhash<KEY>],
    which returns 0; any other function is given with a number that stands
    for its address, the only thing [==] and [!=] on function pointers
    look at. *)
Definition hashfunc : Type := option (nat * (KEY -> Z)).

Definition undefinedhash : hashfunc := None.

Definition hashfunc_eqb (f g : hashfunc) : bool :=
  match f, g with
  | None, None => true
  | Some (a, _), Some (b, _) => Nat.eqb a b
  | _, _ => false
  end.

Definition call_hash (f : hashfunc) : KEY -> Z :=
  match f with
  | None => fun _ => 0
  | Some (_, h) => h
  end.

(** What the default, the bins and the initializer-list constructors do
    with the template argument [thash] and the constructor argument [chash]
    before anything is allocated. *)
Definition bind_hash (thash chash : hashfunc) : Result hashfunc :=
  let hash := if negb (hashfunc_eqb thash undefinedhash) then thash else chash in
  if hashfunc_eqb hash undefinedhash then Raise TemplateFunctionError
  else if negb (hashfunc_eqb thash undefinedhash)
          && negb (hashfunc_eqb chash undefinedhash)
          && negb (hashfunc_eqb thash chash)
  then Raise TemplateFunctionError
  else Ret hash.

(** [HashMap<KEY,T,thash>(the_load_threshold, chash)] *)
Definition HashMap_ctor (thash : hashfunc) (the_load_threshold : Q)
  (chash : hashfunc) : M nat :=
  h <- read (fun _ => bind_hash thash chash) ;;
  HashMap_default T_default the_load_threshold (call_hash h).

(** [HashMap<KEY,T,thash>(initial_bins, the_load_threshold, chash)] *)
Definition HashMap_ctor_bins (thash : hashfunc) (initial_bins : Z)
  (the_load_threshold : Q) (chash : hashfunc) : M nat :=
  h <- read (fun _ => bind_hash thash chash) ;;
  HashMap_bins T_default initial_bins the_load_threshold (call_hash h).

(** The loop of the initializer-list and of the iterable constructor. *)
Fixpoint put_each (this : nat) (il : list Entry) : M unit :=
  match il with
  | [] => ret tt
  | m_entry :: il' =>
      do put T_default this (first m_entry) (second m_entry) ;;
      put_each this il'
  end.

(** [HashMap<KEY,T,thash>(il, the_load_threshold, chash)] *)
Definition HashMap_ctor_list (thash : hashfunc) (il : list Entry)
  (the_load_threshold : Q) (chash : hashfunc) : M nat :=
  h <- read (fun _ => bind_hash thash chash) ;;
  this <- HashMap_default T_default the_load_threshold (call_hash h) ;;
  do put_each this il ;;
  ret this.

(** The iterable constructor's member initializer compares [thash] with
    [(hashfunc)undefinedhash<T>], the instantiation for the value type, where
    the other constructors have [undefinedhash<KEY>].  [undefinedhash_T] is
    that pointer: [undefinedhash] itself when [T] is [KEY], the address of
    another function otherwise.  The two tests that follow are those of the
    other constructors. *)
Definition bind_hash_iterable (undefinedhash_T thash chash : hashfunc)
  : Result hashfunc :=
  let hash := if negb (hashfunc_eqb thash undefinedhash_T) then thash else chash in
  if hashfunc_eqb hash undefinedhash then Raise TemplateFunctionError
  else if negb (hashfunc_eqb thash undefinedhash)
          && negb (hashfunc_eqb chash undefinedhash)
          && negb (hashfunc_eqb thash chash)
  then Raise TemplateFunctionError
  else Ret hash.

(** [HashMap<KEY,T,thash>(i, the_load_threshold, chash)], for the entries
    an iterable [i] yields. *)
Definition HashMap_ctor_iterable (undefinedhash_T thash : hashfunc)
  (i : list Entry) (the_load_threshold : Q) (chash : hashfunc) : M nat :=
  h <- read (fun _ => bind_hash_iterable undefinedhash_T thash chash) ;;
  this <- HashMap_default T_default the_load_threshold (call_hash h) ;;
  do put_each this i ;;
  ret this.

End Binding.

(** ** Well-formed tables *)

Section Shapes.

Context {T : Type}.

(** The cells of a chain, the trailer's included, in the order a scan
    meets them. *)
Fixpoint cells_chain (f : nat) (w : @World T) (j : LNptr) : Result (list nat) :=
  match f with
  | O => OutOfFuelR
  | S f' =>
      n <~ load w j ;;
      match j, next n with
      | Some a, None => Ret [a]
      | Some a, Some _ =>
          rest <~ cells_chain f' w (next n) ;; Ret (a :: rest)
      | None, _ => UndefinedR
      end
  end.

Fixpoint cells_bins (k : nat) (w : @World T) (m : HashMap) (i : Z)
  : Result (list nat) :=
  match k with
  | O => Ret []
  | S k' =>
      j <~ index (map m) i ;;
      here <~ cells_chain (fuel w) w j ;;
      rest <~ cells_bins k' w m (i + 1) ;;
      Ret (here ++ rest)
  end.

(** The cells of the chains of a table. *)
Definition cells (w : @World T) (this : nat) : Result (list nat) :=
  m <~ get_table w this ;;
  cells_bins (Z.to_nat (bins m)) w m 0.

Fixpoint no_repeat (l : list nat) : bool :=
  match l with
  | [] => true
  | a :: l' => negb (existsb (Nat.eqb a) l') && no_repeat l'
  end.

(** [well_formed w this]: the table has a positive number of bins and an
    array of that length, each bin is a chain of allocated nodes that ends
    in a trailer, no node is in two chains, and every trailer of the heap
    carries the empty key.  The constructors make such tables. *)
Definition well_formed (w : @World T) (this : nat) : bool :=
  match get_table w this, cells w this with
  | Ret m, Ret cs =>
      (0 <? bins m) && Nat.eqb (length (map m)) (Z.to_nat (bins m))
      && no_repeat cs && trailers_empty w
  | _, _ => false
  end.

(** A bin with its cells and its entries. *)
Definition bin_chain (w : @World T) (p : LNptr)
  (c : list nat * list Entry) : Prop :=
  chain w p (fst c) (snd c).

(** [shaped w m cs]: the same, with the cells and the entries of each
    bin. *)
Definition shaped (w : @World T) (m : HashMap)
  (cs : list (list nat * list Entry)) : Prop :=
  0 < bins m /\ length (map m) = Z.to_nat (bins m) /\
  Forall2 (bin_chain w) (map m) cs /\
  NoDup (concat (fst <$> cs)).

(** The range of [int]. *)
Definition int_min : Z := -2147483648.
Definition int_max : Z := 2147483647.


(** The test [has_key] makes on an entry. *)
Definition key_is (key : KEY) (e : @Entry T) : bool :=
  String.eqb (first e) key.

(** What [find_key] returns, against the list of [str]: the first node in
    scan order that carries the key. *)
Definition first_match (w : @World T) (key : KEY) (l : list Entry)
  (r : LNptr) : Prop :=
  match find (key_is key) l with
  | Some e => exists n, load w r = Ret n /\ value n = e /\ next n <> None
  | None => r = None
  end.


(** The key of an entry, unless it is the empty key. *)
Definition named_key (e : @Entry T) : option KEY :=
  if String.eqb (first e) EmptyString then None else Some (first e).

(** No two entries of a list carry the same key, the empty key apart. *)
Fixpoint keys_distinct (l : list (@Entry T)) : bool :=
  match l with
  | [] => true
  | e :: l' =>
      (String.eqb (first e) EmptyString || negb (existsb (key_is (first e)) l'))
      && keys_distinct l'
  end.

(** The entries of a list but the first one with the key. *)
Fixpoint remove_key (key : KEY) (l : list (@Entry T)) : list Entry :=
  match l with
  | [] => []
  | e :: l' => if key_is key e then l' else e :: remove_key key l'
  end.

End Shapes.

(** ** The destructor and the mutable indexed access *)

Section Lifetime.

Context {T : Type}.
Variable T_default : T.

(** [delete_hash_table], inner loop: [for (LN* j = ht[i]; j != nullptr;)];
    every node of the chain is deleted, the trailer too. *)
Fixpoint delete_chain (f : nat) (j : LNptr) : @M T unit :=
  match f with
  | O => fun _ => OutOfFuel
  | S f' =>
      match j with
      | None => ret tt
      | Some _ =>
          n <- read (fun w => load w j) ;;
          do delete_LN j ;;
          delete_chain f' (next n)
      end
  end.

Fixpoint delete_bins (k : nat) (ht : list LNptr) (i : Z) : @M T unit :=
  match k with
  | O => ret tt
  | S k' =>
      j <- read (fun _ => index ht i) ;;
      f <- read (fun w => Ret (fuel_null w)) ;;
      do delete_chain f j ;;
      delete_bins k' ht (i + 1)
  end.

(** [delete_hash_table(ht, bins)]; its last statement frees the array,
    which is not a cell of the heap of nodes. *)
Definition delete_hash_table (ht : list LNptr) (the_bins : Z) : @M T unit :=
  delete_bins (Z.to_nat the_bins) ht 0.

(** [~HashMap()] *)
Definition destructor (this : nat) : @M T unit :=
  m <- this_table this ;;
  delete_hash_table (map m) (bins m).


End Lifetime.

(** ** Comparing tables by their entries *)

Section Comparison.

Context {T : Type}.
Variable T_eqb : T -> T -> bool.

(** What [operator ==] computes once the sizes agree, on the entries [l] of
    the left table in the order of [str] and the entries [lr] of the right
    one: each value is compared with the value of the first entry of [lr]
    that has its key; a key [lr] lacks ends the comparison with the
    KeyError of [operator[]]. *)
Fixpoint equal_entries (l lr : list (@Entry T)) : Result bool :=
  match l with
  | [] => Ret true
  | e :: l' =>
      match find (key_is (first e)) lr with
      | None => Raise KeyError
      | Some e' =>
          if T_eqb (second e) (second e') then equal_entries l' lr
          else Ret false
      end
  end.

End Comparison.

(** ** More tables of [HashMap<std::string,int>] *)

Section MoreClients.

Local Open Scope string_scope.

(** The value an outcome returns. *)
Definition result_of {A : Type} (d : A) (o : @Outcome Z A) : A :=
  match o with
  | Ok a _ => a
  | _ => d
  end.

Definition world_empty : @World Z := state_of client_empty.

(** The erase through [begin()] of the table of three keys in four
    bins. *)
Definition world_half_full : @World Z := state_of client_half_full.
Definition begin_half_full : Iterator :=
  iterator_of (begin world_half_full 0).
Definition erased_half_full : Outcome (Entry * Iterator) :=
  Iterator_erase begin_half_full world_half_full.

(** Two hash functions at different addresses. *)
Definition hash_at_1 : hashfunc := Some (1%nat, hash_first).
Definition hash_at_2 : hashfunc := Some (2%nat, hash_length).

End MoreClients.

(** * Properties *)

(** ** Reading outcomes back *)

Section Outcomes.

Context {T : Type}.

Implicit Types (w : @World T) (m : HashMap) (p : LNptr).


Lemma bind_Ok {A B : Type} (c : M A) (k : A -> M B) w (b : B) w2 :
  bind c k w = Ok b w2 ->
  exists a w1, c w = Ok a w1 /\ k a w1 = Ok b w2.
Proof.
  unfold bind. destruct (c w) as [a w1| | |]; try discriminate.
  intros H. exists a, w1. split; [reflexivity | exact H].
Qed.

Lemma read_Ok {A : Type} (f : World -> Result A) w (a : A) w1 :
  read f w = Ok a w1 -> w1 = w /\ f w = Ret a.
Proof.
  unfold read. destruct (f w); try discriminate.
  intros H. injection H as -> ->. split; reflexivity.
Qed.

Lemma ret_Ok {A : Type} (a b : A) w w1 :
  ret a w = Ok b w1 -> b = a /\ w1 = w.
Proof. unfold ret. intros H. injection H as -> ->. split; reflexivity. Qed.

Lemma this_table_Ok (this : nat) w m w1 :
  this_table this w = Ok m w1 -> w1 = w /\ tables w !! this = Some m.
Proof.
  unfold this_table. intros H. apply read_Ok in H as [-> H]. split; [reflexivity|].
  unfold get_table in H. destruct (tables w !! this); [|discriminate].
  injection H as ->. reflexivity.
Qed.

Lemma new_LN_Ok (n : LN) w p w1 :
  new_LN n w = Ok p w1 ->
  p = Some (length (nodes w)) /\ w1 = set_nodes w (nodes w ++ [Some n]).
Proof. unfold new_LN. intros H. injection H as <- <-. split; reflexivity. Qed.

Lemma store_Ok p (n : LN) w (u : unit) w1 :
  store p n w = Ok u w1 ->
  exists a old, p = Some a /\ nodes w !! a = Some (Some old) /\
                w1 = set_nodes w (<[a := Some n]> (nodes w)).
Proof.
  unfold store. destruct (load w p) as [old| | |] eqn:E; try discriminate.
  destruct p as [a|]; [|discriminate]. intros H. injection H as _ <-.
  exists a, old. split; [reflexivity|]. split; [|reflexivity].
  unfold load in E. destruct (nodes w !! a) as [[n0|]|]; try discriminate.
  injection E as ->. reflexivity.
Qed.

Lemma delete_LN_Ok p w (u : unit) w1 :
  delete_LN p w = Ok u w1 -> tables w1 = tables w.
Proof.
  unfold delete_LN. destruct p as [a|].
  - destruct (load w (Some a)); try discriminate.
    intros H. injection H as _ <-. reflexivity.
  - intros H. injection H as _ <-. reflexivity.
Qed.

Lemma put_table_Ok (this : nat) m w (u : unit) w1 :
  put_table this m w = Ok u w1 ->
  (this < length (tables w))%nat /\
  w1 = set_tables w (<[this := m]> (tables w)).
Proof.
  unfold put_table. destruct (tables w !! this) eqn:E; [|discriminate].
  intros H. injection H as _ <-. split; [|reflexivity].
  apply lookup_lt_Some in E. exact E.
Qed.

Lemma new_LN_tables (n : LN) w p w1 :
  new_LN n w = Ok p w1 -> tables w1 = tables w.
Proof. intros H. apply new_LN_Ok in H as [_ ->]. reflexivity. Qed.

Lemma store_tables p (n : LN) w (u : unit) w1 :
  store p n w = Ok u w1 -> tables w1 = tables w.
Proof. intros H. apply store_Ok in H as (a & old & _ & _ & ->). reflexivity. Qed.

End Outcomes.

(** Splits a hypothesis [(x <- c ;; k) w = Ok b w'] into its steps, and
    resolves the steps that only read. *)
Ltac inv_prim H :=
  lazymatch type of H with
  | read _ _ = Ok _ _ =>
      apply read_Ok in H; destruct H as [-> H]; cbv beta in H
  | this_table _ _ = Ok _ _ =>
      apply this_table_Ok in H; destruct H as [-> H]
  | ret _ _ = Ok _ _ =>
      apply ret_Ok in H; destruct H as [-> ->]
  | _ => idtac
  end.

Ltac inv_M H :=
  lazymatch type of H with
  | bind _ _ _ = Ok _ _ =>
      let a := fresh "a" in
      let w := fresh "w" in
      let H1 := fresh "H" in
      apply bind_Ok in H; destruct H as (a & w & H1 & H); cbv beta in H;
      inv_M H1; inv_M H
  | _ => inv_prim H
  end.

(** ** How the commands change the table objects *)

Section Theory.

Context {T : Type}.
Variable T_default : T.

Implicit Types (w : @World T) (m : HashMap) (it : Iterator) (p : LNptr).

Lemma touches_same_tables (R : HashMap -> HashMap -> Prop) this w w' :
  (forall m, R m m) -> tables w' = tables w -> touches R this w w'.
Proof.
  intros HR E t m Ht. exists m. rewrite E. split; [exact Ht|].
  split; [intros _; apply HR | reflexivity].
Qed.

Lemma touches_trans (R1 R2 R3 : HashMap -> HashMap -> Prop) this w w1 w2 :
  touches R2 this w1 w2 ->
  (forall a b c, R1 a b -> R2 b c -> R3 a c) ->
  touches R1 this w w1 -> touches R3 this w w2.
Proof.
  intros H2 HR H1 t m Ht.
  destruct (H1 t m Ht) as (m1 & Ht1 & Hthis1 & Hother1).
  destruct (H2 t m1 Ht1) as (m2 & Ht2 & Hthis2 & Hother2).
  exists m2. split; [exact Ht2|]. split.
  - intros E. eapply HR; [apply Hthis1 | apply Hthis2]; exact E.
  - intros NE. rewrite (Hother2 NE). apply Hother1. exact NE.
Qed.

Lemma touches_weaken (R1 R2 : HashMap -> HashMap -> Prop) this w w' :
  (forall a b, R1 a b -> R2 a b) -> touches R1 this w w' -> touches R2 this w w'.
Proof.
  intros HR H t m Ht. destruct (H t m Ht) as (m' & Ht' & Hthis & Hother).
  exists m'. split; [exact Ht'|]. split; [|exact Hother].
  intros E. apply HR, Hthis, E.
Qed.

Lemma touches_put_table (R : HashMap -> HashMap -> Prop) this m0 m w0 w w1
  (u : unit) :
  put_table this m w = Ok u w1 ->
  tables w = tables w0 -> tables w0 !! this = Some m0 ->
  R m0 m -> touches R this w0 w1.
Proof.
  intros Hput E H0 HR t mt Ht.
  apply put_table_Ok in Hput as [Hlt ->]. cbn. rewrite E.
  destruct (decide (t = this)) as [->|NE].
  - exists m. rewrite list_lookup_insert_eq by (rewrite <- E; exact Hlt).
    split; [reflexivity|]. split; [|congruence].
    intros _. rewrite H0 in Ht. injection Ht as <-. exact HR.
  - exists mt. rewrite list_lookup_insert_ne by congruence.
    split; [exact Ht|]. split; [congruence | reflexivity].
Qed.

Lemma kept_count_refl m : kept_count m m.
Proof. reflexivity. Qed.

Lemma kept_count_trans a b c : kept_count a b -> kept_count b c -> kept_count a c.
Proof. unfold kept_count. congruence. Qed.

Lemma new_trailers_tables (k : nat) w (a : list LNptr) w1 :
  new_trailers T_default k w = Ok a w1 -> tables w1 = tables w.
Proof.
  revert w a w1. induction k as [|k IH]; intros w a w1 H; cbn [new_trailers] in H.
  - inv_M H. reflexivity.
  - inv_M H. apply new_LN_tables in H0. apply IH in H1. congruence.
Qed.

(** Facts about [tables] that follow from node-only steps in the context. *)
Ltac node_steps :=
  repeat match goal with
  | H : new_LN _ _ = Ok _ _ |- _ => apply new_LN_tables in H
  | H : store _ _ _ = Ok _ _ |- _ => apply store_tables in H
  | H : delete_LN _ _ = Ok _ _ |- _ => apply delete_LN_Ok in H
  | H : new_trailers _ _ _ = Ok _ _ |- _ => apply new_trailers_tables in H
  end.

Ltac table_lookup :=
  match goal with
  | Hm : tables ?wx !! ?t = Some _ |- tables ?wy !! ?t = Some _ =>
      replace (tables wy) with (tables wx) by congruence; exact Hm
  end.

(** Side conditions on the relations between two versions of a table. *)
Ltac rel :=
  unfold kept_count, bumped_count, grown_count, kept_but_bins, put_counts,
    erase_counts, clear_counts in *;
  cbn [hash load_threshold used mod_count bins map set_map set_bins set_used
       set_mod_count] in *;
  intros; intuition (try congruence; try lia).

(** The effect of one [put_table], read off the context. *)
Ltac by_put_table :=
  eapply touches_put_table;
  [eassumption | first [congruence | eassumption | reflexivity]
  | first [eassumption | table_lookup]
  | try rel].

Lemma rehouse_chain_touches (f : nat) this j w (u : unit) w1 :
  rehouse_chain f this j w = Ok u w1 -> touches kept_but_bins this w w1.
Proof.
  revert j w. induction f as [|f IH]; intros j w H; cbn [rehouse_chain] in H;
    [discriminate|].
  destruct j as [a|].
  - inv_M H. node_steps.
    eapply (touches_trans kept_but_bins); [eapply IH; eassumption|rel|].
    by_put_table.
  - inv_M H. apply touches_same_tables; [rel|reflexivity].
Qed.

Lemma rehouse_bins_touches (k : nat) this old_map i w (u : unit) w1 :
  rehouse_bins k this old_map i w = Ok u w1 -> touches kept_but_bins this w w1.
Proof.
  revert i w. induction k as [|k IH]; intros i w H; cbn [rehouse_bins] in H.
  - inv_M H. apply touches_same_tables; [rel|reflexivity].
  - inv_M H.
    eapply (touches_trans kept_but_bins); [eapply IH; eassumption|rel|].
    eapply rehouse_chain_touches; eassumption.
Qed.

Lemma ensure_load_threshold_touches this new_used w (u : unit) w1 :
  ensure_load_threshold T_default this new_used w = Ok u w1 ->
  touches kept_but_bins this w w1.
Proof.
  unfold ensure_load_threshold. intros H. inv_M H.
  destruct (bins a =? 0); [discriminate|].
  destruct (Qle_bool _ _).
  - inv_M H. apply touches_same_tables; [rel|reflexivity].
  - inv_M H. node_steps.
    eapply (touches_trans kept_but_bins); [eapply rehouse_bins_touches; eassumption|rel|].
    by_put_table.
Qed.

(** ** [has_key] and [find_key] *)

(** [find_key] only returns nodes it loaded, and their key is the one asked. *)
Lemma find_key_chain_Some (f : nat) w key j a :
  find_key_chain f w key j = Ret (Some a) ->
  exists n, load w (Some a) = Ret n /\ first (value n) = key.
Proof.
  revert j. induction f as [|f IH]; intros j H; [discriminate|].
  cbn [find_key_chain] in H. destruct j as [b|]; [|discriminate].
  destruct (load w (Some b)) as [n| | |] eqn:E; try discriminate.
  cbn [rbind] in H. destruct (String.eqb (first (value n)) key) eqn:Ek.
  - injection H as ->. exists n. split; [exact E|]. apply String.eqb_eq, Ek.
  - apply IH in H. exact H.
Qed.

(** [has_key] and [find_key] walk the same nodes, [find_key] one step
    further at the end of a chain. *)
Lemma find_key_chain_of_has_key (f : nat) w key j b :
  has_key_chain f w key j = Ret b ->
  exists r, find_key_chain (S f) w key j = Ret r /\ (b = true -> r <> None).
Proof.
  revert j b. induction f as [|f IH]; intros j b H; [discriminate|].
  cbn [has_key_chain] in H.
  destruct (load w j) as [n| | |] eqn:Ej; try discriminate. cbn [rbind] in H.
  assert (Hj : exists a, j = Some a).
  { destruct j as [a|]; [exists a; reflexivity | discriminate]. }
  destruct Hj as [a ->].
  cbn [find_key_chain]. rewrite Ej. cbn [rbind].
  destruct (next n) as [b'|] eqn:En.
  - destruct (String.eqb (first (value n)) key) eqn:Ek.
    + exists (Some a). split; [reflexivity|]. discriminate.
    + destruct (IH _ _ H) as (r & Hr & Hb). exists r. split; [exact Hr | exact Hb].
  - injection H as <-.
    destruct (String.eqb (first (value n)) key) eqn:Ek.
    + exists (Some a). split; [reflexivity|]. discriminate.
    + exists None. split; [destruct f; reflexivity | discriminate].
Qed.

Lemma find_key_bins_of_has_key (k : nat) w m key i :
  has_key_bins k w m key i = Ret true ->
  exists a n, find_key_bins k w m key i = Ret (Some a) /\
              load w (Some a) = Ret n /\ first (value n) = key.
Proof.
  revert i. induction k as [|k IH]; intros i H; [discriminate|].
  cbn [has_key_bins] in H. cbn [find_key_bins].
  destruct (index (map m) i) as [j| | |]; try discriminate. cbn [rbind] in *.
  destruct (has_key_chain (fuel w) w key j) as [b| | |] eqn:Eb; try discriminate.
  cbn [rbind] in H.
  destruct (find_key_chain_of_has_key _ _ _ _ _ Eb) as (r & Hr & Hb).
  unfold fuel_null. rewrite Hr. cbn [rbind].
  destruct r as [a|].
  - destruct (find_key_chain_Some _ _ _ _ _ Hr) as (n & Hn & Hk).
    exists a, n. split; [reflexivity|]. split; assumption.
  - destruct b; [exfalso; apply Hb; reflexivity|]. apply IH, H.
Qed.

Lemma find_key_of_has_key w this key :
  has_key w this key = Ret true ->
  exists a n, find_key w this key = Ret (Some a) /\
              load w (Some a) = Ret n /\ first (value n) = key.
Proof.
  unfold has_key, find_key. destruct (get_table w this) as [m| | |]; try discriminate.
  cbn [rbind]. apply find_key_bins_of_has_key.
Qed.

(** ** The commands and [mod_count] *)

Lemma grown_count_refl m : grown_count m m.
Proof. unfold grown_count. lia. Qed.

Lemma grown_count_trans a b c :
  grown_count a b -> grown_count b c -> grown_count a c.
Proof. unfold grown_count. lia. Qed.

Lemma kept_grown a b : kept_count a b -> grown_count a b.
Proof. unfold kept_count, grown_count. lia. Qed.

(** [put] of a key that [has_key] finds: the value of the node [find_key]
    returns is replaced, and nothing else changes. *)
Lemma put_existing w this key (v : T) :
  has_key w this key = Ret true ->
  exists a n,
    find_key w this key = Ret (Some a) /\
    nodes w !! a = Some (Some n) /\ first (value n) = key /\
    put T_default this key v w =
      Ok (second (value n))
         (set_nodes w (<[a := Some (mkLN (mkEntry (first (value n)) v) (next n))]>
                         (nodes w))).
Proof.
  intros Hk.
  destruct (find_key_of_has_key _ _ _ Hk) as (a & n & Hf & Hl & Hkey).
  exists a, n. split; [exact Hf|].
  assert (Hn : nodes w !! a = Some (Some n)).
  { unfold load in Hl. destruct (nodes w !! a) as [[n0|]|]; try discriminate.
    injection Hl as ->. reflexivity. }
  split; [exact Hn|]. split; [exact Hkey|].
  unfold put, bind, this_table, read.
  unfold has_key in Hk.
  destruct (get_table w this) as [m| | |] eqn:Em; try discriminate.
  cbn [rbind] in Hk.
  assert (Hb : (bins m =? 0) = false).
  { destruct (bins m =? 0) eqn:E; [|reflexivity].
    apply Z.eqb_eq in E. rewrite E in Hk. discriminate. }
  unfold hash_compress. rewrite Hb.
  unfold has_key. rewrite Em. cbn [rbind]. rewrite Hk.
  rewrite Hf, Hl. unfold store. rewrite Hl. reflexivity.
Qed.

Lemma put_new_touches w this key (v r : T) w1 :
  has_key w this key = Ret false ->
  put T_default this key v w = Ok r w1 ->
  touches put_counts this w w1.
Proof.
  intros Hk H. unfold put in H. inv_M H. rewrite Hk in H2. injection H2 as <-.
  inv_M H. node_steps.
  eapply (touches_trans
            (fun a b => used b = used a + 1 /\ mod_count b = mod_count a)
            (fun a b => used b = used a /\ mod_count b = mod_count a + 1));
    [|rel|].
  - by_put_table.
  - eapply (touches_trans
              (fun a b => used b = used a + 1 /\ mod_count b = mod_count a));
      [eapply ensure_load_threshold_touches; eassumption|rel|].
    by_put_table.
Qed.

Lemma put_touches w this key (v r : T) w1 :
  put T_default this key v w = Ok r w1 -> touches grown_count this w w1.
Proof.
  intros H. destruct (has_key w this key) as [[|]| | |] eqn:Hk.
  - destruct (put_existing w this key v Hk) as (a & n & _ & _ & _ & E).
    rewrite E in H. injection H as _ <-.
    apply touches_same_tables; [apply grown_count_refl|reflexivity].
  - eapply touches_weaken; [|eapply put_new_touches; eassumption]. rel.
  - unfold put in H. inv_M H. congruence.
  - unfold put in H. inv_M H. congruence.
  - unfold put in H. inv_M H. congruence.
Qed.

Lemma erase_touches w this key (r : T) w1 :
  erase this key w = Ok r w1 -> touches erase_counts this w w1.
Proof.
  intros H. unfold erase in H. inv_M H.
  destruct a as [a|]; [|discriminate].
  inv_M H. node_steps.
  by_put_table.
Qed.

Lemma clear_chain_touches (f : nat) this i j w (u : unit) w1 :
  clear_chain f this i j w = Ok u w1 -> touches kept_but_bins this w w1.
Proof.
  revert j w. induction f as [|f IH]; intros j w H; cbn [clear_chain] in H;
    [discriminate|].
  destruct j as [a|].
  - inv_M H. destruct (next a0).
    + inv_M H. node_steps.
      eapply (touches_trans kept_but_bins); [eapply IH; eassumption|rel|].
      apply touches_same_tables; [rel|assumption].
    + inv_M H.
      by_put_table.
  - inv_M H. apply touches_same_tables; [rel|reflexivity].
Qed.

Lemma clear_bins_touches (k : nat) this i w (u : unit) w1 :
  clear_bins k this i w = Ok u w1 -> touches kept_but_bins this w w1.
Proof.
  revert i w. induction k as [|k IH]; intros i w H; cbn [clear_bins] in H.
  - inv_M H. apply touches_same_tables; [rel|reflexivity].
  - inv_M H.
    eapply (touches_trans kept_but_bins); [eapply IH; eassumption|rel|].
    eapply clear_chain_touches; eassumption.
Qed.

Lemma clear_touches w this (u : unit) w1 :
  clear this w = Ok u w1 -> touches clear_counts this w w1.
Proof.
  intros H. unfold clear in H. inv_M H.
  eapply (touches_trans kept_but_bins clear_counts); [|rel|].
  - by_put_table.
  - eapply clear_bins_touches; eassumption.
Qed.

Lemma put_all_from_touches (l : list Entry) this count w (r : Z) w1 :
  put_all_from T_default this l count w = Ok r w1 ->
  touches grown_count this w w1.
Proof.
  revert count w. induction l as [|e l IH]; intros count w H;
    cbn [put_all_from] in H.
  - inv_M H. apply touches_same_tables; [apply grown_count_refl|reflexivity].
  - inv_M H.
    eapply touches_trans; [eapply IH; eassumption|apply grown_count_trans|].
    eapply put_touches; eassumption.
Qed.

Lemma copy_list_tables (f : nat) l w p w1 :
  copy_list T_default f l w = Ok p w1 -> tables w1 = tables w.
Proof.
  revert l w p w1. induction f as [|f IH]; intros l w p w1 H;
    cbn [copy_list] in H; [discriminate|].
  inv_M H. destruct (next a).
  - inv_M H. node_steps. apply IH in H1. congruence.
  - node_steps. assumption.
Qed.

Lemma copy_hash_table_from_touches (k : nat) this ht i w (u : unit) w1 :
  copy_hash_table_from T_default k this ht i w = Ok u w1 ->
  touches kept_count this w w1.
Proof.
  revert i w. induction k as [|k IH]; intros i w H;
    cbn [copy_hash_table_from] in H.
  - inv_M H. apply touches_same_tables; [apply kept_count_refl|reflexivity].
  - inv_M H. apply copy_list_tables in H2.
    eapply touches_trans; [eapply IH; eassumption|apply kept_count_trans|].
    by_put_table.
Qed.

Lemma operator_assign_touches w this rhs (u : unit) w1 :
  operator_assign T_default this rhs w = Ok u w1 ->
  touches kept_count this w w1.
Proof.
  unfold operator_assign. destruct (Nat.eqb this rhs).
  - intros H. inv_M H. apply touches_same_tables; [apply kept_count_refl|reflexivity].
  - intros H. unfold copy_hash_table in H. inv_M H. node_steps.
    eapply touches_trans; [|apply kept_count_trans|].
    { by_put_table. }
    eapply touches_trans;
      [eapply copy_hash_table_from_touches; eassumption|apply kept_count_trans|].
    eapply touches_trans; [|apply kept_count_trans|].
    { by_put_table. }
    by_put_table.
Qed.

Lemma advance_cursors_ref_map w it it' :
  advance_cursors w it = Ret it' -> ref_map it' = ref_map it.
Proof.
  unfold advance_cursors. intros H.
  destruct (load w _); try discriminate. cbn [rbind] in H.
  destruct (load w _); try discriminate. cbn [rbind] in H.
  destruct (negb _).
  - injection H as <-. reflexivity.
  - destruct (get_table w _); try discriminate. cbn [rbind] in H.
    destruct (advance_bins _ _ _ _); try discriminate. cbn [rbind] in H.
    injection H as <-. reflexivity.
Qed.

Lemma Iterator_erase_touches it w (r : Entry * Iterator) w1 :
  Iterator_erase it w = Ok r w1 -> touches grown_count (ref_map it) w w1.
Proof.
  unfold Iterator_erase. intros H. inv_M H.
  destruct (negb (can_erase it)); [discriminate|].
  destruct (snd (current it)) as [c|]; [|discriminate].
  inv_M H.
  assert (Hr : ref_map a2 = ref_map it /\ w0 = w).
  { destruct (next a1).
    - inv_M H3. split; reflexivity.
    - inv_M H3. split; [|reflexivity].
      apply advance_cursors_ref_map in H3. exact H3. }
  destruct Hr as [Hr ->]. rewrite Hr in *.
  eapply touches_weaken; [|eapply erase_touches; eassumption]. rel.
Qed.

Lemma touches_counts_grow this w w' :
  touches grown_count this w w' -> counts_grow w w'.
Proof.
  intros H t m Ht. destruct (H t m Ht) as (m' & Ht' & Hthis & Hother).
  exists m'. split; [exact Ht'|].
  destruct (decide (t = this)) as [E|NE].
  - apply Hthis, E.
  - rewrite (Hother NE). lia.
Qed.

Lemma counts_grow_refl w : counts_grow w w.
Proof. intros t m Ht. exists m. split; [exact Ht|lia]. Qed.

Lemma counts_grow_trans w w1 w2 :
  counts_grow w w1 -> counts_grow w1 w2 -> counts_grow w w2.
Proof.
  intros H1 H2 t m Ht. destruct (H1 t m Ht) as (m1 & Ht1 & Hle1).
  destruct (H2 t m1 Ht1) as (m2 & Ht2 & Hle2).
  exists m2. split; [exact Ht2|lia].
Qed.

Lemma new_table_counts_grow w w1 m0 :
  tables w1 = tables w ++ [m0] -> counts_grow w w1.
Proof.
  intros E t m Ht. exists m. rewrite E. split; [|lia].
  apply lookup_app_l_Some. exact Ht.
Qed.

Lemma run_command_counts_grow (c : Command) w (u : unit) w1 :
  run_command T_default c w = Ok u w1 -> counts_grow w w1.
Proof.
  destruct c; cbn [run_command]; intros H.
  - inv_M H. eapply touches_counts_grow, put_touches; eassumption.
  - inv_M H. eapply touches_counts_grow, touches_weaken;
      [|eapply erase_touches; eassumption]. rel.
  - eapply touches_counts_grow, touches_weaken;
      [|eapply clear_touches; eassumption]. rel.
  - inv_M H. eapply touches_counts_grow, put_all_from_touches; eassumption.
  - eapply touches_counts_grow, touches_weaken;
      [apply kept_grown | eapply operator_assign_touches; eassumption].
  - inv_M H. eapply touches_counts_grow, Iterator_erase_touches; eassumption.
  - inv_M H. unfold HashMap_default in H0. inv_M H0. node_steps.
    injection H0 as _ <-.
    eapply new_table_counts_grow. cbn. rewrite H. reflexivity.
  - inv_M H. unfold HashMap_bins in H0. inv_M H0. node_steps.
    injection H0 as _ <-.
    eapply new_table_counts_grow. cbn. rewrite H. reflexivity.
Qed.

Lemma run_commands_counts_grow (cs : list Command) w (u : unit) w1 :
  run_commands T_default cs w = Ok u w1 -> counts_grow w w1.
Proof.
  revert w. induction cs as [|c cs IH]; intros w H; cbn [run_commands] in H.
  - inv_M H. apply counts_grow_refl.
  - inv_M H. eapply counts_grow_trans; [|eapply IH; eassumption].
    eapply run_command_counts_grow; eassumption.
Qed.

(** ** The fence of the iterators *)

Lemma check_mod_count_mismatch w it m :
  tables w !! ref_map it = Some m ->
  expected_mod_count it <> mod_count m ->
  check_mod_count w it = Raise ConcurrentModificationError.
Proof.
  intros Hm Hne. unfold check_mod_count, get_table. rewrite Hm. cbn [rbind].
  destruct (expected_mod_count it =? mod_count m) eqn:E; [|reflexivity].
  apply Z.eqb_eq in E. contradiction.
Qed.

Lemma check_mod_count_match w it m :
  tables w !! ref_map it = Some m ->
  expected_mod_count it = mod_count m ->
  check_mod_count w it = Ret tt.
Proof.
  intros Hm He. unfold check_mod_count, get_table. rewrite Hm. cbn [rbind].
  rewrite He, Z.eqb_refl. reflexivity.
Qed.

Lemma fenced_of_check w it :
  check_mod_count w it = Raise ConcurrentModificationError -> fenced w it.
Proof.
  intros H. unfold fenced, operator_pre_inc, operator_post_inc, operator_deref,
    operator_arrow, Iterator_eq, Iterator_ne, Iterator_erase, bind, read.
  rewrite H. cbn [rbind]. repeat split; reflexivity.
Qed.

(** Once the counter of its table has passed the snapshot, an iterator is
    fenced for good. *)
Lemma fenced_for_good_of_count w it m :
  tables w !! ref_map it = Some m ->
  expected_mod_count it < mod_count m ->
  fenced_for_good T_default w it.
Proof.
  intros Hm Hlt cs w' Hrun.
  apply run_commands_counts_grow in Hrun.
  destruct (Hrun _ _ Hm) as (m' & Hm' & Hle).
  apply fenced_of_check. eapply check_mod_count_mismatch; [exact Hm'|lia].
Qed.

(** ** Overwriting a value under an iterator *)

Lemma same_links_store w a n (v : T) :
  nodes w !! a = Some (Some n) ->
  same_links w
    (set_nodes w (<[a := Some (mkLN (mkEntry (first (value n)) v) (next n))]>
                    (nodes w))).
Proof.
  intros Hn. split; [reflexivity|]. split; [cbn; apply length_insert|].
  intros [b|]; [|reflexivity]. unfold load. cbn [nodes set_nodes].
  destruct (decide (b = a)) as [->|NE].
  - rewrite Hn. rewrite list_lookup_insert_eq by (eapply lookup_lt_Some; exact Hn).
    eexists. split; [reflexivity|]. split; reflexivity.
  - rewrite list_lookup_insert_ne by congruence.
    destruct (nodes w !! b) as [[x|]|]; try reflexivity.
    exists x. repeat split; reflexivity.
Qed.

Lemma advance_chain_same_links (f : nat) w w1 j :
  same_links w w1 -> advance_chain f w1 j = advance_chain f w j.
Proof.
  intros (_ & _ & Hl). revert j. induction f as [|f IH]; intros j; [reflexivity|].
  cbn [advance_chain]. specialize (Hl j).
  destruct (load w j) as [x| | |].
  - destruct Hl as (x' & -> & Hk & Hn). cbn [rbind]. rewrite Hk, Hn.
    destruct (next x); [|reflexivity].
    destruct (negb _); [reflexivity|]. apply IH.
  - rewrite Hl. reflexivity.
  - rewrite Hl. reflexivity.
  - rewrite Hl. reflexivity.
Qed.

Lemma advance_bins_same_links (k : nat) w w1 m i :
  same_links w w1 -> advance_bins k w1 m i = advance_bins k w m i.
Proof.
  intros H. revert i. induction k as [|k IH]; intros i; [reflexivity|].
  cbn [advance_bins]. destruct (index (map m) i); try reflexivity. cbn [rbind].
  unfold fuel. destruct H as (Ht & Hlen & Hl). rewrite Hlen.
  rewrite (advance_chain_same_links _ w w1) by (repeat split; assumption).
  destruct (advance_chain _ w a) as [[b|]| | |]; try reflexivity.
  cbn [rbind]. apply IH.
Qed.

Lemma advance_cursors_same_links w w1 it :
  same_links w w1 -> advance_cursors w1 it = advance_cursors w it.
Proof.
  intros H. unfold advance_cursors.
  pose proof H as (Ht & Hlen & Hl).
  pose proof (Hl (snd (current it))) as H1.
  destruct (load w (snd (current it))) as [x| | |].
  - destruct H1 as (x' & -> & Hk & Hn). cbn [rbind]. rewrite Hn.
    pose proof (Hl (next x)) as H2.
    destruct (load w (next x)) as [y| | |].
    + destruct H2 as (y' & -> & Hk2 & Hn2). cbn [rbind]. rewrite Hk2.
      destruct (negb _); [reflexivity|].
      unfold get_table. rewrite Ht.
      destruct (tables w !! ref_map it); [|reflexivity]. cbn [rbind].
      rewrite (advance_bins_same_links _ w w1) by exact H. reflexivity.
    + rewrite H2. reflexivity.
    + rewrite H2. reflexivity.
    + rewrite H2. reflexivity.
  - rewrite H1. reflexivity.
  - rewrite H1. reflexivity.
  - rewrite H1. reflexivity.
Qed.

Lemma check_mod_count_same_tables w w1 it :
  tables w1 = tables w -> check_mod_count w1 it = check_mod_count w it.
Proof. intros E. unfold check_mod_count, get_table. rewrite E. reflexivity. Qed.

Lemma as_usable_as_same_links w w1 it :
  same_links w w1 -> as_usable_as w w1 it.
Proof.
  intros H. pose proof H as (Ht & Hlen & Hl).
  unfold as_usable_as, operator_pre_inc, operator_post_inc, Iterator_eq,
    Iterator_ne, operator_deref, operator_arrow.
  rewrite (check_mod_count_same_tables w w1 it Ht).
  rewrite (advance_cursors_same_links w w1 it H).
  repeat split; try reflexivity;
    (intros e He; destruct (check_mod_count w it); try discriminate;
     cbn [rbind] in *; destruct (_ || _); [discriminate|];
     specialize (Hl (snd (current it)));
     destruct (load w (snd (current it))) as [x| | |]; try discriminate;
     destruct Hl as (x' & -> & Hk & _); cbn [rbind] in *; injection He as <-;
     exists (value x'); split; [reflexivity|exact Hk]).
Qed.

(** C5. After a structural change of its table that was not made through
    it (the put of a new key, an erase, a clear), every operation of an
    iterator fails with ConcurrentModificationError, and goes on failing
    whatever is done to the tables afterwards; a put that overwrites the
    value of a key the table has returns, leaves the table object (so
    mod_count and used) as it was, and the iterator advances, compares and
    dereferences as before. *)
Theorem iterator_fence_after_structural_change w it :
  in_sync w it ->
  (forall key v r w1,
      has_key w (ref_map it) key = Ret false ->
      put T_default (ref_map it) key v w = Ok r w1 ->
      fenced_for_good T_default w1 it) /\
  (forall key r w1,
      erase (ref_map it) key w = Ok r w1 -> fenced_for_good T_default w1 it) /\
  (forall w1,
      clear (ref_map it) w = Ok tt w1 -> fenced_for_good T_default w1 it) /\
  (forall key v,
      has_key w (ref_map it) key = Ret true ->
      exists old w1,
        put T_default (ref_map it) key v w = Ok old w1 /\
        tables w1 = tables w /\ in_sync w1 it /\
        check_mod_count w1 it = Ret tt /\ as_usable_as w w1 it).
Proof.
  intros (m & Hm & He).
  assert (Hbump : forall w1, touches bumped_count (ref_map it) w w1 ->
                    fenced_for_good T_default w1 it).
  { intros w1 Ht. destruct (Ht _ _ Hm) as (m1 & Hm1 & Hb & _).
    specialize (Hb eq_refl). unfold bumped_count in Hb.
    eapply fenced_for_good_of_count; [exact Hm1|lia]. }
  split; [|split; [|split]].
  - intros key v r w1 Hk Hput. apply Hbump.
    eapply touches_weaken; [|eapply put_new_touches; eassumption]. rel.
  - intros key r w1 Her. apply Hbump.
    eapply touches_weaken; [|eapply erase_touches; eassumption]. rel.
  - intros w1 Hcl. apply Hbump.
    eapply touches_weaken; [|eapply clear_touches; eassumption]. rel.
  - intros key v Hk.
    destruct (put_existing w (ref_map it) key v Hk) as (a & n & _ & Hn & _ & Hput).
    eexists _, _. split; [exact Hput|]. split; [reflexivity|].
    split; [exists m; split; [exact Hm|exact He]|].
    split; [eapply check_mod_count_match; [exact Hm|exact He]|].
    apply as_usable_as_same_links, same_links_store, Hn.
Qed.

(** ** Chains *)

Lemma load_Ret w a n : load w (Some a) = Ret n <-> nodes w !! a = Some (Some n).
Proof.
  unfold load. destruct (nodes w !! a) as [[x|]|]; split; intros H;
    try discriminate; congruence.
Qed.

Lemma chain_length w p addrs l :
  chain w p addrs l -> length addrs = S (length l).
Proof. induction 1; cbn; congruence. Qed.

Lemma chain_det w p addrs l addrs' l' :
  chain w p addrs l -> chain w p addrs' l' -> addrs = addrs' /\ l = l'.
Proof.
  intros H. revert addrs' l'.
  induction H as [a n Hn Hnext | a n addrs l Hn Hc IH]; intros addrs' l' H'.
  - inversion H' as [a' n' Hn' Hnext' | a' n' addrs2 l2 Hn' Hc']; subst.
    + split; reflexivity.
    + rewrite Hn in Hn'. injection Hn' as <-. rewrite Hnext in Hc'. inversion Hc'.
  - inversion H' as [a' n' Hn' Hnext' | a' n' addrs2 l2 Hn' Hc']; subst.
    + rewrite Hn in Hn'. injection Hn' as <-. rewrite Hnext' in Hc. inversion Hc.
    + rewrite Hn in Hn'. injection Hn' as <-.
      destruct (IH _ _ Hc') as [-> ->]. split; reflexivity.
Qed.

Lemma chain_suffix w p addrs l pre a post :
  chain w p addrs l -> addrs = pre ++ a :: post ->
  exists l', chain w (Some a) (a :: post) l'.
Proof.
  intros H. revert pre.
  induction H as [b n Hn Hnext | b n addrs l Hn Hc IH]; intros pre E.
  - destruct pre as [|x [|y pre]]; cbn in E; try discriminate.
    injection E as -> <-. exists []. eapply chain_trailer; eassumption.
  - destruct pre as [|x pre]; cbn in E.
    + injection E as -> ->. eexists. eapply chain_live; eassumption.
    + injection E as -> ->. eapply IH. reflexivity.
Qed.

Lemma chain_NoDup w p addrs l : chain w p addrs l -> NoDup addrs.
Proof.
  induction 1 as [a n Hn Hnext | a n addrs l Hn Hc IH].
  - apply NoDup_singleton.
  - apply NoDup_cons. split; [|exact IH].
    intros Hin. apply list_elem_of_split in Hin as (pre & post & E).
    destruct (chain_suffix _ _ _ _ _ _ _ Hc E) as (l' & Hc').
    assert (Hc2 : chain w (Some a) (a :: addrs) (value n :: l))
      by (eapply chain_live; eassumption).
    destruct (chain_det _ _ _ _ _ _ Hc' Hc2) as [E2 _].
    injection E2 as E2. rewrite E in E2.
    apply (f_equal length) in E2. rewrite length_app in E2. cbn in E2. lia.
Qed.

Lemma chain_allocated w p addrs l a :
  chain w p addrs l -> a ∈ addrs -> (a < length (nodes w))%nat.
Proof.
  induction 1 as [b n Hn Hnext | b n addrs l Hn Hc IH]; intros Hin.
  - apply list_elem_of_singleton in Hin as ->. eapply lookup_lt_Some, Hn.
  - apply elem_of_cons in Hin as [->|Hin]; [eapply lookup_lt_Some, Hn|auto].
Qed.

(** A chain has no more nodes than the heap has cells: [fuel] is enough for
    any loop that walks it to the trailer. *)
Lemma chain_fuel w p addrs l : chain w p addrs l -> (length l < fuel w)%nat.
Proof.
  intros H. pose proof (chain_length _ _ _ _ H) as Hlen.
  assert (Hsub : addrs ⊆+ seq 0 (length (nodes w))).
  { apply NoDup_submseteq; [eapply chain_NoDup, H|].
    intros a Ha. apply elem_of_seq. split; [lia|].
    cbn. eapply chain_allocated; eassumption. }
  apply submseteq_length in Hsub. rewrite length_seq in Hsub.
  unfold fuel. lia.
Qed.

Lemma chain_extends w w1 ext p addrs l :
  nodes w1 = nodes w ++ ext -> chain w p addrs l -> chain w1 p addrs l.
Proof.
  intros E. induction 1 as [a n Hn Hnext | a n addrs l Hn Hc IH].
  - eapply chain_trailer; [|exact Hnext]. rewrite E.
    apply lookup_app_l_Some, Hn.
  - eapply chain_live; [|exact IH]. rewrite E. apply lookup_app_l_Some, Hn.
Qed.


Lemma chain_str_chain (f : nat) w p addrs l :
  chain w p addrs l -> (length l < f)%nat -> str_chain f w p = Ret l.
Proof.
  intros H. revert f.
  induction H as [a n Hn Hnext | a n addrs l Hn Hc IH]; intros f Hf.
  - destruct f as [|f]; [lia|]. cbn [str_chain].
    apply load_Ret in Hn. rewrite Hn. cbn [rbind]. rewrite Hnext. reflexivity.
  - destruct f as [|f]; [cbn in Hf; lia|]. cbn [str_chain].
    apply load_Ret in Hn. rewrite Hn. cbn [rbind].
    destruct (next n) as [b|] eqn:Enext; [|inversion Hc].
    rewrite IH by (cbn in Hf; lia). reflexivity.
Qed.

Lemma str_chain_fuel w p addrs l :
  chain w p addrs l -> str_chain (fuel w) w p = Ret l.
Proof. intros H. eapply chain_str_chain; [exact H|eapply chain_fuel, H]. Qed.

(** ** New trailers, and reading and writing a bin *)

Lemma new_trailers_Ok (k : nat) w :
  exists a w1 ext,
    new_trailers T_default k w = Ok a w1 /\
    tables w1 = tables w /\ nodes w1 = nodes w ++ ext /\ length a = k.
Proof.
  revert w. induction k as [|k IH]; intros w; cbn [new_trailers].
  - exists [], w, []. rewrite app_nil_r. repeat split; reflexivity.
  - unfold bind at 1. unfold new_LN at 1.
    destruct (IH (set_nodes w (nodes w ++ [Some (LN_default T_default)])))
      as (a & w1 & ext & Ha & Ht & Hn & Hlen).
    unfold bind. rewrite Ha. unfold ret.
    eexists _, _, _. split; [reflexivity|].
    split; [exact Ht|]. split; [|cbn; congruence].
    rewrite Hn. cbn [nodes set_nodes]. rewrite <- app_assoc. reflexivity.
Qed.

Lemma index_Ret (a : list LNptr) (i : nat) p :
  index a (Z.of_nat i) = Ret p <-> a !! i = Some p.
Proof.
  unfold index. destruct (Z.of_nat i <? 0) eqn:E; [apply Z.ltb_lt in E; lia|].
  rewrite Nat2Z.id. destruct (a !! i); split; intros H; try discriminate; congruence.
Qed.

Lemma assign_index_Ret (a : list LNptr) (i : nat) p :
  (i < length a)%nat ->
  assign_index a (Z.of_nat i) p = Ret (<[i := p]> a).
Proof.
  intros Hi. unfold assign_index. destruct (Z.of_nat i <? 0) eqn:E; [apply Z.ltb_lt in E; lia|].
  rewrite Nat2Z.id. apply lookup_lt_is_Some_2 in Hi as [x ->]. reflexivity.
Qed.

Lemma bind_eq {A B : Type} (c : M A) (k : A -> M B) w (a : A) w1 :
  c w = Ok a w1 -> bind c k w = k a w1.
Proof. intros H. unfold bind. rewrite H. reflexivity. Qed.

Lemma this_table_eq this w m :
  tables w !! this = Some m -> this_table this w = Ok m w.
Proof. intros H. unfold this_table, read, get_table. rewrite H. reflexivity. Qed.

Lemma put_table_eq this m0 m w :
  tables w !! this = Some m0 ->
  put_table this m w = Ok tt (set_tables w (<[this := m]> (tables w))).
Proof. intros H. unfold put_table. rewrite H. reflexivity. Qed.

Lemma load_extends w w1 ext p n :
  nodes w1 = nodes w ++ ext -> load w p = Ret n -> load w1 p = Ret n.
Proof.
  intros E H. destruct p as [a|]; [|discriminate].
  apply load_Ret in H. apply load_Ret. rewrite E. apply lookup_app_l_Some, H.
Qed.







(** ** What the commands do in general *)

(** Where [has_key] does not find the key, [find_key] returns null, or a
    trailer that carries the key. *)
Lemma find_key_chain_of_absent (f : nat) w key j :
  has_key_chain f w key j = Ret false ->
  find_key_chain (S f) w key j = Ret None \/
  exists a n, find_key_chain (S f) w key j = Ret (Some a) /\
              load w (Some a) = Ret n /\ next n = None /\
              first (value n) = key.
Proof.
  revert j. induction f as [|f IH]; intros j H; [discriminate|].
  cbn [has_key_chain] in H.
  destruct (load w j) as [n| | |] eqn:Ej; try discriminate. cbn [rbind] in H.
  assert (Hj : exists a, j = Some a).
  { destruct j as [a|]; [exists a; reflexivity | discriminate]. }
  destruct Hj as [a ->].
  cbn [find_key_chain]. rewrite Ej. cbn [rbind].
  destruct (next n) as [b|] eqn:En.
  - destruct (String.eqb (first (value n)) key) eqn:Ek; [discriminate|].
    exact (IH _ H).
  - destruct (String.eqb (first (value n)) key) eqn:Ek.
    + right. exists a, n. split; [reflexivity|]. split; [exact Ej|].
      split; [exact En|]. apply String.eqb_eq, Ek.
    + left. destruct f; reflexivity.
Qed.

Lemma find_key_bins_of_absent (k : nat) w m key i :
  has_key_bins k w m key i = Ret false ->
  find_key_bins k w m key i = Ret None \/
  exists a n, find_key_bins k w m key i = Ret (Some a) /\
              load w (Some a) = Ret n /\ next n = None /\
              first (value n) = key.
Proof.
  revert i. induction k as [|k IH]; intros i H; [left; reflexivity|].
  cbn [has_key_bins] in H. cbn [find_key_bins].
  destruct (index (map m) i) as [j| | |]; try discriminate. cbn [rbind] in *.
  destruct (has_key_chain (fuel w) w key j) as [[|]| | |] eqn:Eb;
    try discriminate.
  cbn [rbind] in H. unfold fuel_null.
  destruct (find_key_chain_of_absent _ _ _ _ Eb) as [Hr|(a & n & Hr & Hrest)];
    rewrite Hr; cbn [rbind].
  - apply IH, H.
  - right. exists a, n. split; [reflexivity|exact Hrest].
Qed.

Lemma find_key_of_absent w this key :
  has_key w this key = Ret false ->
  find_key w this key = Ret None \/
  exists a n, find_key w this key = Ret (Some a) /\
              load w (Some a) = Ret n /\ next n = None /\
              first (value n) = key.
Proof.
  unfold has_key, find_key.
  destruct (get_table w this) as [m| | |]; try discriminate.
  cbn [rbind]. apply find_key_bins_of_absent.
Qed.

(** [erase] of a key that is not in the table: KeyError, with the state as
    it was, unless a trailer carries the key; then the copy of the trailer's
    null successor is undefined. *)
Lemma erase_of_absent w this key :
  has_key w this key = Ret false ->
  (find_key w this key = Ret None /\ erase this key w = Throw KeyError w) \/
  (exists a, find_key w this key = Ret (Some a) /\
             erase (T:=T) this key w = Undefined).
Proof.
  intros Hk. unfold erase, bind, read.
  destruct (find_key_of_absent _ _ _ Hk) as [Hf|(a & n & Hf & Hl & Hn & _)];
    rewrite Hf.
  - left. split; reflexivity.
  - right. exists a. split; [reflexivity|]. rewrite Hl, Hn. reflexivity.
Qed.

(** The const indexed read of a key that is not in the table: KeyError,
    unless a trailer carries the key; then the trailer's value. *)
Lemma operator_index_const_of_absent w this key :
  has_key w this key = Ret false ->
  operator_index_const w this key = Raise KeyError \/
  exists a n, load w (Some a) = Ret n /\ next n = None /\
              first (value n) = key /\
              operator_index_const w this key = Ret (second (value n)).
Proof.
  intros Hk. unfold operator_index_const.
  destruct (find_key_of_absent _ _ _ Hk) as [Hf|(a & n & Hf & Hl & Hn & Hkey)];
    rewrite Hf; cbn [rbind].
  - left. reflexivity.
  - right. exists a, n. rewrite Hl. repeat split; assumption.
Qed.

(** With the trailers carrying the empty key, as [LN()] makes them, both
    fail with KeyError for every absent key but the empty string. *)
Lemma absent_key_KeyError w this key :
  trailers_empty w = true -> key <> EmptyString ->
  has_key w this key = Ret false ->
  erase this key w = Throw KeyError w /\
  operator_index_const w this key = Raise KeyError.
Proof.
  intros Htr Hne Hk.
  assert (Hnone : find_key w this key = Ret None).
  { destruct (find_key_of_absent _ _ _ Hk) as [Hf|(a & n & Hf & Hl & Hn & Hkey)];
      [exact Hf|]. exfalso. apply Hne. rewrite <- Hkey.
    unfold trailers_empty in Htr. rewrite forallb_forall in Htr.
    apply load_Ret in Hl. specialize (Htr (Some n)). cbv beta iota in Htr.
    rewrite Hn in Htr. apply String.eqb_eq, Htr.
    apply list_elem_of_In. eapply list_elem_of_lookup_2, Hl. }
  split.
  - unfold erase, bind, read. rewrite Hnone. reflexivity.
  - unfold operator_index_const. rewrite Hnone. reflexivity.
Qed.

(** The load-factor test compares the integer quotient: where it does not
    exceed the threshold, nothing is done. *)
Lemma ensure_load_threshold_within w this m new_used :
  tables w !! this = Some m -> bins m <> 0 ->
  (inject_Z (Z.quot new_used (bins m)) <= load_threshold m)%Q ->
  ensure_load_threshold T_default this new_used w = Ok tt w.
Proof.
  intros Hm Hb Hle. unfold ensure_load_threshold.
  rewrite (bind_eq _ _ _ _ _ (this_table_eq _ _ _ Hm)).
  destruct (bins m =? 0) eqn:E; [apply Z.eqb_eq in E; contradiction|].
  apply Qle_bool_iff in Hle. rewrite Hle. reflexivity.
Qed.

(** In particular with fewer entries than bins, whatever the threshold. *)
Lemma ensure_load_threshold_fewer_than_bins w this m new_used :
  tables w !! this = Some m ->
  0 <= new_used < bins m -> (0 <= load_threshold m)%Q ->
  ensure_load_threshold T_default this new_used w = Ok tt w.
Proof.
  intros Hm Hlt Hth. eapply ensure_load_threshold_within; [exact Hm|lia|].
  rewrite Z.quot_small by lia. exact Hth.
Qed.

(** [erase] of a key [has_key] finds: the node [find_key] returns takes the
    content of its successor, the successor is deleted, [used] goes down
    and [mod_count] up by one, and the value the node held is returned. *)
Lemma erase_of_present w this key m :
  tables w !! this = Some m ->
  has_key w this key = Ret true ->
  exists a n,
    find_key w this key = Ret (Some a) /\
    nodes w !! a = Some (Some n) /\ first (value n) = key /\
    forall b succ,
      next n = Some b -> nodes w !! b = Some (Some succ) ->
      erase this key w =
        Ok (second (value n))
           (mkWorld (<[b := None]> (<[a := Some succ]> (nodes w)))
                    (<[this := set_mod_count (set_used m (used m - 1))
                                             (mod_count m + 1)]> (tables w))).
Proof.
  intros Hm Hk.
  destruct (find_key_of_has_key _ _ _ Hk) as (a & n & Hf & Hl & Hkey).
  pose proof (proj1 (load_Ret _ _ _) Hl) as Hn.
  exists a, n. split; [exact Hf|]. split; [exact Hn|]. split; [exact Hkey|].
  intros b succ Hnext Hb.
  unfold erase. rewrite (bind_eq _ _ _ (Some a) w) by (unfold read; rewrite Hf; reflexivity).
  rewrite (bind_eq _ _ _ n w) by (unfold read; rewrite Hl; reflexivity).
  rewrite Hnext.
  rewrite (bind_eq _ _ _ succ w)
    by (unfold read; rewrite (proj2 (load_Ret _ _ _) Hb); reflexivity).
  set (w1 := set_nodes w (<[a := Some succ]> (nodes w))).
  rewrite (bind_eq _ _ _ tt w1) by (unfold store; rewrite Hl; reflexivity).
  assert (Hb1 : exists x, nodes w1 !! b = Some (Some x)).
  { unfold w1. cbn [nodes set_nodes]. destruct (decide (b = a)) as [->|NE].
    - exists succ. apply list_lookup_insert_eq. eapply lookup_lt_Some, Hn.
    - exists succ. rewrite list_lookup_insert_ne by congruence. exact Hb. }
  destruct Hb1 as (x & Hx).
  set (w2 := set_nodes w1 (<[b := None]> (nodes w1))).
  rewrite (bind_eq _ _ _ tt w2)
    by (unfold delete_LN; rewrite (proj2 (load_Ret _ _ _) Hx); reflexivity).
  assert (Hm2 : tables w2 !! this = Some m) by exact Hm.
  rewrite (bind_eq _ _ _ _ _ (this_table_eq _ _ _ Hm2)).
  rewrite (bind_eq _ _ _ _ _ (put_table_eq _ _ _ _ Hm2)).
  reflexivity.
Qed.

Lemma assign_index_inv (a : list LNptr) i p a' :
  assign_index a i p = Ret a' ->
  0 <= i /\ (Z.to_nat i < length a)%nat /\ a' = <[Z.to_nat i := p]> a.
Proof.
  unfold assign_index. destruct (i <? 0) eqn:E; [discriminate|].
  apply Z.ltb_ge in E. destruct (a !! Z.to_nat i) eqn:El; [|discriminate].
  intros H. injection H as <-. split; [exact E|].
  split; [eapply lookup_lt_Some, El|reflexivity].
Qed.

(** The heap only grows in [ensure_load_threshold]: it deletes no node. *)
Lemma grows_refl w : grows w w.
Proof. exists []. rewrite app_nil_r. reflexivity. Qed.

Lemma grows_trans w w1 w2 : grows w w1 -> grows w1 w2 -> grows w w2.
Proof.
  intros (e1 & H1) (e2 & H2). exists (e1 ++ e2).
  rewrite H2, H1, app_assoc. reflexivity.
Qed.

Lemma new_LN_grows (n : LN) w p w1 : new_LN n w = Ok p w1 -> grows w w1.
Proof. intros H. apply new_LN_Ok in H as [_ ->]. eexists. reflexivity. Qed.

Lemma put_table_grows this m w (u : unit) w1 :
  put_table this m w = Ok u w1 -> grows w w1.
Proof.
  intros H. apply put_table_Ok in H as [_ ->]. exists [].
  rewrite app_nil_r. reflexivity.
Qed.

Lemma new_trailers_grows (k : nat) w (a : list LNptr) w1 :
  new_trailers T_default k w = Ok a w1 -> grows w w1.
Proof.
  intros H. destruct (new_trailers_Ok k w) as (a' & w' & ext & H' & _ & Hn & _).
  rewrite H' in H. injection H as _ <-. exists ext. exact Hn.
Qed.

Lemma rehouse_chain_grows (f : nat) this j w (u : unit) w1 :
  rehouse_chain f this j w = Ok u w1 -> grows w w1.
Proof.
  revert j w. induction f as [|f IH]; intros j w H; cbn [rehouse_chain] in H;
    [discriminate|].
  destruct j as [a|].
  - inv_M H.
    repeat match goal with
    | H : new_LN _ _ = Ok _ _ |- _ => apply new_LN_grows in H
    | H : put_table _ _ _ = Ok _ _ |- _ => apply put_table_grows in H
    end.
    apply IH in H. eauto using grows_trans.
  - inv_M H. apply grows_refl.
Qed.

Lemma rehouse_bins_grows (k : nat) this old_map i w (u : unit) w1 :
  rehouse_bins k this old_map i w = Ok u w1 -> grows w w1.
Proof.
  revert i w. induction k as [|k IH]; intros i w H; cbn [rehouse_bins] in H.
  - inv_M H. apply grows_refl.
  - inv_M H. apply IH in H.
    match goal with
    | H : rehouse_chain _ _ _ _ = Ok _ _ |- _ => apply rehouse_chain_grows in H
    end.
    eauto using grows_trans.
Qed.

Lemma ensure_load_threshold_grows this new_used w (u : unit) w1 :
  ensure_load_threshold T_default this new_used w = Ok u w1 -> grows w w1.
Proof.
  unfold ensure_load_threshold. intros H. inv_M H.
  destruct (bins a =? 0); [discriminate|].
  destruct (Qle_bool _ _).
  - inv_M H. apply grows_refl.
  - inv_M H. apply rehouse_bins_grows in H.
    repeat match goal with
    | H : new_trailers _ _ _ = Ok _ _ |- _ => apply new_trailers_grows in H
    | H : put_table _ _ _ = Ok _ _ |- _ => apply put_table_grows in H
    end.
    eauto using grows_trans.
Qed.

(** [put] of a key [has_key] does not find: the value put is returned,
    [used] and [mod_count] go up by one, and the new node is the head of
    the bin whose index [hash_compress] gave for the table as it was when
    [put] was entered. *)
Lemma put_of_absent w this key (v r : T) w1 m :
  tables w !! this = Some m ->
  has_key w this key = Ret false ->
  put T_default this key v w = Ok r w1 ->
  r = v /\
  touches put_counts this w w1 /\
  exists h m1 a old_head,
    hash_compress m key = Ret h /\
    tables w1 !! this = Some m1 /\
    index (map m1) h = Ret (Some a) /\
    nodes w1 !! a = Some (Some (mkLN (mkEntry key v) old_head)) /\
    (length (nodes w) <= a)%nat.
Proof.
  intros Hm Hk H.
  pose proof (put_new_touches _ _ _ _ _ _ Hk H) as Htouch.
  unfold put in H. inv_M H.
  match goal with
  | H : has_key w this key = Ret ?b |- _ =>
      rewrite Hk in H; injection H as <-
  end.
  match goal with
  | H : tables w !! this = Some ?x |- _ =>
      lazymatch x with m => fail | _ => rewrite Hm in H; injection H as <- end
  end.
  inv_M H.
  match goal with
  | H : ensure_load_threshold _ _ _ _ = Ok _ _ |- _ =>
      apply ensure_load_threshold_grows in H; destruct H as (ext & Hext)
  end.
  match goal with
  | H : put_table _ (set_used _ _) _ = Ok _ _ |- _ =>
      apply put_table_Ok in H as [_ ->]
  end.
  cbn [nodes set_tables] in Hext.
  match goal with
  | H : new_LN _ _ = Ok _ _ |- _ => apply new_LN_Ok in H as [-> ->]
  end.
  match goal with
  | H : assign_index _ _ _ = Ret _ |- _ =>
      apply assign_index_inv in H as (Hh0 & Hhlt & ->)
  end.
  match goal with
  | H : put_table _ _ _ = Ok _ _ |- _ => apply put_table_Ok in H as [Hlt ->]
  end.
  cbn [tables set_tables set_nodes nodes] in *.
  match goal with
  | H : <[this := _]> _ !! this = Some _ |- _ =>
      rewrite list_lookup_insert_eq in H by exact Hlt; injection H as <-
  end.
  cbn [map set_map set_mod_count] in *.
  assert (Hidx : index (<[Z.to_nat a0 := Some (length (nodes w2))]> (map a2)) a0
                 = Ret (Some (length (nodes w2)))).
  { unfold index. destruct (a0 <? 0) eqn:E; [apply Z.ltb_lt in E; lia|].
    rewrite list_lookup_insert_eq by exact Hhlt. reflexivity. }
  match goal with
  | H : index ?l a0 = Ret ?x |- _ =>
      is_var x;
      assert (E : Ret x = Ret (Some (length (nodes w2))))
        by (rewrite <- H; exact Hidx);
      injection E as ->; clear H
  end.
  match goal with
  | H : load _ (Some _) = Ret _ |- _ =>
      unfold load in H; cbn [nodes set_tables set_nodes] in H;
      rewrite list_lookup_middle in H by reflexivity; injection H as <-
  end.
  split; [reflexivity|]. split; [exact Htouch|].
  eexists a0, _, (length (nodes w2)), a3.
  split; [assumption|]. split.
  { apply list_lookup_insert_eq, Hlt. }
  split; [exact Hidx|]. split.
  { apply list_lookup_middle. reflexivity. }
  rewrite Hext, length_app. lia.
Qed.

(** ** Further properties of the commands *)

Lemma find_key_chain_same_links (f : nat) w w1 key j :
  same_links w w1 -> find_key_chain f w1 key j = find_key_chain f w key j.
Proof.
  intros (_ & _ & Hl). revert j. induction f as [|f IH]; intros j; [reflexivity|].
  cbn [find_key_chain]. destruct j as [a|]; [|reflexivity].
  specialize (Hl (Some a)).
  destruct (load w (Some a)) as [x| | |].
  - destruct Hl as (x' & -> & Hk & Hn). cbn [rbind]. rewrite Hk, Hn.
    destruct (String.eqb _ _); [reflexivity|apply IH].
  - rewrite Hl. reflexivity.
  - rewrite Hl. reflexivity.
  - rewrite Hl. reflexivity.
Qed.

Lemma find_key_same_links w w1 this key :
  same_links w w1 -> find_key w1 this key = find_key w this key.
Proof.
  intros H. pose proof H as (Ht & Hlen & _). unfold find_key, get_table.
  rewrite Ht. destruct (tables w !! this) as [m|]; [|reflexivity]. cbn [rbind].
  generalize 0. induction (Z.to_nat (bins m)) as [|k IH]; intros i; [reflexivity|].
  cbn [find_key_bins]. destruct (index (map m) i); try reflexivity. cbn [rbind].
  unfold fuel_null, fuel. rewrite Hlen.
  rewrite (find_key_chain_same_links _ w w1) by exact H.
  destruct (find_key_chain _ w key a) as [[b|]| | |]; try reflexivity.
  cbn [rbind]. apply IH.
Qed.

Lemma has_key_chain_same_links (f : nat) w w1 key j :
  same_links w w1 -> has_key_chain f w1 key j = has_key_chain f w key j.
Proof.
  intros (_ & _ & Hl). revert j. induction f as [|f IH]; intros j; [reflexivity|].
  cbn [has_key_chain]. specialize (Hl j).
  destruct (load w j) as [x| | |].
  - destruct Hl as (x' & -> & Hk & Hn). cbn [rbind]. rewrite Hk, Hn.
    destruct (next x); [|reflexivity].
    destruct (String.eqb _ _); [reflexivity|apply IH].
  - rewrite Hl. reflexivity.
  - rewrite Hl. reflexivity.
  - rewrite Hl. reflexivity.
Qed.

Lemma has_key_same_links w w1 this key :
  same_links w w1 -> has_key w1 this key = has_key w this key.
Proof.
  intros H. pose proof H as (Ht & Hlen & _). unfold has_key, get_table.
  rewrite Ht. destruct (tables w !! this) as [m|]; [|reflexivity]. cbn [rbind].
  generalize 0. induction (Z.to_nat (bins m)) as [|k IH]; intros i; [reflexivity|].
  cbn [has_key_bins]. destruct (index (map m) i); try reflexivity. cbn [rbind].
  unfold fuel. rewrite Hlen.
  rewrite (has_key_chain_same_links _ w w1) by exact H.
  destruct (has_key_chain _ w key a) as [[|]| | |]; try reflexivity.
  cbn [rbind]. apply IH.
Qed.

(** X1. A put of a key that [has_key] finds returns the value held by the
    node [find_key] returns and writes the new value there; the table
    object (so size and mod_count), every other node and every link are
    unchanged, [has_key] answers as before for every key, and the const
    indexed read of the key now returns the value put. *)
Theorem put_present_overwrites_in_place w this key (v : T) :
  has_key w this key = Ret true ->
  exists a n w1,
    find_key w this key = Ret (Some a) /\
    load w (Some a) = Ret n /\ first (value n) = key /\
    put T_default this key v w = Ok (second (value n)) w1 /\
    tables w1 = tables w /\
    load w1 (Some a) = Ret (mkLN (mkEntry key v) (next n)) /\
    (forall b, b <> a -> load w1 (Some b) = load w (Some b)) /\
    (forall k, has_key w1 this k = has_key w this k) /\
    operator_index_const w1 this key = Ret v.
Proof.
  intros Hk.
  destruct (put_existing w this key v Hk) as (a & n & Hf & Hn & Hkey & Hput).
  set (w1 := set_nodes w _) in Hput.
  assert (Hlinks : same_links w w1) by (apply same_links_store, Hn).
  assert (Hload : load w1 (Some a) = Ret (mkLN (mkEntry key v) (next n))).
  { unfold load, w1. cbn [nodes set_nodes].
    rewrite list_lookup_insert_eq by (eapply lookup_lt_Some, Hn).
    rewrite Hkey. reflexivity. }
  exists a, n, w1. split; [exact Hf|]. split; [apply load_Ret, Hn|].
  split; [exact Hkey|]. split; [exact Hput|]. split; [reflexivity|].
  split; [exact Hload|]. split.
  { intros b Hb. unfold load, w1. cbn [nodes set_nodes].
    rewrite list_lookup_insert_ne by congruence. reflexivity. }
  split.
  { intros k. apply has_key_same_links, Hlinks. }
  unfold operator_index_const.
  rewrite (find_key_same_links w w1) by exact Hlinks.
  rewrite Hf. cbn [rbind]. rewrite Hload. reflexivity.
Qed.

(** X2. With every trailer carrying the empty key, an absent key other
    than the empty string makes [erase] throw KeyError with the state as it
    was, and makes the const indexed read throw KeyError. *)
Theorem absent_nonempty_key_throws_KeyError w this key :
  trailers_empty w = true -> key <> EmptyString ->
  has_key w this key = Ret false ->
  erase this key w = Throw KeyError w /\
  operator_index_const w this key = Raise KeyError.
Proof. apply absent_key_KeyError. Qed.

(** X3. Whatever the key, [erase] of a key that [has_key] does not find
    removes nothing: it throws KeyError with the state as it was or, where
    [find_key] returns a trailer carrying the key, has undefined
    behaviour. *)
Theorem erase_of_absent_key_removes_nothing w this key :
  has_key w this key = Ret false ->
  erase (T:=T) this key w = Throw KeyError w \/
  erase (T:=T) this key w = Undefined.
Proof.
  intros Hk. destruct (erase_of_absent w this key Hk) as [[_ H]|(a & _ & H)];
    [left|right]; exact H.
Qed.

(** X4. [hash_compress] ranges over the bins: for a positive bin count
    and a hash value that is an int other than the least one (the one int
    whose [abs] is not its absolute value), the index is the absolute value
    of the hash modulo bins, in [0, bins), also for a negative hash value;
    for a bin count of 0 the modulo is undefined. *)
Theorem hash_compress_in_range m key :
  (0 < bins m -> int_min < hash m key <= int_max ->
     exists h, hash_compress m key = Ret h /\ 0 <= h < bins m /\
               h = Z.abs (hash m key) mod bins m) /\
  (bins m = 0 -> hash_compress m key = UndefinedR).
Proof.
  unfold hash_compress. split.
  - intros Hb _. destruct (bins m =? 0) eqn:E; [apply Z.eqb_eq in E; lia|].
    eexists. split; [reflexivity|]. split; [apply Z.rem_bound_pos; lia|].
    apply Z.rem_mod_nonneg; lia.
  - intros ->. reflexivity.
Qed.

(** X5. A table constructed with 0 bins takes no key: the constructor
    returns, and every put into the table it made is undefined (a modulo by
    zero in [hash_compress]). *)
Theorem put_into_table_of_zero_bins w the_load_threshold the_hash key (v : T) :
  exists this w1,
    HashMap_bins T_default 0 the_load_threshold the_hash w = Ok this w1 /\
    size w1 this = Ret 0 /\
    put T_default this key v w1 = Undefined.
Proof.
  unfold HashMap_bins. cbn [Z.to_nat new_trailers]. unfold bind, ret.
  eexists _, _. split; [reflexivity|].
  assert (Hl : forall (l : list HashMap) x, (l ++ [x]) !! length l = Some x).
  { intros l x. apply list_lookup_middle. reflexivity. }
  split.
  - unfold size, get_table. cbn [tables set_tables]. rewrite Hl. reflexivity.
  - unfold put, bind, this_table, read, get_table. cbn [tables set_tables].
    rewrite Hl. reflexivity.
Qed.

(** ** Further properties of the iterator *)

(** X6. An erase through the iterator that returns: it returned the entry
    the iterator showed, took one from used and added one to mod_count of
    its table (no other table changed), and left the iterator in sync but
    disarmed: a second erase throws CannotEraseError and a dereference
    throws IteratorPositionIllegal.  The next prefix ++ returns without
    moving the cursor; it re-arms the iterator when the cursor is on a node,
    and returns the iterator as it is, still disarmed, when the erase left
    the iterator exhausted (a null cursor). *)
Theorem erase_at_cursor_disarms_iterator it w (e : Entry) it1 w1 :
  Iterator_erase it w = Ok (e, it1) w1 ->
  operator_deref w it = Ret e /\
  touches erase_counts (ref_map it) w w1 /\
  ref_map it1 = ref_map it /\ in_sync w1 it1 /\
  can_erase it1 = false /\
  Iterator_erase it1 w1 = Throw CannotEraseError w1 /\
  operator_deref w1 it1 = Raise IteratorPositionIllegal /\
  operator_pre_inc w1 it1 =
    Ret (match snd (current it1) with
         | Some _ => set_can_erase it1 true
         | None => it1
         end) /\
  exists it2, operator_pre_inc w1 it1 = Ret it2 /\
    current it2 = current it1 /\
    can_erase it2 = match snd (current it1) with
                    | Some _ => true
                    | None => false
                    end.
Proof.
  intros H.
  assert (Hinv : exists (n : @LN T) it2 (d : @LN T) (v : T) m1,
     check_mod_count w it = Ret tt /\ can_erase it = true /\
     snd (current it) <> None /\
     load w (snd (current it)) = Ret n /\ e = value n /\
     ref_map it2 = ref_map it /\ can_erase it2 = false /\
     erase (ref_map it) (first (value d)) w = Ok v w1 /\
     tables w1 !! ref_map it = Some m1 /\
     it1 = set_expected_mod_count it2 (mod_count m1)).
  { unfold Iterator_erase in H. remember (e, it1) as r eqn:Er. inv_M H.
    destruct (can_erase it) eqn:Ecan; [|discriminate]. cbn [negb] in H.
    destruct (snd (current it)) as [c|] eqn:Ecur; [|discriminate].
    inv_M H. injection Er as <- <-.
    cbn [current set_can_erase] in *.
    match goal with
    | H : (match next ?s with Some _ => _ | None => _ end) _ = Ok ?x ?w' |- _ =>
        assert (Hit : ref_map x = ref_map it /\ can_erase x = false /\ w' = w);
        [destruct (next s); inv_M H;
         [repeat split; reflexivity|];
         split; [apply advance_cursors_ref_map in H; exact H|];
         split; [|reflexivity];
         unfold advance_cursors in H;
         repeat match type of H with
         | rbind ?c _ = _ => destruct c; try discriminate; cbn [rbind] in H
         | (if ?b then _ else _) = _ => destruct b
         end; injection H as <-; reflexivity
        | destruct Hit as (Href & Hcan & ->); clear H]
    end.
    rewrite Href in *. rewrite Ecur in *.
    match goal with Hc : check_mod_count w it = Ret ?x |- _ => destruct x end.
    match goal with
    | H1 : load w ?p = Ret ?x, H2 : load w ?p = Ret ?y |- _ =>
        rewrite H1 in H2; injection H2 as <-
    end.
    eexists _, _, _, _, _.
    repeat (split; [first [eassumption|reflexivity|discriminate]|]).
    reflexivity. }
  destruct Hinv as (n & it2 & d & v & m1 & Hcheck & Ecan & Ecur & Hn & -> &
                    Href & Hcan & Herase & Hm1 & ->).
  pose proof (erase_touches _ _ _ _ _ Herase) as Htouch.
  assert (Hsync : check_mod_count w1 (set_expected_mod_count it2 (mod_count m1))
                  = Ret tt).
  { eapply check_mod_count_match; [cbn; rewrite Href; exact Hm1|reflexivity]. }
  split.
  { unfold operator_deref. rewrite Hcheck. cbn [rbind]. rewrite Ecan.
    destruct (snd (current it)) as [c|]; [|contradiction].
    cbn [negb orb LNptr_eqb]. rewrite Hn. reflexivity. }
  split; [exact Htouch|]. split; [exact Href|]. split.
  { eexists. split; [cbn; rewrite Href; exact Hm1|reflexivity]. }
  split; [exact Hcan|].
  split.
  { unfold Iterator_erase, bind, read. rewrite Hsync. cbn. rewrite Hcan.
    reflexivity. }
  split.
  { unfold operator_deref. rewrite Hsync. cbn. rewrite Hcan. reflexivity. }
  unfold operator_pre_inc. rewrite Hsync. cbn.
  destruct (snd (current it2)); [rewrite Hcan|];
    (split; [reflexivity|]); eexists;
    (split; [reflexivity|]); (split; [reflexivity|]);
    [reflexivity|exact Hcan].
Qed.

(** X7. [end()] of any table is an exhausted iterator in sync with it: both
    [++] leave it as it is, the dereference throws IteratorPositionIllegal
    and the erase CannotEraseError; when used is 0, [begin()] is the same
    iterator and the traversal from begin() to end() visits nothing. *)
Theorem end_is_exhausted w this m :
  tables w !! this = Some m ->
  exists it,
    end_ w this = Ret it /\ in_sync w it /\ snd (current it) = None /\
    operator_pre_inc w it = Ret it /\
    operator_post_inc w it = Ret (it, it) /\
    operator_deref w it = Raise IteratorPositionIllegal /\
    Iterator_erase it w = Throw CannotEraseError w /\
    (used m = 0 -> begin w this = Ret it /\ traverse w this = Ret []).
Proof.
  intros Hm. set (it := mkIterator (-1, None) this (mod_count m) true).
  assert (Hend : end_ w this = Ret it).
  { unfold end_, Iterator_new, empty, get_table. rewrite Hm. reflexivity. }
  assert (Hcheck : check_mod_count w it = Ret tt).
  { eapply check_mod_count_match; [exact Hm|reflexivity]. }
  exists it. split; [exact Hend|]. split; [exists m; split; [exact Hm|reflexivity]|].
  split; [reflexivity|].
  unfold operator_pre_inc, operator_post_inc, operator_deref, Iterator_erase,
    bind, read. rewrite Hcheck. cbn [rbind].
  repeat (split; [reflexivity|]).
  intros Hused.
  assert (Hbegin : begin w this = Ret it).
  { unfold begin, Iterator_new, empty, get_table. rewrite Hm. cbn [rbind].
    rewrite Hused. reflexivity. }
  split; [exact Hbegin|].
  unfold traverse. rewrite Hbegin. cbn [rbind]. unfold fuel.
  cbn [traverse_from]. rewrite Hend. cbn [rbind].
  unfold Iterator_ne. rewrite Hcheck. cbn [rbind].
  unfold it at 1 2. cbn [ref_map]. rewrite Nat.eqb_refl. reflexivity.
Qed.

(** X8. No sequence of commands on the tables (puts, erases, clears,
    put_alls, assignments, erases through iterators, constructions) that
    runs to its end removes a table object or lowers the mod_count of
    one. *)
Theorem mod_count_never_decreases (cs : list Command) w (u : unit) w1 :
  run_commands T_default cs w = Ok u w1 -> counts_grow w w1.
Proof. apply run_commands_counts_grow. Qed.

Lemma put_new_grows w this key (v r : T) w1 :
  has_key w this key = Ret false ->
  put T_default this key v w = Ok r w1 -> grows w w1.
Proof.
  intros Hk H. unfold put in H. inv_M H.
  match goal with
  | H : has_key w this key = Ret ?b |- _ => rewrite Hk in H; injection H as <-
  end.
  inv_M H.
  repeat match goal with
  | H : ensure_load_threshold _ _ _ _ = Ok _ _ |- _ =>
      apply ensure_load_threshold_grows in H
  | H : new_LN _ _ = Ok _ _ |- _ => apply new_LN_grows in H
  | H : put_table _ _ _ = Ok _ _ |- _ => apply put_table_grows in H
  end.
  eauto using grows_trans.
Qed.

(** X9. A put that returns deletes no node and changes no key or link:
    every node that could be read before can be read after, with the same
    key and the same successor (also when the put doubled the bins). *)
Theorem put_keeps_every_node w this key (v r : T) w1 :
  put T_default this key v w = Ok r w1 ->
  forall p n, load w p = Ret n ->
    exists n', load w1 p = Ret n' /\
               first (value n') = first (value n) /\ next n' = next n.
Proof.
  intros H p n Hn. destruct (has_key w this key) as [[|]| | |] eqn:Hk.
  - destruct (put_existing w this key v Hk) as (a & x & _ & Hx & _ & E).
    rewrite E in H. injection H as _ <-.
    destruct (same_links_store w a x v Hx) as (_ & _ & Hl).
    specialize (Hl p). rewrite Hn in Hl. exact Hl.
  - destruct (put_new_grows _ _ _ _ _ _ Hk H) as (ext & Hext).
    exists n. split; [eapply load_extends; eassumption|split; reflexivity].
  - unfold put in H. inv_M H. congruence.
  - unfold put in H. inv_M H. congruence.
  - unfold put in H. inv_M H. congruence.
Qed.

(** ** The constructors *)

(** X10. The default constructor throws TemplateFunctionError, before
    anything is allocated, exactly when neither hash function is supplied
    or both are and they are different functions; otherwise it makes an
    empty table of one bin bound to the template's function if there is
    one, and to the constructor's if not. *)
Theorem constructor_binds_one_hash (thash chash : hashfunc)
  (the_load_threshold : Q) w :
  let refused :=
    (thash = None /\ chash = None) \/
    (exists a f b g, thash = Some (a, f) /\ chash = Some (b, g) /\ a <> b) in
  (refused ->
     HashMap_ctor T_default thash the_load_threshold chash w
     = Throw TemplateFunctionError w) /\
  (~ refused ->
     exists this w1 m,
       HashMap_ctor T_default thash the_load_threshold chash w = Ok this w1 /\
       tables w1 !! this = Some m /\
       hash m = call_hash (match thash with Some _ => thash | None => chash end) /\
       load_threshold m = the_load_threshold /\
       bins m = 1 /\ used m = 0 /\ mod_count m = 0 /\
       str w1 this = Ret []).
Proof.
  assert (Hl : forall (l : list HashMap) x, (l ++ [x]) !! length l = Some x).
  { intros l x. apply list_lookup_middle. reflexivity. }
  assert (Hok : forall h,
    exists this w1 m,
      HashMap_default T_default the_load_threshold h w = Ok this w1 /\
      tables w1 !! this = Some m /\ hash m = h /\
      load_threshold m = the_load_threshold /\
      bins m = 1 /\ used m = 0 /\ mod_count m = 0 /\ str w1 this = Ret []).
  { intros h. unfold HashMap_default. cbn [new_trailers]. unfold bind, ret, new_LN.
    eexists _, _, _. split; [reflexivity|]. cbn [tables set_tables set_nodes].
    split; [apply Hl|]. repeat (split; [reflexivity|]).
    unfold str, get_table. cbn [tables set_tables set_nodes]. rewrite Hl.
    cbn [rbind bins]. change (Z.to_nat 1) with 1%nat.
    cbn [str_bins map]. change (index _ 0) with (Ret (Some (length (nodes w)))).
    cbn [rbind]. unfold fuel. cbn [str_chain]. unfold load.
    cbn [nodes set_tables set_nodes].
    rewrite list_lookup_middle by reflexivity. reflexivity. }
  intros refused. unfold HashMap_ctor, bind, read, bind_hash, undefinedhash.
  split.
  - intros [[-> ->]|(a & f & b & g & -> & -> & Hne)]; cbn.
    + reflexivity.
    + apply Nat.eqb_neq in Hne. rewrite Hne. reflexivity.
  - intros Hnot. destruct thash as [[a f]|], chash as [[b g]|]; cbn.
    + destruct (Nat.eqb a b) eqn:E; cbn.
      * apply Hok.
      * exfalso. apply Hnot. right. apply Nat.eqb_neq in E.
        exists a, f, b, g. repeat split; assumption.
    + apply Hok.
    + apply Hok.
    + exfalso. apply Hnot. left. split; reflexivity.
Qed.
(** ** The queries and the scan of [str] *)

Lemma has_key_chain_str (f : nat) w key j l :
  str_chain f w j = Ret l ->
  has_key_chain f w key j = Ret (existsb (key_is key) l).
Proof.
  revert j l. induction f as [|f IH]; intros j l H; [discriminate|].
  cbn [str_chain has_key_chain] in *.
  destruct (load w j) as [n| | |]; try discriminate. cbn [rbind] in *.
  destruct (next n) as [b|]; [|injection H as <-; reflexivity].
  destruct (str_chain f w (Some b)) as [rest| | |] eqn:Er; try discriminate.
  cbn [rbind] in H. injection H as <-. cbn [existsb]. unfold key_is at 1.
  destruct (String.eqb (first (value n)) key); [reflexivity|].
  cbn [orb]. exact (IH _ _ Er).
Qed.

Lemma has_key_bins_str (k : nat) w m key i l :
  str_bins k w m i = Ret l ->
  has_key_bins k w m key i = Ret (existsb (key_is key) l).
Proof.
  revert i l. induction k as [|k IH]; intros i l H.
  - injection H as <-. reflexivity.
  - cbn [str_bins has_key_bins] in *.
    destruct (index (map m) i) as [p| | |]; try discriminate.
    cbn [rbind] in *.
    destruct (str_chain (fuel w) w p) as [here| | |] eqn:Eh; try discriminate.
    cbn [rbind] in H.
    destruct (str_bins k w m (i + 1)) as [rest| | |] eqn:Er; try discriminate.
    cbn [rbind] in H. injection H as <-.
    rewrite (has_key_chain_str _ _ key _ _ Eh). cbn [rbind].
    rewrite existsb_app.
    destruct (existsb (key_is key) here); [reflexivity|].
    cbn [orb]. exact (IH _ _ Er).
Qed.

Lemma has_key_str w this key l :
  str w this = Ret l -> has_key w this key = Ret (existsb (key_is key) l).
Proof.
  unfold str, has_key. destruct (get_table w this) as [m| | |]; try discriminate.
  cbn [rbind]. apply has_key_bins_str.
Qed.

(** X11. [has_key] answers what the scan of [str] shows: whenever [str]
    goes through the table, [has_key] returns, and it returns true exactly
    when one of the entries [str] lists carries the key. *)
Theorem has_key_agrees_with_str w this key l :
  str w this = Ret l ->
  has_key w this key = Ret (existsb (key_is key) l).
Proof. apply has_key_str. Qed.

Lemma trailers_empty_spec w a n :
  trailers_empty w = true -> nodes w !! a = Some (Some n) -> next n = None ->
  first (value n) = EmptyString.
Proof.
  unfold trailers_empty. intros H Hn Hnext.
  rewrite forallb_forall in H.
  specialize (H (Some n)). cbn in H. rewrite Hnext in H.
  apply String.eqb_eq, H. apply list_elem_of_In.
  eapply list_elem_of_lookup_2, Hn.
Qed.

Lemma find_app_first {A : Type} (P : A -> bool) (l1 l2 : list A) :
  find P (l1 ++ l2) =
  match find P l1 with Some x => Some x | None => find P l2 end.
Proof.
  induction l1 as [|x l1 IH]; [reflexivity|]. cbn.
  destruct (P x); [reflexivity|exact IH].
Qed.

Lemma find_key_chain_str (f : nat) w key j l :
  trailers_empty w = true -> key <> EmptyString ->
  str_chain f w j = Ret l ->
  exists r, find_key_chain (S f) w key j = Ret r /\ first_match w key l r.
Proof.
  intros Htr Hkey. revert j l.
  induction f as [|f IH]; intros j l H; [discriminate|].
  cbn [str_chain] in H. remember (S f) as f1 eqn:Ef. cbn [find_key_chain].
  destruct j as [a|]; [|discriminate].
  destruct (load w (Some a)) as [n| | |] eqn:En; try discriminate.
  cbn [rbind] in *. unfold first_match.
  destruct (next n) as [b|] eqn:Enext.
  - destruct (str_chain f w (Some b)) as [rest| | |] eqn:Er; try discriminate.
    cbn [rbind] in H. injection H as <-. cbn [find]. unfold key_is at 1.
    destruct (String.eqb (first (value n)) key) eqn:Ek.
    + exists (Some a). split; [reflexivity|]. exists n.
      rewrite Enext. repeat split; [exact En|discriminate].
    + subst f1. exact (IH _ _ Er).
  - injection H as <-. apply load_Ret in En.
    pose proof (trailers_empty_spec _ _ _ Htr En Enext) as E0.
    destruct (String.eqb (first (value n)) key) eqn:Ek.
    + apply String.eqb_eq in Ek. congruence.
    + subst f1. exists None. split; reflexivity.
Qed.

Lemma find_key_bins_str (k : nat) w m key i l :
  trailers_empty w = true -> key <> EmptyString ->
  str_bins k w m i = Ret l ->
  exists r, find_key_bins k w m key i = Ret r /\ first_match w key l r.
Proof.
  intros Htr Hkey. revert i l. induction k as [|k IH]; intros i l H.
  - injection H as <-. exists None. split; reflexivity.
  - cbn [str_bins find_key_bins] in *.
    destruct (index (map m) i) as [p| | |]; try discriminate.
    cbn [rbind] in *.
    destruct (str_chain (fuel w) w p) as [here| | |] eqn:Eh; try discriminate.
    cbn [rbind] in H.
    destruct (str_bins k w m (i + 1)) as [rest| | |] eqn:Er; try discriminate.
    cbn [rbind] in H. injection H as <-.
    destruct (find_key_chain_str _ _ key _ _ Htr Hkey Eh) as (r & Hr & Hm).
    unfold fuel_null. rewrite Hr. cbn [rbind].
    unfold first_match in *. rewrite find_app_first.
    destruct (find (key_is key) here) as [e|] eqn:Ef.
    + destruct Hm as (n & Hn & Hv & Hnext). destruct r as [a|]; [|discriminate].
      exists (Some a). split; [reflexivity|]. exists n. auto.
    + subst r. exact (IH _ _ Er).
Qed.

Lemma find_key_str w this key l :
  trailers_empty w = true -> key <> EmptyString ->
  str w this = Ret l ->
  exists r, find_key w this key = Ret r /\ first_match w key l r.
Proof.
  intros Htr Hkey. unfold str, find_key.
  destruct (get_table w this) as [m| | |]; try discriminate.
  cbn [rbind]. apply find_key_bins_str; assumption.
Qed.

Lemma operator_index_const_str w this key l :
  trailers_empty w = true -> key <> EmptyString ->
  str w this = Ret l ->
  operator_index_const w this key =
    match find (key_is key) l with
    | Some e => Ret (second e)
    | None => Raise KeyError
    end.
Proof.
  intros Htr Hkey Hs.
  destruct (find_key_str _ _ _ _ Htr Hkey Hs) as (r & Hr & Hm).
  unfold operator_index_const. rewrite Hr. cbn [rbind].
  unfold first_match in Hm. destruct (find (key_is key) l) as [e|].
  - destruct Hm as (n & Hn & <- & _). destruct r as [a|]; [|discriminate].
    rewrite Hn. reflexivity.
  - subst r. reflexivity.
Qed.

(** X12. Reading with [operator[]] on a const table: for a key other
    than the empty string, in a heap whose trailers are as [LN()] made
    them, the result is the value of the first entry with that key in the
    order of [str], and [KeyError] when [str] lists no such entry. *)
Theorem operator_index_const_reads_first_match w this key l :
  trailers_empty w = true -> key <> EmptyString ->
  str w this = Ret l ->
  operator_index_const w this key =
    match find (key_is key) l with
    | Some e => Ret (second e)
    | None => Raise KeyError
    end.
Proof. apply operator_index_const_str. Qed.

(** ** Well-formed tables *)

Lemma no_repeat_NoDup (l : list nat) : no_repeat l = true <-> NoDup l.
Proof.
  induction l as [|a l IH]; cbn [no_repeat].
  - split; [intros _; apply NoDup_nil_2|reflexivity].
  - rewrite andb_true_iff, negb_true_iff, NoDup_cons, IH.
    assert (E : existsb (Nat.eqb a) l = false <-> a ∉ l).
    { split.
      - intros H Hin. apply list_elem_of_In in Hin.
        assert (existsb (Nat.eqb a) l = true); [|congruence].
        apply existsb_exists. exists a. split; [exact Hin|apply Nat.eqb_refl].
      - intros H. destruct (existsb (Nat.eqb a) l) eqn:E; [|reflexivity].
        apply existsb_exists in E as (x & Hin & Hx).
        apply Nat.eqb_eq in Hx as <-. apply list_elem_of_In in Hin. tauto. }
    tauto.
Qed.

Lemma cells_chain_chain (f : nat) w p addrs :
  cells_chain f w p = Ret addrs -> exists l, chain w p addrs l.
Proof.
  revert p addrs. induction f as [|f IH]; intros p addrs H; [discriminate|].
  cbn [cells_chain] in H. destruct p as [a|]; [|discriminate].
  destruct (load w (Some a)) as [n| | |] eqn:En; try discriminate.
  apply load_Ret in En. cbn [rbind] in H.
  destruct (next n) as [b|] eqn:Enext.
  - destruct (cells_chain f w (Some b)) as [rest| | |] eqn:Er; try discriminate.
    cbn [rbind] in H. injection H as <-.
    destruct (IH _ _ Er) as (l & Hc). exists (value n :: l).
    eapply chain_live; [exact En|]. rewrite Enext. exact Hc.
  - injection H as <-. exists []. eapply chain_trailer; eassumption.
Qed.

Lemma chain_cells_chain (f : nat) w p addrs l :
  chain w p addrs l -> (length l < f)%nat -> cells_chain f w p = Ret addrs.
Proof.
  intros H. revert f.
  induction H as [a n Hn Hnext | a n addrs l Hn Hc IH]; intros f Hf.
  - destruct f as [|f]; [lia|]. cbn [cells_chain].
    apply load_Ret in Hn. rewrite Hn. cbn [rbind]. rewrite Hnext. reflexivity.
  - destruct f as [|f]; [cbn in Hf; lia|]. cbn [cells_chain].
    apply load_Ret in Hn. rewrite Hn. cbn [rbind].
    destruct (next n) as [b|] eqn:Enext; [|inversion Hc].
    rewrite IH by (cbn in Hf; lia). reflexivity.
Qed.

Lemma cells_bins_shape (k : nat) w m (i : nat) cl :
  cells_bins k w m (Z.of_nat i) = Ret cl ->
  exists cs, Forall2 (bin_chain w) (take k (drop i (map m))) cs /\
             cl = concat cs.*1.
Proof.
  revert i cl. induction k as [|k IH]; intros i cl H.
  - injection H as <-. exists []. split; [constructor|reflexivity].
  - cbn [cells_bins] in H.
    destruct (index (map m) (Z.of_nat i)) as [p| | |] eqn:Ep; try discriminate.
    cbn [rbind] in H.
    destruct (cells_chain (fuel w) w p) as [here| | |] eqn:Eh; try discriminate.
    cbn [rbind] in H.
    replace (Z.of_nat i + 1) with (Z.of_nat (S i)) in H by lia.
    destruct (cells_bins k w m (Z.of_nat (S i))) as [rest| | |] eqn:Er;
      try discriminate.
    cbn [rbind] in H. injection H as <-.
    apply index_Ret in Ep. destruct (cells_chain_chain _ _ _ _ Eh) as (l & Hc).
    destruct (IH _ _ Er) as (cs & Hcs & ->).
    exists ((here, l) :: cs). rewrite (drop_S _ _ _ Ep). cbn [take].
    split; [constructor; assumption|reflexivity].
Qed.

Lemma shape_scans (k : nat) w m (i : nat) cs :
  Forall2 (bin_chain w) (take k (drop i (map m))) cs -> length cs = k ->
  cells_bins k w m (Z.of_nat i) = Ret (concat cs.*1) /\
  str_bins k w m (Z.of_nat i) = Ret (concat cs.*2).
Proof.
  revert i cs. induction k as [|k IH]; intros i cs H Hlen.
  - destruct cs; [|discriminate]. split; reflexivity.
  - destruct cs as [|c cs]; [discriminate|].
    assert (Hlen' : length cs = k) by (cbn in Hlen; lia). clear Hlen.
    destruct (drop i (map m)) as [|p rest] eqn:Ed; [inversion H|].
    assert (Ep : map m !! i = Some p).
    { pose proof (lookup_drop (map m) i 0) as E. rewrite Ed in E.
      rewrite Nat.add_0_r in E. symmetry. exact E. }
    rewrite (drop_S _ _ _ Ep) in Ed. injection Ed as <-.
    cbn [take] in H. inversion H as [|? ? ? ? Hc Hrest]; subst.
    destruct (IH _ _ Hrest eq_refl) as [E1 E2].
    cbn [cells_bins str_bins]. rewrite (proj2 (index_Ret _ _ _) Ep).
    cbn [rbind]. replace (Z.of_nat i + 1) with (Z.of_nat (S i)) by lia.
    unfold bin_chain in Hc.
    rewrite (chain_cells_chain _ _ _ _ _ Hc (chain_fuel _ _ _ _ Hc)).
    rewrite (str_chain_fuel _ _ _ _ Hc). cbn [rbind].
    rewrite E1, E2. split; reflexivity.
Qed.

Lemma shaped_scans w this m cs :
  tables w !! this = Some m -> shaped w m cs ->
  cells w this = Ret (concat cs.*1) /\ str w this = Ret (concat cs.*2).
Proof.
  intros Hm (Hb & Hlen & Hcs & Hnd). unfold cells, str, get_table.
  rewrite Hm. cbn [rbind]. apply (shape_scans _ _ _ 0%nat).
  - rewrite drop_0, <- Hlen, firstn_all. exact Hcs.
  - rewrite <- Hlen. symmetry. eapply Forall2_length, Hcs.
Qed.

Lemma shaped_str w this m cs :
  tables w !! this = Some m -> shaped w m cs ->
  str w this = Ret (concat cs.*2).
Proof. intros Hm Hs. apply (shaped_scans _ _ _ _ Hm Hs). Qed.

Lemma well_formed_shaped w this :
  well_formed w this = true ->
  exists m cs, tables w !! this = Some m /\ shaped w m cs /\
               trailers_empty w = true.
Proof.
  unfold well_formed, cells, get_table. intros H.
  destruct (tables w !! this) as [m|] eqn:Hm; [|discriminate].
  cbn [rbind] in H.
  destruct (cells_bins (Z.to_nat (bins m)) w m 0) as [cl| | |] eqn:Ec;
    try discriminate.
  rewrite !andb_true_iff in H. destruct H as [[[Hb Hlen] Hnd] Htr].
  apply Z.ltb_lt in Hb. apply Nat.eqb_eq in Hlen. apply no_repeat_NoDup in Hnd.
  destruct (cells_bins_shape _ _ _ 0%nat _ Ec) as (cs & Hcs & ->).
  rewrite drop_0, <- Hlen, firstn_all in Hcs.
  exists m, cs. repeat split; assumption.
Qed.

Lemma shaped_well_formed w this m cs :
  tables w !! this = Some m -> shaped w m cs -> trailers_empty w = true ->
  well_formed w this = true.
Proof.
  intros Hm Hs Htr. destruct (shaped_scans _ _ _ _ Hm Hs) as [Hc _].
  unfold well_formed. rewrite Hc. unfold get_table. rewrite Hm.
  destruct Hs as (Hb & Hlen & Hcs & Hnd).
  rewrite !andb_true_iff. repeat split.
  - apply Z.ltb_lt, Hb.
  - apply Nat.eqb_eq, Hlen.
  - apply no_repeat_NoDup, Hnd.
  - exact Htr.
Qed.

Lemma chain_frame w w1 p addrs l :
  chain w p addrs l ->
  (forall a, a ∈ addrs -> nodes w1 !! a = nodes w !! a) ->
  chain w1 p addrs l.
Proof.
  induction 1 as [a n Hn Hnext | a n addrs l Hn Hc IH]; intros Hsame.
  - eapply chain_trailer; [|exact Hnext]. rewrite Hsame; [exact Hn|].
    apply list_elem_of_singleton. reflexivity.
  - eapply chain_live.
    + rewrite Hsame; [exact Hn|]. apply elem_of_cons. left. reflexivity.
    + apply IH. intros b Hb. apply Hsame. apply elem_of_cons. right. exact Hb.
Qed.

Lemma shaped_extends w w1 ext m cs :
  nodes w1 = nodes w ++ ext -> shaped w m cs -> shaped w1 m cs.
Proof.
  intros E (Hb & Hlen & Hcs & Hnd). repeat split; try assumption.
  eapply Forall2_impl; [exact Hcs|]. intros p c Hc.
  unfold bin_chain in *. eapply chain_extends; eassumption.
Qed.

Lemma trailers_empty_app w w1 ext :
  nodes w1 = nodes w ++ ext ->
  trailers_empty w1 = trailers_empty w && trailers_empty (mkWorld ext []).
Proof.
  intros E. unfold trailers_empty. rewrite E. cbn [nodes]. apply forallb_app.
Qed.

Lemma new_trailers_exact (k : nat) w :
  new_trailers T_default k w =
    Ok (Some <$> seq (length (nodes w)) k)
       (set_nodes w (nodes w ++ replicate k (Some (LN_default T_default)))).
Proof.
  revert w. induction k as [|k IH]; intros w; cbn [new_trailers].
  - unfold ret. cbn. rewrite app_nil_r. destruct w; reflexivity.
  - unfold bind at 1. unfold new_LN at 1. unfold bind at 1. rewrite IH.
    unfold ret. cbn. rewrite length_app. cbn.
    rewrite Nat.add_1_r, <- app_assoc. reflexivity.
Qed.

Lemma trailers_empty_replicate (k : nat) :
  trailers_empty
    (mkWorld (replicate k (Some (LN_default T_default))) []) = true.
Proof.
  unfold trailers_empty. cbn [nodes].
  induction k as [|k IH]; [reflexivity|]. cbn. exact IH.
Qed.

Lemma fresh_trailers_chains (w : @World T) (n k : nat) :
  (forall i, (i < k)%nat ->
     nodes w !! (n + i)%nat = Some (Some (LN_default T_default))) ->
  Forall2 (bin_chain w) (Some <$> seq n k) ((fun a => ([a], [])) <$> seq n k).
Proof.
  revert n. induction k as [|k IH]; intros n H; cbn; constructor.
  - unfold bin_chain. cbn.
    apply (chain_trailer _ _ (LN_default T_default)); [|reflexivity].
    rewrite <- (Nat.add_0_r n). apply H. lia.
  - apply IH. intros i Hi. replace (S n + i)%nat with (n + S i)%nat by lia.
    apply H. lia.
Qed.

Lemma fresh_cells (n k : nat) :
  concat ((fun a : nat => ([a], @nil (@Entry T))) <$> seq n k).*1 = seq n k /\
  concat ((fun a : nat => ([a], @nil (@Entry T))) <$> seq n k).*2 = [].
Proof.
  revert n. induction k as [|k IH]; intros n; [split; reflexivity|].
  cbn. destruct (IH (S n)) as [-> ->]. split; reflexivity.
Qed.

Lemma HashMap_bins_spec initial_bins the_load_threshold the_hash w this w1 :
  trailers_empty w = true -> 0 < initial_bins ->
  HashMap_bins T_default initial_bins the_load_threshold the_hash w
    = Ok this w1 ->
  well_formed w1 this = true /\ str w1 this = Ret [] /\
  size w1 this = Ret 0 /\ trailers_empty w1 = true /\
  (forall t, well_formed w t = true -> well_formed w1 t = true).
Proof.
  intros Htr Hpos H.
  unfold HashMap_bins in H. apply bind_Ok in H as (arr & wn & Hnew & H).
  rewrite new_trailers_exact in Hnew. injection Hnew as <- <-.
  injection H as <- <-.
  set (k := Z.to_nat initial_bins) in *.
  set (n := length (nodes w)) in *.
  set (m := mkHashMap _ _ _ _ _ _).
  set (w1 := set_tables _ _).
  assert (Hm : tables w1 !! length (tables w) = Some m).
  { subst w1. cbn. apply list_lookup_middle. reflexivity. }
  assert (Hgrow : nodes w1 = nodes w ++ replicate k (Some (LN_default T_default)))
    by reflexivity.
  assert (Htr1 : trailers_empty w1 = true).
  { rewrite (trailers_empty_app _ _ _ Hgrow), Htr, trailers_empty_replicate.
    reflexivity. }
  assert (Hs : shaped w1 m ((fun a => ([a], [])) <$> seq n k)).
  { repeat split.
    - exact Hpos.
    - cbn. rewrite length_fmap, length_seq. reflexivity.
    - cbn [map m]. apply fresh_trailers_chains. intros i Hi.
      rewrite Hgrow. rewrite lookup_app_r by (subst n; lia).
      replace (n + i - length (nodes w))%nat with i by (subst n; lia).
      apply lookup_replicate_2. exact Hi.
    - rewrite (proj1 (fresh_cells n k)). apply NoDup_seq. }
  split; [eapply shaped_well_formed; eassumption|].
  split.
  { rewrite (shaped_str _ _ _ _ Hm Hs), (proj2 (fresh_cells n k)). reflexivity. }
  split; [unfold size, get_table; rewrite Hm; reflexivity|].
  split; [exact Htr1|].
  intros t Ht. destruct (well_formed_shaped _ _ Ht) as (mt & cs & Hmt & Hst & _).
  eapply shaped_well_formed; [|eapply shaped_extends; eassumption|exact Htr1].
  subst w1. cbn. apply lookup_app_l_Some, Hmt.
Qed.

(** X13. The constructor with a number of bins: for a positive number it
    makes a well-formed table in which [str] finds no entry and whose size
    is 0, and it leaves every well-formed table well formed. *)
Theorem constructor_makes_empty_well_formed_table
  (thash chash : hashfunc) initial_bins the_load_threshold w this w1 :
  trailers_empty w = true -> 0 < initial_bins ->
  HashMap_ctor_bins T_default thash initial_bins the_load_threshold chash w
    = Ok this w1 ->
  well_formed w1 this = true /\ str w1 this = Ret [] /\
  size w1 this = Ret 0 /\
  forall t, well_formed w t = true -> well_formed w1 t = true.
Proof.
  intros Htr Hpos H. unfold HashMap_ctor_bins in H. inv_M H.
  destruct (HashMap_bins_spec _ _ _ _ _ _ Htr Hpos H) as (H1 & H2 & H3 & _ & H4).
  auto.
Qed.

(** ** A node put at the front of a bin *)


Lemma shaped_allocated w m cs a :
  shaped w m cs -> a ∈ concat cs.*1 -> (a < length (nodes w))%nat.
Proof.
  intros (_ & _ & Hcs & _) Hin.
  apply list_elem_of_In, in_concat in Hin as (addrs & Hin & Ha).
  apply list_elem_of_In in Hin, Ha.
  apply list_elem_of_fmap in Hin as (c & -> & Hc).
  apply list_elem_of_lookup in Hc as (i & Hi).
  destruct (Forall2_lookup_r _ _ _ _ _ Hcs Hi) as (p & _ & Hch).
  eapply chain_allocated; eassumption.
Qed.




Lemma read_eq {A : Type} (f : World -> Result A) w (a : A) :
  f w = Ret a -> read f w = Ok a w.
Proof. intros H. unfold read. rewrite H. reflexivity. Qed.


(** ** The rehousing loops *)










(** ** A put of a new key *)









(** ** An erase of a key the table holds *)

Lemma remove_key_app (key : KEY) (l1 l2 : list (@Entry T)) :
  remove_key key (l1 ++ l2) =
  match find (key_is key) l1 with
  | Some _ => remove_key key l1 ++ l2
  | None => l1 ++ remove_key key l2
  end.
Proof.
  induction l1 as [|e l1 IH]; [reflexivity|]. cbn.
  destruct (key_is key e); [reflexivity|]. rewrite IH.
  destruct (find (key_is key) l1); reflexivity.
Qed.

Lemma bins_frame w w1 (ps : list LNptr) cs :
  Forall2 (bin_chain w) ps cs ->
  (forall x, x ∈ concat cs.*1 -> nodes w1 !! x = nodes w !! x) ->
  Forall2 (bin_chain w1) ps cs.
Proof.
  induction 1 as [|p c ps cs Hc Hrest IH]; intros Hsame; constructor.
  - unfold bin_chain in *. eapply chain_frame; [exact Hc|].
    intros x Hx. apply Hsame. cbn. apply elem_of_app. left. exact Hx.
  - apply IH. intros x Hx. apply Hsame. cbn. apply elem_of_app. right. exact Hx.
Qed.

Lemma erase_in_chain w key p addrs l :
  chain w p addrs l ->
  forall (f : nat) e, (length l < f)%nat ->
  find (key_is key) l = Some e ->
  exists a n b succ addrs',
    find_key_chain f w key p = Ret (Some a) /\
    nodes w !! a = Some (Some n) /\ value n = e /\ next n = Some b /\
    nodes w !! b = Some (Some succ) /\
    addrs ≡ₚ b :: addrs' /\ a ∈ addrs' /\
    forall w',
      (forall x, x <> a -> x <> b -> nodes w' !! x = nodes w !! x) ->
      nodes w' !! a = Some (Some succ) ->
      chain w' p addrs' (remove_key key l).
Proof.
  induction 1 as [a0 n0 Hn Hnext | a0 n0 addrs l Hn Hc IH]; intros f e Hf Hfind;
    [discriminate|].
  pose proof (chain_NoDup _ _ _ _ (chain_live _ _ _ _ _ Hn Hc)) as Hnd.
  destruct f as [|f]; [lia|]. cbn [find_key_chain].
  rewrite (proj2 (load_Ret _ _ _) Hn). cbn [rbind].
  cbn [find remove_key] in *.
  assert (Ekk : key_is key (value n0) = String.eqb (first (value n0)) key)
    by reflexivity.
  rewrite Ekk in Hfind |- *. clear Ekk.
  destruct (String.eqb (first (value n0)) key) eqn:Ek.
  - injection Hfind as <-.
    inversion Hc as [b succ Hb Hsn Eb | b succ addrs2 l2 Hb Hc2 Eb]; subst.
    + exists a0, n0, b, succ, [a0]. split; [reflexivity|].
      split; [exact Hn|]. split; [reflexivity|]. split; [congruence|].
      split; [exact Hb|]. split; [apply perm_swap|].
      split; [apply list_elem_of_singleton; reflexivity|].
      intros w' Hsame Ha. eapply chain_trailer; eassumption.
    + exists a0, n0, b, succ, (a0 :: addrs2). split; [reflexivity|].
      split; [exact Hn|]. split; [reflexivity|]. split; [congruence|].
      split; [exact Hb|]. split; [apply perm_swap|].
      split; [apply elem_of_cons; left; reflexivity|].
      intros w' Hsame Ha. eapply chain_live; [exact Ha|].
      eapply chain_frame; [exact Hc2|]. intros x Hx.
      apply NoDup_cons in Hnd as [Hn0 Hnd]. apply NoDup_cons in Hnd as [Hnb _].
      apply Hsame.
      * intros ->. apply Hn0. apply elem_of_cons. right. exact Hx.
      * intros ->. exact (Hnb Hx).
  - destruct (IH f e ltac:(cbn in Hf; lia) Hfind)
      as (a & n & b & succ & addrs' & Hrun & Ha & Hv & Hnb & Hb & Hperm & Hin
          & Hnew).
    exists a, n, b, succ, (a0 :: addrs'). split; [exact Hrun|].
    split; [exact Ha|]. split; [exact Hv|]. split; [exact Hnb|].
    split; [exact Hb|]. split; [rewrite Hperm; apply perm_swap|].
    split; [apply elem_of_cons; right; exact Hin|].
    intros w' Hsame Ha'.
    apply NoDup_cons in Hnd as [Hn0 Hnd].
    apply (chain_live _ _ n0).
    + rewrite Hsame; [exact Hn| |].
      * intros ->. apply Hn0. rewrite Hperm. apply elem_of_cons. right. exact Hin.
      * intros ->. apply Hn0. rewrite Hperm. apply elem_of_cons. left. reflexivity.
    + apply Hnew; assumption.
Qed.

Lemma erase_in_bins w key (k : nat) m :
  trailers_empty w = true -> key <> EmptyString ->
  forall (i : nat) cs e,
  Forall2 (bin_chain w) (take k (drop i (map m))) cs -> length cs = k ->
  NoDup (concat cs.*1) ->
  find (key_is key) (concat cs.*2) = Some e ->
  exists a n b succ cs',
    find_key_bins k w m key (Z.of_nat i) = Ret (Some a) /\
    nodes w !! a = Some (Some n) /\ value n = e /\ next n = Some b /\
    nodes w !! b = Some (Some succ) /\
    concat cs.*1 ≡ₚ b :: concat cs'.*1 /\ a ∈ concat cs'.*1 /\
    concat cs'.*2 = remove_key key (concat cs.*2) /\
    forall w',
      (forall x, x <> a -> x <> b -> nodes w' !! x = nodes w !! x) ->
      nodes w' !! a = Some (Some succ) ->
      Forall2 (bin_chain w') (take k (drop i (map m))) cs'.
Proof.
  intros Htr Hkey. induction k as [|k IH]; intros i cs e Hcs Hlen Hnd Hfind.
  - destruct cs; discriminate.
  - destruct cs as [|c ocs]; [discriminate|].
    assert (Hlen' : length ocs = k) by (cbn in Hlen; lia). clear Hlen.
    destruct (drop i (map m)) as [|p rest] eqn:Ed; [inversion Hcs|].
    assert (Ep : map m !! i = Some p).
    { pose proof (lookup_drop (map m) i 0) as E. rewrite Ed in E.
      rewrite Nat.add_0_r in E. symmetry. exact E. }
    rewrite (drop_S _ _ _ Ep) in Ed. injection Ed as <-.
    cbn [take] in Hcs. inversion Hcs as [|? ? ? ? Hc Hrest]; subst.
    unfold bin_chain in Hc.
    change (concat (c :: ocs).*1) with (c.1 ++ concat ocs.*1) in *.
    change (concat (c :: ocs).*2) with (c.2 ++ concat ocs.*2) in *.
    apply NoDup_app in Hnd as (Hnd1 & Hdisj & Hnd2).
    cbn [find_key_bins]. rewrite (proj2 (index_Ret _ _ _) Ep). cbn [rbind].
    replace (Z.of_nat i + 1) with (Z.of_nat (S i)) by lia.
    rewrite find_app_first in Hfind. rewrite remove_key_app.
    destruct (find (key_is key) c.2) as [e0|] eqn:Ef.
    + injection Hfind as ->.
      assert (Hfuel : (length c.2 < fuel_null w)%nat).
      { pose proof (chain_fuel _ _ _ _ Hc). unfold fuel_null. lia. }
      destruct (erase_in_chain w key p _ _ Hc _ e Hfuel Ef)
        as (a & n & b & succ & addrs' & Hrun & Ha & Hv & Hnb & Hb & Hperm
            & Hin & Hnew).
      exists a, n, b, succ, ((addrs', remove_key key c.2) :: ocs).
      rewrite Hrun. cbn [rbind]. split; [reflexivity|].
      split; [exact Ha|]. split; [exact Hv|]. split; [exact Hnb|].
      split; [exact Hb|].
      change (concat ((addrs', remove_key key c.2) :: ocs).*1)
        with (addrs' ++ concat ocs.*1).
      split; [rewrite Hperm; reflexivity|].
      split; [apply elem_of_app; left; exact Hin|].
      split; [reflexivity|].
      intros w' Hsame Ha'. constructor.
      * unfold bin_chain. cbn [fst snd]. apply Hnew; assumption.
      * eapply bins_frame; [exact Hrest|]. intros x Hx. apply Hsame.
        -- intros ->. apply (Hdisj a); [|exact Hx].
           rewrite Hperm. apply elem_of_cons. right. exact Hin.
        -- intros ->. apply (Hdisj b); [|exact Hx].
           rewrite Hperm. apply elem_of_cons. left. reflexivity.
    + destruct (find_key_chain_str (fuel w) w key p c.2 Htr Hkey
                  (str_chain_fuel _ _ _ _ Hc)) as (r & Hr & Hm).
      unfold first_match in Hm. rewrite Ef in Hm. subst r.
      unfold fuel_null. rewrite Hr. cbn [rbind].
      destruct (IH (S i) ocs e Hrest eq_refl Hnd2 Hfind)
        as (a & n & b & succ & ocs' & Hrun & Ha & Hv & Hnb & Hb & Hperm
            & Hin & Hent & Hnew).
      exists a, n, b, succ, (c :: ocs'). split; [exact Hrun|].
      split; [exact Ha|]. split; [exact Hv|]. split; [exact Hnb|].
      split; [exact Hb|].
      change (concat (c :: ocs').*1) with (c.1 ++ concat ocs'.*1).
      change (concat (c :: ocs').*2) with (c.2 ++ concat ocs'.*2).
      split; [rewrite Hperm; symmetry; apply Permutation_middle|].
      split; [apply elem_of_app; right; exact Hin|].
      split; [rewrite Hent; reflexivity|].
      intros w' Hsame Ha'. constructor.
      * unfold bin_chain. eapply chain_frame; [exact Hc|]. intros x Hx.
        apply Hsame.
        -- intros ->. apply (Hdisj a Hx).
           rewrite Hperm. apply elem_of_cons. right. exact Hin.
        -- intros ->. apply (Hdisj b Hx).
           rewrite Hperm. apply elem_of_cons. left. reflexivity.
      * apply Hnew; assumption.
Qed.

Lemma trailers_empty_insert w w1 (a : nat) (c : option LN) :
  trailers_empty w = true ->
  nodes w1 = <[a := c]> (nodes w) ->
  match c with
  | Some n => exists a', nodes w !! a' = Some (Some n)
  | None => True
  end ->
  trailers_empty w1 = true.
Proof.
  unfold trailers_empty. intros Htr E Hc. rewrite E.
  rewrite forallb_forall in *. intros x Hx.
  apply list_elem_of_In, list_elem_of_lookup in Hx as (i & Hi).
  destruct (decide (i = a)) as [->|Hne].
  - assert (Hlt : (a < length (nodes w))%nat).
    { apply lookup_lt_Some in Hi. rewrite length_insert in Hi. exact Hi. }
    rewrite list_lookup_insert_eq in Hi by exact Hlt.
    injection Hi as <-. destruct c as [n|]; [|reflexivity].
    destruct Hc as (a' & Ha'). apply (Htr (Some n)), list_elem_of_In.
    eapply list_elem_of_lookup_2, Ha'.
  - rewrite list_lookup_insert_ne in Hi by congruence.
    apply Htr, list_elem_of_In. eapply list_elem_of_lookup_2, Hi.
Qed.

Lemma existsb_find {A : Type} (P : A -> bool) (l : list A) :
  existsb P l = true -> exists e, find P l = Some e.
Proof.
  induction l as [|x l IH]; [discriminate|]. cbn.
  destruct (P x); [eexists; reflexivity|exact IH].
Qed.

Lemma erase_of_listed_key w this key m l :
  well_formed w this = true -> tables w !! this = Some m ->
  str w this = Ret l -> key <> EmptyString ->
  existsb (key_is key) l = true ->
  exists e w1 m1,
    find (key_is key) l = Some e /\
    erase this key w = Ok (second e) w1 /\
    well_formed w1 this = true /\
    tables w1 !! this = Some m1 /\
    used m1 = used m - 1 /\ mod_count m1 = mod_count m + 1 /\
    bins m1 = bins m /\
    str w1 this = Ret (remove_key key l).
Proof.
  intros Hwf Hm Hstr Hkey Hin.
  destruct (well_formed_shaped _ _ Hwf) as (m' & cs & Hm' & Hs & Htr).
  rewrite Hm in Hm'. injection Hm' as <-.
  pose proof (has_key_str _ _ key _ Hstr) as Hk. rewrite Hin in Hk.
  rewrite (shaped_str _ _ _ _ Hm Hs) in Hstr. injection Hstr as <-.
  destruct (existsb_find _ _ Hin) as (e & Hfind).
  pose proof Hs as (Hb & Hlen & Hcs & Hnd).
  assert (Hcs0 : Forall2 (bin_chain w)
                   (take (Z.to_nat (bins m)) (drop 0 (map m))) cs).
  { rewrite drop_0, <- Hlen, firstn_all. exact Hcs. }
  assert (Hlcs : length cs = Z.to_nat (bins m)).
  { rewrite <- Hlen. symmetry. eapply Forall2_length, Hcs. }
  destruct (erase_in_bins w key _ m Htr Hkey 0%nat cs e Hcs0 Hlcs Hnd Hfind)
    as (a & n & b & succ & cs' & Hrun & Ha & Hv & Hnb & Hsucc & Hperm & Hina
        & Hent & Hnew).
  destruct (erase_of_present w this key m Hm Hk)
    as (a' & n' & Hrun' & Ha' & _ & Herase).
  unfold find_key, get_table in Hrun'. rewrite Hm in Hrun'. cbn [rbind] in Hrun'.
  change 0 with (Z.of_nat 0) in Hrun'. rewrite Hrun in Hrun'.
  injection Hrun' as <-. rewrite Ha in Ha'. injection Ha' as <-.
  specialize (Herase b succ Hnb Hsucc).
  set (m1 := set_mod_count _ _) in Herase. set (w1 := mkWorld _ _) in Herase.
  rewrite Hperm in Hnd. apply NoDup_cons in Hnd as [Hnb' Hnd'].
  assert (Hab : a <> b) by (intros ->; exact (Hnb' Hina)).
  assert (Hm1 : tables w1 !! this = Some m1).
  { subst w1. cbn. apply list_lookup_insert_eq. eapply lookup_lt_Some, Hm. }
  assert (Hs1 : shaped w1 m1 cs').
  { split; [exact Hb|]. split; [exact Hlen|]. split; [|exact Hnd'].
    assert (Hcs' : Forall2 (bin_chain w1)
                     (take (Z.to_nat (bins m)) (drop 0 (map m))) cs').
    { apply Hnew.
      - intros x Hxa Hxb. subst w1. cbn.
        rewrite !list_lookup_insert_ne by congruence. reflexivity.
      - subst w1. cbn. rewrite list_lookup_insert_ne by congruence.
        apply list_lookup_insert_eq. eapply lookup_lt_Some, Ha. }
    rewrite drop_0, <- Hlen, firstn_all in Hcs'. exact Hcs'. }
  assert (Htr1 : trailers_empty w1 = true).
  { apply (trailers_empty_insert
             (set_nodes w (<[a := Some succ]> (nodes w))) w1 b None);
      [|reflexivity|exact I].
    apply (trailers_empty_insert w
             (set_nodes w (<[a := Some succ]> (nodes w))) a (Some succ) Htr);
      [reflexivity|].
    exists b. exact Hsucc. }
  exists e, w1, m1. subst e. split; [exact Hfind|]. split; [exact Herase|].
  split; [eapply shaped_well_formed; eassumption|].
  split; [exact Hm1|]. split; [reflexivity|]. split; [reflexivity|].
  split; [reflexivity|].
  rewrite (shaped_str _ _ _ _ Hm1 Hs1), Hent. reflexivity.
Qed.

(** X15. An erase of a key other than the empty string that [str] lists,
    on a well-formed table: it returns the value of the first entry with
    that key in the order of [str]; afterwards [str] lists the same
    entries in the same order but that one, the table is well formed, used
    is one lower, mod_count one higher and bins is unchanged. *)
Theorem erase_removes_first_match w this key m l :
  well_formed w this = true -> tables w !! this = Some m ->
  str w this = Ret l -> key <> EmptyString ->
  existsb (key_is key) l = true ->
  exists e w1 m1,
    find (key_is key) l = Some e /\
    erase this key w = Ok (second e) w1 /\
    well_formed w1 this = true /\
    tables w1 !! this = Some m1 /\
    used m1 = used m - 1 /\ mod_count m1 = mod_count m + 1 /\
    bins m1 = bins m /\
    str w1 this = Ret (remove_key key l).
Proof. apply erase_of_listed_key. Qed.

(** ** Clearing a table *)

Lemma clear_chain_unfold (f : nat) this i a :
  @clear_chain T (S f) this i (Some a) =
  (n <- read (fun w => load w (Some a)) ;;
   match next n with
   | None =>
       m <- this_table this ;;
       a' <- read (fun _ => assign_index (map m) i (Some a)) ;;
       put_table this (set_map m a')
   | Some _ =>
       do delete_LN (Some a) ;;
       clear_chain f this i (next n)
   end).
Proof. reflexivity. Qed.

Lemma delete_LN_eq w a (n : @LN T) :
  load w (Some a) = Ret n ->
  delete_LN (Some a) w = Ok tt (set_nodes w (<[a := None]> (nodes w))).
Proof. intros H. unfold delete_LN. rewrite H. reflexivity. Qed.

Lemma clear_chain_run this w0 p addrs l :
  chain w0 p addrs l ->
  forall (f : nat) w m (i : nat),
    (length l < f)%nat ->
    (forall x, x ∈ addrs -> nodes w !! x = nodes w0 !! x) ->
    tables w !! this = Some m -> (i < length (map m))%nat ->
    exists t nt pre w1,
      addrs = pre ++ [t] /\
      nodes w0 !! t = Some (Some nt) /\ next nt = None /\
      clear_chain f this (Z.of_nat i) p w = Ok tt w1 /\
      tables w1 = <[this := set_map m (<[i := Some t]> (map m))]> (tables w) /\
      length (nodes w1) = length (nodes w) /\
      (forall x, x ∉ pre -> nodes w1 !! x = nodes w !! x) /\
      (forall x, x ∈ pre -> nodes w1 !! x = Some None).
Proof.
  induction 1 as [a n Hn Hnext | a n addrs l Hn Hc IH];
    intros f w m i Hf Hsame Hm Hi.
  - destruct f as [|f]; [lia|]. rewrite clear_chain_unfold.
    assert (Hl : load w (Some a) = Ret n).
    { apply load_Ret. rewrite Hsame; [exact Hn|].
      apply list_elem_of_singleton. reflexivity. }
    rewrite (bind_eq _ _ _ _ _ (read_eq (fun w => load w (Some a)) _ _ Hl)).
    rewrite Hnext.
    rewrite (bind_eq _ _ _ _ _ (this_table_eq _ _ _ Hm)).
    rewrite (bind_eq _ _ _ _ _
               (read_eq (fun _ => assign_index (map m) (Z.of_nat i) _) _ _
                  (assign_index_Ret _ _ _ Hi))).
    rewrite (put_table_eq _ _ _ _ Hm).
    exists a, n, [], (set_tables w (<[this := set_map m (<[i := Some a]> (map m))]> (tables w))).
    split; [reflexivity|]. split; [exact Hn|]. split; [exact Hnext|].
    split; [reflexivity|]. split; [reflexivity|]. split; [reflexivity|].
    split; [reflexivity|]. intros x Hx. inversion Hx.
  - pose proof (chain_NoDup _ _ _ _ (chain_live _ _ _ _ _ Hn Hc)) as Hnd.
    apply NoDup_cons in Hnd as [Hna Hnd].
    destruct f as [|f]; [cbn in Hf; lia|]. rewrite clear_chain_unfold.
    assert (Hl : load w (Some a) = Ret n).
    { apply load_Ret. rewrite Hsame; [exact Hn|].
      apply elem_of_cons. left. reflexivity. }
    rewrite (bind_eq _ _ _ _ _ (read_eq (fun w => load w (Some a)) _ _ Hl)).
    destruct (next n) as [b|] eqn:Enext; [|inversion Hc].
    rewrite (bind_eq _ _ _ _ _ (delete_LN_eq _ _ _ Hl)).
    set (w' := set_nodes w _).
    assert (Hsame' : forall x, x ∈ addrs -> nodes w' !! x = nodes w0 !! x).
    { intros x Hx. subst w'. cbn. rewrite list_lookup_insert_ne.
      - apply Hsame. apply elem_of_cons. right. exact Hx.
      - intros ->. exact (Hna Hx). }
    destruct (IH f w' m i ltac:(cbn in Hf; lia) Hsame' Hm Hi)
      as (t & nt & pre & w1 & -> & Ht & Hnt & Hrun & Htab & Hlen & Hout & Hin).
    exists t, nt, (a :: pre), w1. split; [reflexivity|].
    split; [exact Ht|]. split; [exact Hnt|]. split; [exact Hrun|].
    split; [exact Htab|].
    split; [rewrite Hlen; subst w'; cbn; apply length_insert|].
    assert (Hapre : a ∉ pre).
    { intros H. apply Hna. apply elem_of_app. left. exact H. }
    split.
    + intros x Hx. rewrite Hout.
      * subst w'. cbn. apply list_lookup_insert_ne. intros ->.
        apply Hx. apply elem_of_cons. left. reflexivity.
      * intros H. apply Hx. apply elem_of_cons. right. exact H.
    + intros x Hx. apply elem_of_cons in Hx as [->|Hx]; [|apply Hin, Hx].
      rewrite (Hout _ Hapre). subst w'. cbn. apply list_lookup_insert_eq.
      apply load_Ret in Hl. eapply lookup_lt_Some, Hl.
Qed.

Lemma trailers_empty_deleted w w1 :
  trailers_empty w = true ->
  (forall x c, nodes w1 !! x = Some c -> c = None \/ nodes w !! x = Some c) ->
  trailers_empty w1 = true.
Proof.
  unfold trailers_empty. intros Htr H. rewrite forallb_forall in *.
  intros c Hc. apply list_elem_of_In, list_elem_of_lookup in Hc as (x & Hx).
  destruct (H x c Hx) as [->|Hw]; [reflexivity|].
  apply Htr, list_elem_of_In. eapply list_elem_of_lookup_2, Hw.
Qed.

Lemma clear_bins_spec this (k : nat) :
  forall w m dps tps done todo,
  tables w !! this = Some m -> map m = dps ++ tps -> length tps = k ->
  Forall2 (bin_chain w) dps done -> Forall2 (bin_chain w) tps todo ->
  Forall (fun c => c.2 = []) done ->
  NoDup (concat (done ++ todo).*1) -> trailers_empty w = true ->
  exists w1 m1 cs1,
    clear_bins k this (Z.of_nat (length dps)) w = Ok tt w1 /\
    tables w1 !! this = Some m1 /\ bins m1 = bins m /\
    length (map m1) = length (map m) /\
    Forall2 (bin_chain w1) (map m1) cs1 /\
    Forall (fun c => c.2 = []) cs1 /\
    NoDup (concat cs1.*1) /\ trailers_empty w1 = true.
Proof.
  induction k as [|k IH];
    intros w m dps tps done todo Hm Emap Hlen Hdone Htodo Hempty Hnd Htr.
  - destruct tps; [|discriminate]. inversion Htodo; subst.
    rewrite app_nil_r in *. exists w, m, done.
    split; [reflexivity|]. split; [exact Hm|]. split; [reflexivity|].
    split; [reflexivity|]. rewrite Emap. auto.
  - destruct tps as [|p tps]; [discriminate|].
    assert (Hlen' : length tps = k) by (cbn in Hlen; lia). clear Hlen.
    apply Forall2_cons_inv_l in Htodo as (c & todo' & Hc & Htodo & ->).
    unfold bin_chain in Hc.
    rewrite fmap_app, concat_app in Hnd.
    change (concat (c :: todo').*1) with (c.1 ++ concat todo'.*1) in Hnd.
    pose proof Hnd as Hnd0.
    apply NoDup_app in Hnd as (Hnd1 & Hdisj1 & Hnd).
    apply NoDup_app in Hnd as (Hndc & Hdisj2 & Hnd2).
    assert (Hp : map m !! length dps = Some p).
    { rewrite Emap. apply list_lookup_middle. reflexivity. }
    cbn [clear_bins].
    rewrite (bind_eq _ _ _ _ _ (this_table_eq _ _ _ Hm)).
    rewrite (bind_eq _ _ _ _ _
               (read_eq (fun _ => index (map m) (Z.of_nat (length dps))) w p
                  (proj2 (index_Ret _ _ _) Hp))).
    rewrite (bind_eq _ _ _ _ _ (read_eq (fun w => Ret (fuel w)) w _ eq_refl)).
    destruct (clear_chain_run this w p _ _ Hc (fuel w) w m (length dps)
                (chain_fuel _ _ _ _ Hc) (fun _ _ => eq_refl) Hm
                (lookup_lt_Some _ _ _ Hp))
      as (t & nt & pre & w2 & Eaddrs & Ht & Hnt & Hrun & Htab & Hlenn & Hout
          & Hin).
    rewrite (bind_eq _ _ _ _ _ Hrun).
    set (m2 := set_map m _) in Htab.
    assert (Hm2 : tables w2 !! this = Some m2).
    { rewrite Htab. apply list_lookup_insert_eq. eapply lookup_lt_Some, Hm. }
    assert (Emap2 : map m2 = (dps ++ [Some t]) ++ tps).
    { subst m2. cbn [map set_map]. rewrite Emap.
      rewrite insert_app_r_alt by apply Nat.le_refl. rewrite Nat.sub_diag. cbn.
      rewrite <- app_assoc. reflexivity. }
    rewrite Eaddrs in *.
    assert (Htpre : t ∉ pre).
    { apply NoDup_app in Hndc as (_ & Hd & _). intros H.
      apply (Hd t H). apply list_elem_of_singleton. reflexivity. }
    assert (Hdone2 : Forall2 (bin_chain w2) (dps ++ [Some t])
                       (done ++ [([t], [])])).
    { apply Forall2_app.
      - eapply bins_frame; [exact Hdone|]. intros x Hx. apply Hout.
        intros Hxp. apply (Hdisj1 x Hx). apply elem_of_app. left.
        apply elem_of_app. left. exact Hxp.
      - constructor; [|constructor]. unfold bin_chain. cbn [fst snd].
        apply (chain_trailer _ _ nt); [|exact Hnt].
        rewrite (Hout _ Htpre). exact Ht. }
    assert (Htodo2 : Forall2 (bin_chain w2) tps todo').
    { eapply bins_frame; [exact Htodo|]. intros x Hx. apply Hout.
      intros Hxp. apply (Hdisj2 x); [|exact Hx].
      apply elem_of_app. left. exact Hxp. }
    assert (Hempty2 : Forall (fun c => c.2 = []) (done ++ [([t], [])])).
    { apply Forall_app. split; [exact Hempty|]. constructor; [reflexivity|].
      constructor. }
    assert (Hnd' : NoDup (concat ((done ++ [([t], [])]) ++ todo').*1)).
    { eapply sublist_NoDup; [exact Hnd0|].
      rewrite !fmap_app, !concat_app. cbn. rewrite <- app_assoc.
      apply sublist_app; [reflexivity|].
      apply sublist_app; [|reflexivity].
      apply sublist_inserts_l. reflexivity. }
    assert (Htr2 : trailers_empty w2 = true).
    { apply (trailers_empty_deleted w w2 Htr). intros x c0 Hx.
      destruct (decide (x ∈ pre)) as [Hxp|Hxp].
      - left. rewrite (Hin _ Hxp) in Hx. congruence.
      - right. rewrite (Hout _ Hxp) in Hx. exact Hx. }
    replace (Z.of_nat (length dps) + 1)
      with (Z.of_nat (length (dps ++ [Some t])))
      by (rewrite length_app; cbn; lia).
    destruct (IH w2 m2 _ _ _ _ Hm2 Emap2 Hlen' Hdone2 Htodo2 Hempty2 Hnd' Htr2)
      as (w1 & m1 & cs1 & Hrun1 & Hm1 & Hb1 & Hl1 & Hcs1 & He1 & Hnd1' & Htr1).
    exists w1, m1, cs1. split; [exact Hrun1|]. split; [exact Hm1|].
    split; [exact Hb1|].
    split; [rewrite Hl1; subst m2; cbn; apply length_insert|].
    auto.
Qed.

Lemma concat_empty (cs : list (list nat * list (@Entry T))) :
  Forall (fun c => c.2 = []) cs -> concat cs.*2 = [].
Proof.
  induction 1 as [|c cs Hc _ IH]; [reflexivity|]. cbn. rewrite Hc, IH.
  reflexivity.
Qed.

Lemma clear_of_well_formed w this m :
  well_formed w this = true -> tables w !! this = Some m ->
  exists w1 m1,
    clear this w = Ok tt w1 /\
    well_formed w1 this = true /\
    tables w1 !! this = Some m1 /\
    used m1 = 0 /\ mod_count m1 = mod_count m + 1 /\ bins m1 = bins m /\
    str w1 this = Ret [] /\
    (forall key, has_key w1 this key = Ret false).
Proof.
  intros Hwf Hm.
  destruct (well_formed_shaped _ _ Hwf) as (m' & cs & Hm' & Hs & Htr).
  rewrite Hm in Hm'. injection Hm' as <-.
  destruct Hs as (Hb & Hlen & Hcs & Hnd).
  destruct (clear_bins_spec this (Z.to_nat (bins m)) w m [] (map m) [] cs
              Hm eq_refl Hlen ltac:(constructor) Hcs ltac:(constructor)
              Hnd Htr)
    as (w2 & m2 & cs2 & Hrun2 & Hm2 & Hb2 & Hl2 & Hcs2 & He2 & Hnd2 & Htr2).
  pose (m1 := set_mod_count (set_used m2 0) (mod_count m2 + 1)).
  pose (w1 := set_tables w2 (<[this := m1]> (tables w2))).
  assert (Hm1 : tables w1 !! this = Some m1).
  { subst w1. cbn. apply list_lookup_insert_eq. eapply lookup_lt_Some, Hm2. }
  assert (Hs1 : shaped w1 m1 cs2).
  { split; [subst m1; cbn; lia|]. split; [subst m1; cbn; congruence|].
    split; [|exact Hnd2]. eapply bins_frame; [exact Hcs2|]. reflexivity. }
  pose proof (shaped_str _ _ _ _ Hm1 Hs1) as Hstr.
  rewrite (concat_empty _ He2) in Hstr.
  assert (Hrun : clear this w = Ok tt w1).
  { unfold clear.
    rewrite (bind_eq _ _ _ _ _ (this_table_eq _ _ _ Hm)).
    rewrite (bind_eq _ _ _ _ _ Hrun2).
    rewrite (bind_eq _ _ _ _ _ (this_table_eq _ _ _ Hm2)).
    apply (put_table_eq _ _ _ _ Hm2). }
  destruct (clear_touches _ _ _ _ Hrun this m Hm) as (m1' & Hm1' & Hc & _).
  rewrite Hm1 in Hm1'. injection Hm1' as <-.
  destruct (Hc eq_refl) as [Hu Hmc].
  exists w1, m1. split; [exact Hrun|].
  split; [eapply shaped_well_formed; eassumption|].
  split; [exact Hm1|]. split; [exact Hu|]. split; [exact Hmc|].
  split; [exact Hb2|]. split; [exact Hstr|].
  intros key. rewrite (has_key_str _ _ key _ Hstr). reflexivity.
Qed.

(** X16. [clear] on a well-formed table returns and leaves the table
    well formed and empty: [str] lists no entry, [has_key] is false for
    every key, used is 0, mod_count is one higher and bins is unchanged. *)
Theorem clear_empties_table w this m :
  well_formed w this = true -> tables w !! this = Some m ->
  exists w1 m1,
    clear this w = Ok tt w1 /\
    well_formed w1 this = true /\
    tables w1 !! this = Some m1 /\
    used m1 = 0 /\ mod_count m1 = mod_count m + 1 /\ bins m1 = bins m /\
    str w1 this = Ret [] /\
    (forall key, has_key w1 this key = Ret false).
Proof. apply clear_of_well_formed. Qed.

(** ** Traversal with an iterator *)

Lemma first_bin w m (k : nat) :
  forall (i : nat) cs,
  Forall2 (bin_chain w) (drop i (map m)) cs ->
  k = (length (map m) - i)%nat ->
  (concat cs.*2 = [] /\
   begin_bins k w m (Z.of_nat i) = Ret None /\
   advance_bins k w m (Z.of_nat i) = Ret (-1, None)) \/
  (exists (i' : nat) a addrs ls rest,
     begin_bins k w m (Z.of_nat i) = Ret (Some (Z.of_nat i', Some a)) /\
     (Forall (fun e => first e <> EmptyString) (concat cs.*2) ->
      advance_bins k w m (Z.of_nat i) = Ret (Z.of_nat i', Some a)) /\
     (i' < length (map m))%nat /\
     chain w (Some a) addrs ls /\ ls <> [] /\
     Forall2 (bin_chain w) (drop (S i') (map m)) rest /\
     concat cs.*2 = ls ++ concat rest.*2).
Proof.
  induction k as [|k IH]; intros i cs Hcs Hk.
  - rewrite drop_ge in Hcs by lia. inversion Hcs; subst.
    left. repeat split; reflexivity.
  - destruct (lookup_lt_is_Some_2 (map m) i) as [p Hp]; [lia|].
    rewrite (drop_S _ _ _ Hp) in Hcs.
    apply Forall2_cons_inv_l in Hcs as (c & cs' & Hc & Hcs & ->).
    unfold bin_chain in Hc. cbn [begin_bins advance_bins].
    rewrite (proj2 (index_Ret _ _ _) Hp). cbn [rbind].
    replace (Z.of_nat i + 1) with (Z.of_nat (S i)) by lia.
    change (concat (c :: cs').*2) with (c.2 ++ concat cs'.*2).
    unfold fuel. cbn [advance_chain].
    inversion Hc as [a n Hn Hnext Ea Eaddrs El | a n addrs l Hn Hc2 Ea Eaddrs El].
    + rewrite (proj2 (load_Ret _ _ _) Hn). cbn [rbind]. rewrite Hnext.
      cbn [rbind app]. apply (IH (S i) cs' Hcs). lia.
    + rewrite (proj2 (load_Ret _ _ _) Hn). cbn [rbind].
      destruct (next n) as [b|] eqn:Enext; [|inversion Hc2].
      right. exists i, a, c.1, c.2, cs'.
      split; [reflexivity|]. split.
      { intros Hne. cbn in Hne.
        apply Forall_cons in Hne as [Hne _].
        apply String.eqb_neq in Hne. rewrite Hne. reflexivity. }
      split; [eapply lookup_lt_Some, Hp|].
      split; [rewrite Ea; exact Hc|].
      split; [rewrite <- El; discriminate|].
      split; [exact Hcs|rewrite El; reflexivity].
Qed.

Lemma end_eq w this m :
  tables w !! this = Some m ->
  end_ w this = Ret (mkIterator (-1, None) this (mod_count m) true).
Proof.
  intros Hm. unfold end_, Iterator_new, empty, get_table. rewrite Hm.
  reflexivity.
Qed.

Lemma traverse_from_done (f : nat) w this m c :
  tables w !! this = Some m ->
  traverse_from (S f) w this (mkIterator (c, None) this (mod_count m) true)
    = Ret [].
Proof.
  intros Hm. cbn [traverse_from]. rewrite (end_eq _ _ _ Hm). cbn [rbind].
  unfold Iterator_ne.
  rewrite (check_mod_count_match w _ m) by (try exact Hm; reflexivity).
  cbn [rbind ref_map]. rewrite Nat.eqb_refl. reflexivity.
Qed.

Lemma traverse_from_spec w this m :
  tables w !! this = Some m -> trailers_empty w = true ->
  length (map m) = Z.to_nat (bins m) ->
  forall (f : nat) (i : nat) a addrs ls rest,
    (i < length (map m))%nat ->
    chain w (Some a) addrs ls -> ls <> [] ->
    Forall2 (bin_chain w) (drop (S i) (map m)) rest ->
    Forall (fun e => first e <> EmptyString) (ls ++ concat rest.*2) ->
    (length (ls ++ concat rest.*2) < f)%nat ->
    traverse_from f w this
      (mkIterator (Z.of_nat i, Some a) this (mod_count m) true)
    = Ret (ls ++ concat rest.*2).
Proof.
  intros Hm Htr Hlen. induction f as [|f IH];
    intros i a addrs ls rest Hi Hc Hls Hrest Hne Hf; [lia|].
  set (it := mkIterator (Z.of_nat i, Some a) this (mod_count m) true).
  assert (Hcheck : check_mod_count w it = Ret tt)
    by (apply (check_mod_count_match w it m); [exact Hm|reflexivity]).
  cbn [traverse_from]. rewrite (end_eq _ _ _ Hm). cbn [rbind].
  unfold Iterator_ne, operator_deref, operator_pre_inc. rewrite Hcheck.
  cbn [rbind ref_map it current snd can_erase negb orb LNptr_eqb].
  rewrite Nat.eqb_refl. cbn [negb rbind].
  inversion Hc as [|a' n addrs' ls' Hn Hc2 Ea Eaddrs El]; subst;
    [congruence|].
  rewrite (proj2 (load_Ret _ _ _) Hn). cbn [rbind].
  unfold advance_cursors, it. cbn [current snd fst].
  rewrite (proj2 (load_Ret _ _ _) Hn). cbn [rbind].
  inversion Hc2 as [b succ Hb Hsn Eb | b succ addrs2 ls2 Hb Hc3 Eb]; subst.
  - rewrite (proj2 (load_Ret _ _ _) Hb). cbn [rbind].
    rewrite (trailers_empty_spec _ _ _ Htr Hb Hsn). cbn [String.eqb negb].
    unfold get_table. cbn [ref_map]. rewrite Hm. cbn [rbind].
    replace (Z.of_nat i + 1) with (Z.of_nat (S i)) by lia.
    destruct (first_bin w m (Z.to_nat (bins m - Z.of_nat (S i))) (S i) rest
                Hrest ltac:(lia))
      as [(E0 & _ & Hadv)|(i' & a' & addrs' & ls' & rest' & _ & Hadv & Hi'
                           & Hc' & Hls' & Hrest' & E)].
    + rewrite Hadv. cbn [rbind]. unfold set_current. cbn [ref_map expected_mod_count can_erase].
      destruct f as [|f]; [cbn in Hf; lia|].
      rewrite (traverse_from_done _ _ _ _ _ Hm). rewrite E0. reflexivity.
    + cbn in Hne. apply Forall_cons in Hne as [_ Hne].
      rewrite (Hadv Hne). cbn [rbind]. unfold set_current. cbn [ref_map expected_mod_count can_erase].
      cbn [app]. rewrite E in Hne |- *.
      rewrite (IH i' a' addrs' ls' rest' Hi' Hc' Hls' Hrest' Hne).
      * reflexivity.
      * rewrite E in Hf. cbn in Hf. lia.
  - rewrite (proj2 (load_Ret _ _ _) Hb). cbn [rbind].
    cbn in Hne. apply Forall_cons in Hne as [_ Hne].
    pose proof Hne as Hne'. apply Forall_cons in Hne' as [Hk _].
    apply String.eqb_neq in Hk. rewrite Hk. cbn [negb]. unfold set_current.
    cbn [ref_map expected_mod_count can_erase fst].
    rewrite <- Eb in Hc2. cbn [rbind].
    match goal with
    | |- rbind ?t _ = _ =>
        assert (E1 : t = Ret ((value succ :: ls2) ++ concat rest.*2))
          by (apply (IH i b _ _ rest Hi Hc2 ltac:(discriminate) Hrest Hne);
              cbn in Hf |- *; lia)
    end.
    rewrite E1. reflexivity.
Qed.

Lemma shaped_entries_bound w m cs :
  shaped w m cs -> (length (concat cs.*2) <= length (nodes w))%nat.
Proof.
  intros Hs. pose proof Hs as (_ & _ & Hcs & Hnd).
  assert (H1 : (length (concat cs.*2) <= length (concat cs.*1))%nat).
  { clear Hnd Hs. induction Hcs as [|p c ps cs Hc _ IH]; [reflexivity|].
    cbn. rewrite !length_app. unfold bin_chain in Hc.
    apply chain_length in Hc. lia. }
  assert (Hsub : concat cs.*1 ⊆+ seq 0 (length (nodes w))).
  { apply NoDup_submseteq; [exact Hnd|].
    intros a Ha. apply elem_of_seq. split; [lia|].
    cbn. eapply shaped_allocated; eassumption. }
  apply submseteq_length in Hsub. rewrite length_seq in Hsub. lia.
Qed.

(** X17. A traversal with an iterator, from [begin()] to [end()] with
    [operator*] and the prefix [++], of a well-formed table none of whose
    entries carries the empty key and whose size is 0 only if it has no
    entry: it returns, and it visits exactly the entries [str] lists, in
    the same order. *)
Theorem traversal_visits_the_entries_of_str w this m l :
  well_formed w this = true -> tables w !! this = Some m ->
  str w this = Ret l ->
  Forall (fun e => first e <> EmptyString) l ->
  (used m = 0 -> l = []) ->
  traverse w this = Ret l.
Proof.
  intros Hwf Hm Hstr Hne Hused.
  destruct (well_formed_shaped _ _ Hwf) as (m' & cs & Hm' & Hs & Htr).
  rewrite Hm in Hm'. injection Hm' as <-.
  rewrite (shaped_str _ _ _ _ Hm Hs) in Hstr. injection Hstr as <-.
  pose proof (shaped_entries_bound _ _ _ Hs) as Hbound.
  destruct Hs as (Hb & Hlen & Hcs & Hnd).
  unfold traverse, begin, Iterator_new, empty, get_table. rewrite Hm.
  cbn [rbind negb orb]. unfold fuel.
  destruct (used m =? 0) eqn:Eu.
  - apply Z.eqb_eq in Eu. rewrite (Hused Eu). cbn [rbind].
    apply (traverse_from_done _ _ _ _ _ Hm).
  - rewrite <- (drop_0 (map m)) in Hcs.
    change 0 with (Z.of_nat 0).
    destruct (first_bin w m (Z.to_nat (bins m)) 0%nat cs Hcs ltac:(lia))
      as [(E0 & Hbegin & _)|(i' & a & addrs & ls & rest & Hbegin & _ & Hi'
                           & Hc & Hls & Hrest & E)].
    + rewrite Hbegin, E0. cbn [rbind].
      apply (traverse_from_done _ _ _ _ _ Hm).
    + rewrite Hbegin. cbn [rbind]. rewrite E in *.
      apply (traverse_from_spec w this m Hm Htr Hlen _ i' a addrs ls rest);
        try assumption. lia.
Qed.

(** ** Puts one after the other *)









(** ** The constructors that put *)




(** X20. The iterable constructor tests the template argument against
    [undefinedhash<T>] where the other constructors test it against
    [undefinedhash<KEY>].  When [T] is not [KEY] and the template argument is
    defaulted, it throws TemplateFunctionError whatever hash function the
    constructor is given; when [T] is [KEY] it does what the
    initializer-list constructor does. *)
Theorem iterable_constructor_ignores_constructor_hash
  (undefinedhash_T thash chash : hashfunc) (i : list Entry)
  the_load_threshold w :
  (hashfunc_eqb undefinedhash_T undefinedhash = false ->
   thash = undefinedhash ->
   HashMap_ctor_iterable T_default undefinedhash_T thash i the_load_threshold
     chash w = Throw TemplateFunctionError w) /\
  (undefinedhash_T = undefinedhash ->
   HashMap_ctor_iterable T_default undefinedhash_T thash i the_load_threshold
     chash w
   = HashMap_ctor_list T_default thash i the_load_threshold chash w).
Proof.
  split.
  - intros HT ->. unfold HashMap_ctor_iterable, bind at 1, read.
    unfold bind_hash_iterable.
    destruct undefinedhash_T as [[a f]|]; [reflexivity|discriminate].
  - intros ->. reflexivity.
Qed.


(** ** The destructor *)

Lemma delete_chain_unfold (f : nat) a :
  @delete_chain T (S f) (Some a) =
  (n <- read (fun w => load w (Some a)) ;;
   do delete_LN (Some a) ;;
   delete_chain f (next n)).
Proof. reflexivity. Qed.

Lemma delete_chain_run w0 p addrs l :
  chain w0 p addrs l ->
  forall (f : nat) w,
    (S (length l) < f)%nat ->
    (forall x, x ∈ addrs -> nodes w !! x = nodes w0 !! x) ->
    exists w1,
      delete_chain f p w = Ok tt w1 /\
      tables w1 = tables w /\
      length (nodes w1) = length (nodes w) /\
      (forall x, x ∉ addrs -> nodes w1 !! x = nodes w !! x) /\
      (forall x, x ∈ addrs -> nodes w1 !! x = Some None).
Proof.
  induction 1 as [a n Hn Hnext | a n addrs l Hn Hc IH]; intros f w Hf Hsame.
  - destruct f as [|[|f]]; [cbn in Hf; lia..|]. rewrite delete_chain_unfold.
    assert (Hl : load w (Some a) = Ret n).
    { apply load_Ret. rewrite Hsame; [exact Hn|].
      apply list_elem_of_singleton. reflexivity. }
    rewrite (bind_eq _ _ _ _ _ (read_eq (fun w => load w (Some a)) _ _ Hl)).
    rewrite (bind_eq _ _ _ _ _ (delete_LN_eq _ _ _ Hl)).
    rewrite Hnext. cbn [delete_chain]. unfold ret.
    eexists. split; [reflexivity|]. split; [reflexivity|].
    split; [cbn; apply length_insert|]. split.
    + intros x Hx. cbn. apply list_lookup_insert_ne. intros ->.
      apply Hx. apply list_elem_of_singleton. reflexivity.
    + intros x Hx. apply list_elem_of_singleton in Hx as ->. cbn.
      apply list_lookup_insert_eq. apply load_Ret in Hl.
      eapply lookup_lt_Some, Hl.
  - pose proof (chain_NoDup _ _ _ _ (chain_live _ _ _ _ _ Hn Hc)) as Hnd.
    apply NoDup_cons in Hnd as [Hna Hnd].
    destruct f as [|f]; [cbn in Hf; lia|]. rewrite delete_chain_unfold.
    assert (Hl : load w (Some a) = Ret n).
    { apply load_Ret. rewrite Hsame; [exact Hn|].
      apply elem_of_cons. left. reflexivity. }
    rewrite (bind_eq _ _ _ _ _ (read_eq (fun w => load w (Some a)) _ _ Hl)).
    rewrite (bind_eq _ _ _ _ _ (delete_LN_eq _ _ _ Hl)).
    set (w' := set_nodes w _).
    assert (Hsame' : forall x, x ∈ addrs -> nodes w' !! x = nodes w0 !! x).
    { intros x Hx. subst w'. cbn. rewrite list_lookup_insert_ne.
      - apply Hsame. apply elem_of_cons. right. exact Hx.
      - intros ->. exact (Hna Hx). }
    destruct (IH f w' ltac:(cbn in Hf; lia) Hsame')
      as (w1 & Hrun & Htab & Hlen & Hout & Hin).
    exists w1. split; [exact Hrun|]. split; [exact Htab|].
    split; [rewrite Hlen; subst w'; cbn; apply length_insert|].
    split.
    + intros x Hx. rewrite Hout.
      * subst w'. cbn. apply list_lookup_insert_ne. intros ->.
        apply Hx. apply elem_of_cons. left. reflexivity.
      * intros H. apply Hx. apply elem_of_cons. right. exact H.
    + intros x Hx. apply elem_of_cons in Hx as [->|Hx]; [|apply Hin, Hx].
      rewrite (Hout _ Hna). subst w'. cbn. apply list_lookup_insert_eq.
      apply load_Ret in Hl. eapply lookup_lt_Some, Hl.
Qed.

Lemma delete_bins_run w0 (k : nat) ht :
  forall (i : nat) cs w,
  Forall2 (bin_chain w0) (take k (drop i ht)) cs -> length cs = k ->
  NoDup (concat cs.*1) ->
  length (nodes w) = length (nodes w0) ->
  (forall x, x ∈ concat cs.*1 -> nodes w !! x = nodes w0 !! x) ->
  exists w1,
    delete_bins k ht (Z.of_nat i) w = Ok tt w1 /\
    tables w1 = tables w /\
    length (nodes w1) = length (nodes w) /\
    (forall x, x ∉ concat cs.*1 -> nodes w1 !! x = nodes w !! x) /\
    (forall x, x ∈ concat cs.*1 -> nodes w1 !! x = Some None).
Proof.
  induction k as [|k IH]; intros i cs w Hcs Hlen Hnd Hlenw Hsame.
  - destruct cs; [|discriminate]. exists w. split; [reflexivity|].
    split; [reflexivity|]. split; [reflexivity|]. split; [reflexivity|].
    intros x Hx. inversion Hx.
  - destruct cs as [|c cs]; [discriminate|].
    assert (Hlen' : length cs = k) by (cbn in Hlen; lia). clear Hlen.
    destruct (drop i ht) as [|p rest] eqn:Ed; [inversion Hcs|].
    assert (Ep : ht !! i = Some p).
    { pose proof (lookup_drop ht i 0) as E. rewrite Ed in E.
      rewrite Nat.add_0_r in E. symmetry. exact E. }
    rewrite (drop_S _ _ _ Ep) in Ed. injection Ed as <-.
    cbn [take] in Hcs. inversion Hcs as [|? ? ? ? Hc Hrest]; subst.
    unfold bin_chain in Hc.
    change (concat (c :: cs).*1) with (c.1 ++ concat cs.*1) in *.
    apply NoDup_app in Hnd as (Hnd1 & Hdisj & Hnd2).
    cbn [delete_bins].
    rewrite (bind_eq _ _ _ _ _
               (read_eq (fun _ => index ht (Z.of_nat i)) w p
                  (proj2 (index_Ret _ _ _) Ep))).
    rewrite (bind_eq _ _ _ _ _
               (read_eq (fun w => Ret (fuel_null w)) w _ eq_refl)).
    assert (Hf : (S (length c.2) < fuel_null w)%nat).
    { pose proof (chain_fuel _ _ _ _ Hc) as Hf.
      unfold fuel_null, fuel in *. rewrite Hlenw. lia. }
    destruct (delete_chain_run w0 p _ _ Hc _ w Hf)
      as (w2 & Hrun2 & Htab2 & Hlen2 & Hout2 & Hin2).
    { intros x Hx. apply Hsame. apply elem_of_app. left. exact Hx. }
    rewrite (bind_eq _ _ _ _ _ Hrun2).
    replace (Z.of_nat i + 1) with (Z.of_nat (S i)) by lia.
    destruct (IH (S i) cs w2 Hrest eq_refl Hnd2 ltac:(congruence))
      as (w1 & Hrun1 & Htab1 & Hlen1 & Hout1 & Hin1).
    { intros x Hx. rewrite Hout2.
      - apply Hsame. apply elem_of_app. right. exact Hx.
      - intros H. exact (Hdisj x H Hx). }
    exists w1. split; [exact Hrun1|]. split; [congruence|].
    split; [congruence|]. split.
    + intros x Hx. rewrite Hout1, Hout2; [reflexivity| |].
      * intros H. apply Hx. apply elem_of_app. left. exact H.
      * intros H. apply Hx. apply elem_of_app. right. exact H.
    + intros x Hx. apply elem_of_app in Hx as [Hx|Hx].
      * rewrite Hout1; [apply Hin2, Hx|]. intros H. exact (Hdisj x Hx H).
      * apply Hin1, Hx.
Qed.

(** X23. The destructor of a well-formed table returns: it deletes each
    node of the chains of the table once, the trailers too, and no other
    cell of the heap, so the nodes of an array that a resize or an
    assignment left behind stay allocated. *)
Theorem destructor_frees_the_chains w this cl :
  well_formed w this = true -> cells w this = Ret cl ->
  exists w1,
    destructor this w = Ok tt w1 /\
    tables w1 = tables w /\
    length (nodes w1) = length (nodes w) /\
    (forall a, a ∈ cl -> nodes w1 !! a = Some None) /\
    (forall a, a ∉ cl -> nodes w1 !! a = nodes w !! a).
Proof.
  intros Hwf Hcl.
  destruct (well_formed_shaped _ _ Hwf) as (m & cs & Hm & Hs & Htr).
  rewrite (proj1 (shaped_scans _ _ _ _ Hm Hs)) in Hcl. injection Hcl as <-.
  destruct Hs as (Hb & Hlen & Hcs & Hnd).
  unfold destructor, delete_hash_table.
  rewrite (bind_eq _ _ _ _ _ (this_table_eq _ _ _ Hm)).
  assert (Hcs0 : Forall2 (bin_chain w)
                   (take (Z.to_nat (bins m)) (drop 0 (map m))) cs).
  { rewrite drop_0, <- Hlen, firstn_all. exact Hcs. }
  assert (Hlcs : length cs = Z.to_nat (bins m)).
  { rewrite <- Hlen. symmetry. eapply Forall2_length, Hcs. }
  destruct (delete_bins_run w _ (map m) 0%nat cs w Hcs0 Hlcs Hnd eq_refl
              (fun _ _ => eq_refl))
    as (w1 & Hrun & Htab & Hlenn & Hout & Hin).
  exists w1. auto.
Qed.

(** ** The mutable indexed access *)




(** ** Tables whose keys are distinct *)

Lemma existsb_named (key : KEY) (l : list (@Entry T)) :
  key <> EmptyString ->
  existsb (key_is key) l = true <-> key ∈ omap named_key l.
Proof.
  intros Hkey. rewrite existsb_exists. rewrite list_elem_of_omap. split.
  - intros (e & Hin & He). exists e. split; [apply list_elem_of_In, Hin|].
    unfold key_is in He. apply String.eqb_eq in He. unfold named_key.
    rewrite He, (proj2 (String.eqb_neq _ _) Hkey). reflexivity.
  - intros (e & Hin & He). exists e. split; [apply list_elem_of_In, Hin|].
    unfold named_key in He.
    destruct (String.eqb (first e) EmptyString); [discriminate|].
    injection He as <-. unfold key_is. apply String.eqb_refl.
Qed.

Lemma keys_distinct_NoDup (l : list (@Entry T)) :
  keys_distinct l = true <-> NoDup (omap named_key l).
Proof.
  induction l as [|e l IH]; [split; [intros _; constructor|reflexivity]|].
  cbn [keys_distinct omap list_omap]. rewrite andb_true_iff, IH. clear IH.
  destruct (named_key e) as [k|] eqn:En; unfold named_key in En;
    destruct (String.eqb (first e) EmptyString) eqn:Ee; try discriminate;
    cbn [orb].
  - injection En as <-. apply String.eqb_neq in Ee.
    rewrite NoDup_cons, negb_true_iff.
    rewrite <- (existsb_named _ l Ee).
    destruct (existsb (key_is (first e)) l); split;
      intros [H1 H2]; split; congruence.
  - tauto.
Qed.


Lemma find_remove_key (key : KEY) (l : list (@Entry T)) e :
  find (key_is key) l = Some e -> l ≡ₚ e :: remove_key key l.
Proof.
  induction l as [|x l IH]; [discriminate|]. cbn.
  destruct (key_is key x).
  - intros H. injection H as ->. reflexivity.
  - intros H. rewrite (IH H) at 1. apply perm_swap.
Qed.



Lemma keys_distinct_erase (key : KEY) (l : list (@Entry T)) e :
  key <> EmptyString ->
  find (key_is key) l = Some e -> keys_distinct l = true ->
  keys_distinct (remove_key key l) = true /\
  existsb (key_is key) (remove_key key l) = false.
Proof.
  intros Hkey Hf Hd. pose proof (find_remove_key _ _ _ Hf) as Hp.
  apply keys_distinct_NoDup in Hd. rewrite Hp in Hd.
  apply find_some in Hf as [_ He]. unfold key_is in He.
  apply String.eqb_eq in He.
  cbn [omap list_omap] in Hd. unfold named_key at 1 in Hd.
  rewrite He, (proj2 (String.eqb_neq _ _) Hkey) in Hd.
  apply NoDup_cons in Hd as [Hn Hd]. split; [apply keys_distinct_NoDup, Hd|].
  destruct (existsb (key_is key) (remove_key key l)) eqn:Ex; [|reflexivity].
  apply (existsb_named _ _ Hkey) in Ex. contradiction.
Qed.



Lemma existsb_false_find {A : Type} (P : A -> bool) (l : list A) :
  existsb P l = false -> find P l = None.
Proof.
  induction l as [|x l IH]; [reflexivity|]. cbn.
  destruct (P x); [discriminate|exact IH].
Qed.


(** X26. On a well-formed table whose keys are distinct, an erase of a
    key other than the empty string that [str] lists forgets the key:
    afterwards [has_key] of it is false and the const [operator[]] of it
    throws KeyError; the table is still well formed and its keys are still
    distinct. *)
Theorem erase_forgets_key w this key m l :
  well_formed w this = true -> tables w !! this = Some m ->
  str w this = Ret l -> keys_distinct l = true ->
  key <> EmptyString -> existsb (key_is key) l = true ->
  exists v w1 l1,
    erase this key w = Ok v w1 /\
    well_formed w1 this = true /\
    str w1 this = Ret l1 /\ keys_distinct l1 = true /\
    has_key w1 this key = Ret false /\
    operator_index_const w1 this key = Raise KeyError.
Proof.
  intros Hwf Hm Hstr Hd Hkey Hin.
  destruct (erase_of_listed_key w this key m l Hwf Hm Hstr Hkey Hin)
    as (e & w1 & m1 & Hfe & Her & Hwf1 & _ & _ & _ & _ & Hstr1).
  destruct (keys_distinct_erase key l e Hkey Hfe Hd) as [Hd1 Hno1].
  destruct (well_formed_shaped _ _ Hwf1) as (_ & _ & _ & _ & Htr1).
  exists (second e), w1, (remove_key key l). split; [exact Her|].
  split; [exact Hwf1|]. split; [exact Hstr1|]. split; [exact Hd1|].
  split; [rewrite (has_key_str _ _ key _ Hstr1), Hno1; reflexivity|].
  rewrite (operator_index_const_str _ _ _ _ Htr1 Hkey Hstr1).
  rewrite (existsb_false_find _ _ Hno1). reflexivity.
Qed.

Lemma find_unique (k : KEY) (l : list (@Entry T)) e :
  keys_distinct l = true -> e ∈ l -> first e = k -> k <> EmptyString ->
  find (key_is k) l = Some e.
Proof.
  intros Hd Hin He Hk. induction l as [|x l IH]; [inversion Hin|].
  cbn [keys_distinct] in Hd. apply andb_true_iff in Hd as [Hx Hd].
  cbn [find]. unfold key_is at 1.
  destruct (String.eqb (first x) k) eqn:Ex.
  - apply String.eqb_eq in Ex.
    apply elem_of_cons in Hin as [->|Hin]; [reflexivity|].
    rewrite Ex, (proj2 (String.eqb_neq _ _) Hk) in Hx. cbn [orb] in Hx.
    apply negb_true_iff in Hx.
    assert (existsb (key_is k) l = true); [|congruence].
    apply existsb_exists. exists e. split; [apply list_elem_of_In, Hin|].
    unfold key_is. rewrite He. apply String.eqb_refl.
  - apply elem_of_cons in Hin as [->|Hin].
    + rewrite He, String.eqb_refl in Ex. discriminate.
    + apply IH; assumption.
Qed.









Lemma find_remove_other (key k : KEY) (l : list (@Entry T)) :
  k <> key ->
  find (key_is k) (remove_key key l) = find (key_is k) l /\
  existsb (key_is k) (remove_key key l) = existsb (key_is k) l.
Proof.
  intros Hne. induction l as [|e l [IH1 IH2]]; [split; reflexivity|].
  cbn [remove_key find existsb].
  destruct (key_is key e) eqn:Ee.
  - unfold key_is in Ee. apply String.eqb_eq in Ee.
    assert (Ek : key_is k e = false).
    { unfold key_is. rewrite Ee. apply String.eqb_neq. congruence. }
    rewrite Ek. split; reflexivity.
  - cbn [find existsb]. rewrite IH1, IH2. split; reflexivity.
Qed.

(** X28. An erase of a key other than the empty string that [str] lists,
    on a well-formed table, does not disturb the other keys: for every
    other key [has_key] answers as before, and for every other key but the
    empty one the const [operator[]] gives what it gave before, value or
    KeyError. *)
Theorem erase_keeps_the_others w this key m l :
  well_formed w this = true -> tables w !! this = Some m ->
  str w this = Ret l -> key <> EmptyString ->
  existsb (key_is key) l = true ->
  exists v w1,
    erase this key w = Ok v w1 /\
    forall k, k <> key ->
      has_key w1 this k = has_key w this k /\
      (k <> EmptyString ->
       operator_index_const w1 this k = operator_index_const w this k).
Proof.
  intros Hwf Hm Hstr Hkey Hin.
  destruct (erase_of_listed_key w this key m l Hwf Hm Hstr Hkey Hin)
    as (e & w1 & m1 & _ & Her & Hwf1 & _ & _ & _ & _ & Hstr1).
  destruct (well_formed_shaped _ _ Hwf) as (_ & _ & _ & _ & Htr).
  destruct (well_formed_shaped _ _ Hwf1) as (_ & _ & _ & _ & Htr1).
  exists (second e), w1. split; [exact Her|]. intros k Hne.
  destruct (find_remove_other key k l Hne) as [E1 E2]. split.
  - rewrite (has_key_str _ _ k _ Hstr1), (has_key_str _ _ k _ Hstr), E2.
    reflexivity.
  - intros Hk0.
    rewrite (operator_index_const_str _ _ _ _ Htr1 Hk0 Hstr1).
    rewrite (operator_index_const_str _ _ _ _ Htr Hk0 Hstr), E1.
    reflexivity.
Qed.


(** ** An erase through an iterator *)

Lemma chain_suffix_entries w p addrs l pre a post :
  chain w p addrs l -> addrs = pre ++ a :: post ->
  exists lpre l', l = lpre ++ l' /\ chain w (Some a) (a :: post) l'.
Proof.
  intros H. revert pre.
  induction H as [b n Hn Hnext | b n addrs l Hn Hc IH]; intros pre E.
  - destruct pre as [|x [|y pre]]; cbn in E; try discriminate.
    injection E as -> <-. exists [], []. split; [reflexivity|].
    eapply chain_trailer; eassumption.
  - destruct pre as [|x pre]; cbn in E.
    + injection E as -> ->. exists [], (value n :: l). split; [reflexivity|].
      eapply chain_live; eassumption.
    + injection E as -> ->. destruct (IH pre eq_refl) as (lpre & l' & -> & Hc').
      exists (value n :: lpre), l'. split; [reflexivity|exact Hc'].
Qed.

(** A live node of a chain of the table: its successor is allocated and
    its entry is one of the entries of the table. *)
Lemma cell_in_shape w m cs a n b :
  shaped w m cs -> a ∈ concat cs.*1 ->
  nodes w !! a = Some (Some n) -> next n = Some b ->
  value n ∈ concat cs.*2 /\ exists succ, nodes w !! b = Some (Some succ).
Proof.
  intros (_ & _ & Hcs & _) Hin Hn Hnext.
  apply list_elem_of_In, in_concat in Hin as (addrs & Hin & Ha).
  apply list_elem_of_In in Hin, Ha.
  apply list_elem_of_fmap in Hin as (c & -> & Hc).
  pose proof Hc as Hc0.
  apply list_elem_of_lookup in Hc as (i & Hi).
  destruct (Forall2_lookup_r _ _ _ _ _ Hcs Hi) as (p & _ & Hch).
  unfold bin_chain in Hch.
  apply list_elem_of_split in Ha as (pre & post & E).
  destruct (chain_suffix_entries _ _ _ _ _ _ _ Hch E) as (lpre & l' & El & Hc').
  inversion Hc' as [a' n' Hn' Hnx | a' n' addrs' l'' Hn' Hc'' Ea Eaddrs El'];
    subst; rewrite Hn in Hn'; injection Hn' as <-; [congruence|].
  split.
  - apply list_elem_of_In, in_concat. exists c.2. split.
    + apply list_elem_of_In, list_elem_of_fmap. exists c. split;
        [reflexivity|exact Hc0].
    + apply list_elem_of_In. rewrite El. apply elem_of_app. right.
      apply elem_of_cons. left. reflexivity.
  - rewrite Hnext in Hc''.
    inversion Hc'' as [b' s Hs _ | b' s ? ? Hs _]; subst; eexists; exact Hs.
Qed.

Lemma advance_chain_total w p addrs l (f : nat) :
  chain w p addrs l -> (length l < f)%nat ->
  exists r, advance_chain f w p = Ret r.
Proof.
  intros H. revert f.
  induction H as [a n Hn Hnext | a n addrs l Hn Hc IH]; intros f Hf.
  - destruct f as [|f]; [lia|]. cbn [advance_chain].
    rewrite (proj2 (load_Ret _ _ _) Hn). cbn [rbind]. rewrite Hnext.
    eexists. reflexivity.
  - destruct f as [|f]; [cbn in Hf; lia|]. cbn [advance_chain].
    rewrite (proj2 (load_Ret _ _ _) Hn). cbn [rbind].
    destruct (next n) as [b|] eqn:Enext; [|inversion Hc].
    destruct (negb _); [eexists; reflexivity|].
    apply IH. cbn in Hf. lia.
Qed.

Lemma advance_bins_total w m cs (k : nat) :
  Forall2 (bin_chain w) (map m) cs ->
  forall i, 0 <= i ->
  (k = 0 \/ Z.to_nat i + k <= length (map m))%nat ->
  exists c, advance_bins k w m i = Ret c.
Proof.
  intros Hcs. induction k as [|k IH]; intros i Hi Hk;
    [eexists; reflexivity|].
  destruct Hk as [Hk|Hk]; [discriminate|].
  destruct (lookup_lt_is_Some_2 (map m) (Z.to_nat i)) as [p Hp]; [lia|].
  destruct (Forall2_lookup_l _ _ _ _ _ Hcs Hp) as (c & _ & Hc).
  unfold bin_chain in Hc. cbn [advance_bins].
  assert (Ei : index (map m) i = Ret p).
  { rewrite <- (Z2Nat.id i Hi). apply index_Ret, Hp. }
  rewrite Ei. cbn [rbind].
  destruct (advance_chain_total w p _ _ (fuel w) Hc (chain_fuel _ _ _ _ Hc))
    as ([b|] & ->); cbn [rbind]; [eexists; reflexivity|].
  apply IH; [lia|]. right. rewrite Z2Nat.inj_add by lia.
  change (Z.to_nat 1) with 1%nat. lia.
Qed.

(** X29. An erase through an iterator, on a well-formed table: the
    iterator is in sync and armed, and its cursor is at a node of the
    chains of the table that is not a trailer and does not carry the empty
    key.  The erase returns the entry of that node; afterwards [str] lists
    the entries it listed before but the first one with the key of that
    entry (which is that entry when the keys are distinct), the table is
    well formed, used is one lower and mod_count one higher, and the
    iterator returned is in sync with the table and disarmed. *)
Theorem iterator_erase_removes_entry_under_cursor w it m l cl a n :
  well_formed w (ref_map it) = true ->
  tables w !! ref_map it = Some m ->
  str w (ref_map it) = Ret l -> cells w (ref_map it) = Ret cl ->
  expected_mod_count it = mod_count m -> can_erase it = true ->
  snd (current it) = Some a -> -1 <= fst (current it) ->
  existsb (Nat.eqb a) cl = true ->
  load w (Some a) = Ret n -> next n <> None ->
  first (value n) <> EmptyString ->
  exists it1 w1 m1,
    Iterator_erase it w = Ok (value n, it1) w1 /\
    well_formed w1 (ref_map it) = true /\
    tables w1 !! ref_map it = Some m1 /\
    used m1 = used m - 1 /\ mod_count m1 = mod_count m + 1 /\
    str w1 (ref_map it) = Ret (remove_key (first (value n)) l) /\
    ref_map it1 = ref_map it /\ expected_mod_count it1 = mod_count m1 /\
    can_erase it1 = false /\
    (keys_distinct l = true ->
     find (key_is (first (value n))) l = Some (value n)).
Proof.
  intros Hwf Hm Hstr Hcl He Hce Hcur Hfst Hina Hn Hlive Hkey.
  destruct (well_formed_shaped _ _ Hwf) as (m' & cs & Hm' & Hs & Htr).
  rewrite Hm in Hm'. injection Hm' as <-.
  destruct (shaped_scans _ _ _ _ Hm Hs) as [Hcl' Hstr'].
  rewrite Hcl' in Hcl. injection Hcl as <-.
  assert (Hina' : a ∈ concat cs.*1).
  { apply existsb_exists in Hina as (x & Hx & Exa).
    apply Nat.eqb_eq in Exa. subst x. apply list_elem_of_In, Hx. }
  destruct (next n) as [b|] eqn:Enext; [|congruence].
  pose proof (proj1 (load_Ret _ _ _) Hn) as Hn'.
  destruct (cell_in_shape _ _ _ _ _ _ Hs Hina' Hn' Enext)
    as (Hine & succ & Hsucc).
  assert (Hinl : value n ∈ l).
  { rewrite Hstr' in Hstr. injection Hstr as <-. exact Hine. }
  assert (Hex : existsb (key_is (first (value n))) l = true).
  { apply existsb_exists. exists (value n).
    split; [apply list_elem_of_In, Hinl|]. unfold key_is. apply String.eqb_refl. }
  destruct (erase_of_listed_key w (ref_map it) _ m l Hwf Hm Hstr Hkey Hex)
    as (e' & w1 & m1 & Hfe & Her & Hwf1 & Hm1 & Hu & Hmc & _ & Hstr1).
  assert (Hcheck : check_mod_count w it = Ret tt)
    by (eapply check_mod_count_match; eassumption).
  assert (Hadv : next succ = None ->
                 exists c, advance_cursors w (set_can_erase it false)
                           = Ret (set_current (set_can_erase it false) c)).
  { intros Hsn. unfold advance_cursors, set_can_erase.
    cbn [current ref_map]. rewrite Hcur, Hn. cbn [rbind]. rewrite Enext.
    rewrite (proj2 (load_Ret _ _ _) Hsucc). cbn [rbind].
    rewrite (trailers_empty_spec _ _ _ Htr Hsucc Hsn). cbn [String.eqb negb].
    unfold get_table. rewrite Hm. cbn [rbind].
    destruct Hs as (Hb & Hlen & Hcs & _).
    destruct (advance_bins_total w m cs
                (Z.to_nat (bins m - (fst (current it) + 1))) Hcs
                (fst (current it) + 1) ltac:(lia) ltac:(lia)) as (c & ->).
    exists c. reflexivity. }
  assert (Hrun : exists it2,
    ref_map it2 = ref_map it /\ can_erase it2 = false /\
    Iterator_erase it w
      = Ok (value n, set_expected_mod_count it2 (mod_count m1)) w1).
  { unfold Iterator_erase.
    rewrite (bind_eq _ _ _ _ _ (read_eq (fun w => check_mod_count w it) w tt Hcheck)).
    rewrite Hce. cbn [negb]. rewrite Hcur. cbv zeta.
    assert (Hc1 : snd (current (set_can_erase it false)) = Some a) by exact Hcur.
    rewrite Hc1.
    rewrite (bind_eq _ _ _ _ _ (read_eq (fun w => load w (Some a)) w n Hn)).
    rewrite Enext.
    rewrite (bind_eq _ _ _ _ _
               (read_eq (fun w => load w (Some b)) w succ
                  (proj2 (load_Ret _ _ _) Hsucc))).
    destruct (next succ) as [c0|] eqn:Esn.
    - exists (set_can_erase it false). split; [reflexivity|].
      split; [reflexivity|].
      unfold bind at 1, ret at 1.
      rewrite (bind_eq _ _ _ _ _ (read_eq (fun w => load w (Some a)) w n Hn)).
      change (ref_map (set_can_erase it false)) with (ref_map it).
      rewrite (bind_eq _ _ _ _ _ Her).
      rewrite (bind_eq _ _ _ _ _ (this_table_eq _ _ _ Hm1)). reflexivity.
    - destruct (Hadv eq_refl) as (c & Hc).
      exists (set_current (set_can_erase it false) c). split; [reflexivity|].
      split; [reflexivity|].
      rewrite (bind_eq _ _ _ _ _
                 (read_eq (fun w => advance_cursors w (set_can_erase it false))
                    w _ Hc)).
      rewrite (bind_eq _ _ _ _ _ (read_eq (fun w => load w (Some a)) w n Hn)).
      change (ref_map (set_current (set_can_erase it false) c))
        with (ref_map it).
      rewrite (bind_eq _ _ _ _ _ Her).
      rewrite (bind_eq _ _ _ _ _ (this_table_eq _ _ _ Hm1)). reflexivity. }
  destruct Hrun as (it2 & Hr2 & Hc2 & Hrun).
  exists (set_expected_mod_count it2 (mod_count m1)), w1, m1.
  split; [exact Hrun|]. split; [exact Hwf1|]. split; [exact Hm1|].
  split; [exact Hu|]. split; [exact Hmc|]. split; [exact Hstr1|].
  split; [exact Hr2|]. split; [reflexivity|]. split; [exact Hc2|].
  intros Hd. apply find_unique; auto.
Qed.


(** ** A client of one table *)


(** ** Copy assignment *)














End Theory.

(** * Properties of the comparisons of values *)

Section ValueTheory.

Context {T : Type}.
Variable T_eqb : T -> T -> bool.

Implicit Types (w : @World T) (m : HashMap) (p : LNptr).

Lemma has_value_chain_str (f : nat) w (v : T) j l :
  str_chain f w j = Ret l ->
  has_value_chain T_eqb f w v j
    = Ret (existsb (fun e => T_eqb (second e) v) l).
Proof.
  revert j l. induction f as [|f IH]; intros j l H; [discriminate|].
  cbn [str_chain has_value_chain] in *.
  destruct (load w j) as [n| | |]; try discriminate. cbn [rbind] in *.
  destruct (next n) as [b|]; [|injection H as <-; reflexivity].
  destruct (str_chain f w (Some b)) as [rest| | |] eqn:Er; try discriminate.
  cbn [rbind] in H. injection H as <-. cbn [existsb].
  destruct (T_eqb (second (value n)) v); [reflexivity|].
  cbn [orb]. exact (IH _ _ Er).
Qed.

Lemma has_value_bins_str (k : nat) w m (v : T) i l :
  str_bins k w m i = Ret l ->
  has_value_bins T_eqb k w m v i
    = Ret (existsb (fun e => T_eqb (second e) v) l).
Proof.
  revert i l. induction k as [|k IH]; intros i l H.
  - injection H as <-. reflexivity.
  - cbn [str_bins has_value_bins] in *.
    destruct (index (map m) i) as [p| | |]; try discriminate.
    cbn [rbind] in *.
    destruct (str_chain (fuel w) w p) as [here| | |] eqn:Eh; try discriminate.
    cbn [rbind] in H.
    destruct (str_bins k w m (i + 1)) as [rest| | |] eqn:Er; try discriminate.
    cbn [rbind] in H. injection H as <-.
    rewrite (has_value_chain_str _ _ v _ _ Eh). cbn [rbind].
    rewrite existsb_app.
    destruct (existsb _ here); [reflexivity|].
    cbn [orb]. exact (IH _ _ Er).
Qed.

(** X21. [has_value] answers what the scan of [str] shows: whenever
    [str] goes through the table, [has_value] returns, and it returns true
    exactly when [==] holds between the value asked for and the value of
    one of the entries [str] lists. *)
Theorem has_value_agrees_with_str w this (v : T) l :
  str w this = Ret l ->
  has_value T_eqb w this v = Ret (existsb (fun e => T_eqb (second e) v) l).
Proof.
  unfold str, has_value. destruct (get_table w this) as [m| | |]; try discriminate.
  cbn [rbind]. apply has_value_bins_str.
Qed.

(** ** Equality of tables *)

Lemma equal_entries_app (l1 l2 lr : list (@Entry T)) :
  equal_entries T_eqb (l1 ++ l2) lr =
  match equal_entries T_eqb l1 lr with
  | Ret true => equal_entries T_eqb l2 lr
  | r => r
  end.
Proof.
  induction l1 as [|e l1 IH]; [reflexivity|]. cbn.
  destruct (find (key_is (first e)) lr) as [e'|]; [|reflexivity].
  destruct (T_eqb (second e) (second e')); [exact IH|reflexivity].
Qed.

Lemma equal_chain_str (f : nat) w rhs p l lr :
  trailers_empty w = true -> str w rhs = Ret lr ->
  str_chain f w p = Ret l ->
  Forall (fun e => first e <> EmptyString) l ->
  equal_chain T_eqb f w rhs p =
  match equal_entries T_eqb l lr with
  | Ret true => Ret None
  | Ret false => Ret (Some false)
  | Raise e => Raise e
  | UndefinedR => UndefinedR
  | OutOfFuelR => OutOfFuelR
  end.
Proof.
  intros Htr Hrhs. revert p l. induction f as [|f IH]; intros p l H Hne;
    [discriminate|].
  cbn [str_chain equal_chain] in *.
  destruct (load w p) as [n| | |]; try discriminate. cbn [rbind] in *.
  destruct (next n) as [b|]; [|injection H as <-; reflexivity].
  destruct (str_chain f w (Some b)) as [rest| | |] eqn:Er; try discriminate.
  cbn [rbind] in H. injection H as <-.
  apply Forall_cons in Hne as [Hk Hne].
  rewrite (proj2 (String.eqb_neq _ _) Hk).
  rewrite (operator_index_const_str _ _ _ _ Htr Hk Hrhs).
  cbn [equal_entries].
  destruct (find (key_is (first (value n))) lr) as [e'|]; [|reflexivity].
  cbn [rbind]. destruct (T_eqb (second (value n)) (second e')); cbn [negb].
  - exact (IH _ _ Er Hne).
  - reflexivity.
Qed.

Lemma equal_bins_str (k : nat) w m rhs i l lr :
  trailers_empty w = true -> str w rhs = Ret lr ->
  str_bins k w m i = Ret l ->
  Forall (fun e => first e <> EmptyString) l ->
  equal_bins T_eqb k w m rhs i = equal_entries T_eqb l lr.
Proof.
  intros Htr Hrhs. revert i l. induction k as [|k IH]; intros i l H Hne.
  - injection H as <-. reflexivity.
  - cbn [str_bins equal_bins] in *.
    destruct (index (map m) i) as [p| | |]; try discriminate.
    cbn [rbind] in *.
    destruct (str_chain (fuel w) w p) as [here| | |] eqn:Eh; try discriminate.
    cbn [rbind] in H.
    destruct (str_bins k w m (i + 1)) as [rest| | |] eqn:Er; try discriminate.
    cbn [rbind] in H. injection H as <-.
    apply Forall_app in Hne as [Hne1 Hne2].
    rewrite (equal_chain_str _ _ _ _ _ _ Htr Hrhs Eh Hne1).
    rewrite equal_entries_app.
    destruct (equal_entries T_eqb here lr) as [[|]| | |]; try reflexivity.
    cbn [rbind]. exact (IH _ _ Er Hne2).
Qed.

(** X22. [operator ==] on two tables in a heap whose trailers carry the
    empty key, when no entry of the left one carries the empty key: a table
    equals itself; tables of different sizes are unequal; otherwise the
    values of the left table are compared, in the order of [str], each with
    the value the right table holds for its key, and a key the right table
    lacks ends the comparison with KeyError instead of false.
    [operator !=] is the negation, with the same exception. *)
Theorem operator_eq_compares_entries w this rhs m r l lr :
  tables w !! this = Some m -> tables w !! rhs = Some r ->
  str w this = Ret l -> str w rhs = Ret lr ->
  trailers_empty w = true ->
  Forall (fun e => first e <> EmptyString) l ->
  operator_eq T_eqb w this this = Ret true /\
  (this <> rhs ->
   operator_eq T_eqb w this rhs =
     (if used m =? used r then equal_entries T_eqb l lr else Ret false) /\
   operator_ne T_eqb w this rhs =
     (if used m =? used r
      then b <~ equal_entries T_eqb l lr ;; Ret (negb b)
      else Ret true)).
Proof.
  intros Hm Hr Hl Hlr Htr Hne.
  split; [unfold operator_eq; rewrite Nat.eqb_refl; reflexivity|].
  intros Hd.
  assert (E : operator_eq T_eqb w this rhs =
              (if used m =? used r then equal_entries T_eqb l lr else Ret false)).
  { unfold operator_eq. rewrite (proj2 (Nat.eqb_neq _ _) Hd).
    unfold get_table. rewrite Hm, Hr. cbn [rbind].
    destruct (used m =? used r); [|reflexivity]. cbn [negb].
    unfold str, get_table in Hl. rewrite Hm in Hl. cbn [rbind] in Hl.
    apply (equal_bins_str _ _ _ _ _ _ _ Htr Hlr Hl Hne). }
  split; [exact E|]. unfold operator_ne. rewrite E.
  destruct (used m =? used r); reflexivity.
Qed.

End ValueTheory.

(** * The code at concrete tables *)

Section Evaluation.

Local Open Scope string_scope.

(** C1 (the code departs from it). A table of two bins whose hash sends the
    empty string to bin 1: after [put(empty,5)] the key is present, yet
    [put(empty,6)] returns 0, the value of the trailer of bin 0 that
    [find_key] meets first, not the previous value 5, and the entry keeps
    its value 5. *)
Theorem put_of_present_empty_key_misses_entry :
  match client_empty_key_twice with
  | Ok (t, r1, r2) w =>
      r1 = 5 /\ r2 = 0 /\
      has_key w t EmptyString = Ret true /\
      str w t = Ret [mkEntry EmptyString 5] /\
      size w t = Ret 1
  | _ => False
  end.
Proof. vm_compute. repeat split; reflexivity. Qed.

(** C2 (the code departs from it). On a default constructed table the
    empty string is absent, yet [erase] of it does not throw KeyError:
    [find_key] returns the trailer and the copy of its null successor is
    undefined behaviour. *)
Theorem erase_of_absent_empty_key_is_undefined :
  match client_empty with
  | Ok t w =>
      has_key w t EmptyString = Ret false /\
      erase t EmptyString w = Undefined
  | _ => False
  end.
Proof. vm_compute. split; reflexivity. Qed.

(** C3 (the code departs from it). The second put on a default constructed
    table doubles the bins, and the table then holds three entries for a
    size of 2: the trailer of the old bin was rehoused as an entry with the
    empty key, which was never put. *)
Theorem resize_rehouses_trailer_as_entry :
  match client_a, client_a_c with
  | Ok t0 w0, Ok t w =>
      str w0 t0 = Ret [mkEntry "a" 1] /\
      str w t = Ret [mkEntry "c" 2; mkEntry EmptyString 0; mkEntry "a" 1] /\
      size w t = Ret 2 /\
      has_key w t EmptyString = Ret true
  | _, _ => False
  end.
Proof. vm_compute. repeat split; reflexivity. Qed.

(** C4 (the code departs from it). After [put("b",1); put("d",2)] the size
    is 2 and both entries are in the table, but the traversal from begin()
    to end() yields one entry: the advance stops the chain of bin 0 at the
    rehoused trailer. *)
Theorem traversal_yields_one_of_two_entries :
  match client_b_d with
  | Ok t w =>
      size w t = Ret 2 /\
      str w t = Ret [mkEntry "d" 2; mkEntry EmptyString 0; mkEntry "b" 1] /\
      traverse w t = Ret [mkEntry "d" 2]
  | _ => False
  end.
Proof. vm_compute. repeat split; reflexivity. Qed.

(** C6 (the code departs from it). Two tables of one entry each, with
    different keys: the comparison does not return false, the indexed read
    of the right-hand side throws KeyError. *)
Theorem equality_of_same_size_tables_throws :
  match client_two_tables with
  | Ok (a, b) w =>
      str w a = Ret [mkEntry "a" 1] /\
      str w b = Ret [mkEntry "b" 1] /\
      operator_eq Z.eqb w a b = Raise KeyError
  | _ => False
  end.
Proof. vm_compute. repeat split; reflexivity. Qed.

(** C7 (the code departs from it). After the put of "c" that doubled the
    bins to 2, [hash_compress] of "c" is 1, but the node of "c" is the
    head of bin 0, the index computed before the doubling. *)
Theorem new_node_sits_in_bin_of_old_count :
  match client_a_c with
  | Ok t w =>
      exists m p n,
        get_table w t = Ret m /\ bins m = 2 /\
        hash_compress m "c" = Ret 1 /\
        index (map m) 0 = Ret p /\ load w p = Ret n /\
        value n = mkEntry "c" 2
  | _ => False
  end.
Proof. vm_compute. eexists _, _, _. repeat split; reflexivity. Qed.

(** C8 (the code departs from it). On a default constructed table, which
    has no entry, the const indexed read of the empty string does not throw
    KeyError: it returns the value of the trailer. *)
Theorem index_of_absent_empty_key_returns :
  match client_empty with
  | Ok t w =>
      str w t = Ret [] /\
      has_key w t EmptyString = Ret false /\
      operator_index_const w t EmptyString = Ret 0
  | _ => False
  end.
Proof. vm_compute. repeat split; reflexivity. Qed.

(** C9 (the code departs from it). Four bins, threshold 0.5: the third put
    brings used to 3, and 3/4 exceeds 0.5, yet the bins are not doubled:
    the quotient the code compares is the integer quotient, 0. *)
Theorem three_of_four_bins_used_without_resize :
  match client_half_full with
  | Ok t w =>
      exists m,
        get_table w t = Ret m /\ bins m = 4 /\ used m = 3 /\
        load_threshold m = (1 # 2)%Q /\
        (inject_Z (used m) / inject_Z (bins m) > load_threshold m)%Q
  | _ => False
  end.
Proof. vm_compute. eexists. repeat split; reflexivity. Qed.

(** Witness of [iterator_fence_after_structural_change]: the iterator at
    begin() of the table holding "a", a put of the new key "c", an erase of
    "a", a clear, and a put that overwrites "a". *)
Lemma iterator_fence_witness :
  in_sync world_a begin_a /\
  fenced_for_good 0 (state_of (put_int 0 "c" 2 world_a)) begin_a /\
  fenced_for_good 0 (state_of (erase 0 "a" world_a)) begin_a /\
  fenced_for_good 0 (state_of (clear 0 world_a)) begin_a /\
  exists old w1,
    put 0 0 "a" 7 world_a = Ok old w1 /\
    tables w1 = tables world_a /\ in_sync w1 begin_a /\
    check_mod_count w1 begin_a = Ret tt /\ as_usable_as world_a w1 begin_a.
Proof.
  assert (Hsync : in_sync world_a begin_a).
  { eexists. split; vm_compute; reflexivity. }
  destruct (iterator_fence_after_structural_change 0 world_a begin_a Hsync)
    as (Hput & Herase & Hclear & Hover).
  split; [exact Hsync|]. split; [|split; [|split]].
  - apply (Hput "c" 2 2); vm_compute; reflexivity.
  - apply (Herase "a" 1); vm_compute; reflexivity.
  - apply Hclear; vm_compute; reflexivity.
  - apply (Hover "a" 7). vm_compute. reflexivity.
Defined.


End Evaluation.

(** * Instances of the further properties *)

Section MoreEvaluation.

Local Open Scope string_scope.


Lemma put_present_overwrites_witness :
  exists old w1,
    put 0 0 "a" 7 world_a = Ok old w1 /\
    tables w1 = tables world_a /\
    operator_index_const w1 0 "a" = Ret 7.
Proof.
  destruct (put_present_overwrites_in_place 0 world_a 0 "a" 7)
    as (a & n & w1 & _ & _ & _ & Hput & Ht & _ & _ & _ & Hget);
    [vm_compute; reflexivity|].
  exists (second (value n)), w1. repeat split; assumption.
Defined.

Lemma absent_nonempty_key_witness :
  erase 0 "z" world_a = Throw KeyError world_a /\
  operator_index_const world_a 0 "z" = Raise KeyError.
Proof.
  apply (absent_nonempty_key_throws_KeyError world_a 0 "z");
    [vm_compute; reflexivity | discriminate | vm_compute; reflexivity].
Defined.

Lemma erase_of_absent_key_witness :
  erase 0 EmptyString world_empty = Throw KeyError world_empty \/
  erase 0 EmptyString world_empty = Undefined.
Proof.
  apply (erase_of_absent_key_removes_nothing world_empty 0 EmptyString).
  vm_compute. reflexivity.
Defined.

Lemma hash_compress_in_range_witness :
  exists h,
    hash_compress (mkHashMap (fun _ => -7) [] 1 3 0 0) "a" = Ret h /\
    0 <= h < 3 /\ h = 1.
Proof.
  apply (proj1 (hash_compress_in_range (mkHashMap (fun _ => -7) [] 1 3 0 0) "a")).
  - reflexivity.
  - vm_compute. split; [reflexivity|discriminate].
Defined.

Lemma erase_at_cursor_witness :
  let r := result_of (mkEntry EmptyString 0, begin_half_full) erased_half_full in
  let w1 := state_of erased_half_full in
  fst r = mkEntry "a" 1 /\
  operator_deref world_half_full begin_half_full = Ret (fst r) /\
  Iterator_erase (snd r) w1 = Throw CannotEraseError w1 /\
  operator_deref w1 (snd r) = Raise IteratorPositionIllegal /\
  current (snd r) = (2, Some 5%nat) /\
  operator_pre_inc w1 (snd r) = Ret (set_can_erase (snd r) true).
Proof.
  intros r w1.
  destruct (erase_at_cursor_disarms_iterator begin_half_full world_half_full
              (fst r) (snd r) w1)
    as (H1 & _ & _ & _ & _ & H2 & H3 & H4 & _); [vm_compute; reflexivity|].
  split; [vm_compute; reflexivity|]. split; [exact H1|].
  split; [exact H2|]. split; [exact H3|].
  split; [vm_compute; reflexivity|]. exact H4.
Defined.

Lemma end_is_exhausted_witness :
  exists it,
    end_ world_empty 0 = Ret it /\
    operator_pre_inc world_empty it = Ret it /\
    begin world_empty 0 = Ret it /\ traverse world_empty 0 = Ret [].
Proof.
  destruct (end_is_exhausted world_empty 0 (mkHashMap hash_first [Some 0%nat] 1 1 0 0))
    as (it & Hend & _ & _ & Hinc & _ & _ & _ & Hempty); [vm_compute; reflexivity|].
  destruct (Hempty eq_refl) as [Hb Ht].
  exists it. repeat split; assumption.
Defined.

Lemma mod_count_never_decreases_witness :
  counts_grow world_a
    (state_of (run_commands 0 [Cput 0 "c" 2; Cerase 0 "a"; Cclear 0] world_a)).
Proof.
  apply (mod_count_never_decreases 0 [Cput 0 "c" 2; Cerase 0 "a"; Cclear 0]
           world_a tt).
  vm_compute. reflexivity.
Defined.

Lemma put_keeps_every_node_witness :
  exists n',
    load (state_of (put_int 0 "c" 2 world_a)) (Some 1%nat) = Ret n' /\
    first (value n') = "a" /\ next n' = Some 0%nat.
Proof.
  apply (put_keeps_every_node 0 world_a 0 "c" 2 2
           (state_of (put_int 0 "c" 2 world_a))
           (eq_refl : put 0 0 "c" 2 world_a = Ok 2 (state_of (put_int 0 "c" 2 world_a)))
           (Some 1%nat) (mkLN (mkEntry "a" 1) (Some 0%nat))).
  vm_compute. reflexivity.
Defined.

Lemma constructor_binds_one_hash_witness :
  HashMap_ctor 0 None 1 None no_objects
    = Throw TemplateFunctionError no_objects /\
  HashMap_ctor 0 hash_at_1 1 hash_at_2 no_objects
    = Throw TemplateFunctionError no_objects /\
  exists this w1 m,
    HashMap_ctor 0 None 1 hash_at_2 no_objects = Ok this w1 /\
    tables w1 !! this = Some m /\ hash m = hash_length.
Proof.
  split; [|split].
  - apply (proj1 (constructor_binds_one_hash 0 None None 1 no_objects)).
    left. split; reflexivity.
  - apply (proj1 (constructor_binds_one_hash 0 hash_at_1 hash_at_2 1 no_objects)).
    right. exists 1%nat, hash_first, 2%nat, hash_length.
    repeat split; [reflexivity..|lia].
  - destruct (proj2 (constructor_binds_one_hash 0 None hash_at_2 1 no_objects))
      as (this & w1 & m & H1 & H2 & H3 & _).
    { intros [[_ H]|(a & f & b & g & H & _)]; discriminate. }
    exists this, w1, m. repeat split; assumption.
Defined.

Lemma has_key_agrees_with_str_witness :
  has_key world_a 0 "a" = Ret true /\ has_key world_a 0 "b" = Ret false.
Proof.
  split.
  - apply (has_key_agrees_with_str world_a 0 "a" [mkEntry "a" 1]).
    vm_compute. reflexivity.
  - apply (has_key_agrees_with_str world_a 0 "b" [mkEntry "a" 1]).
    vm_compute. reflexivity.
Defined.

Lemma operator_index_const_witness :
  operator_index_const world_a 0 "a" = Ret 1 /\
  operator_index_const world_a 0 "b" = Raise KeyError.
Proof.
  split.
  - apply (operator_index_const_reads_first_match world_a 0 "a" [mkEntry "a" 1]);
      [vm_compute; reflexivity | discriminate | vm_compute; reflexivity].
  - apply (operator_index_const_reads_first_match world_a 0 "b" [mkEntry "a" 1]);
      [vm_compute; reflexivity | discriminate | vm_compute; reflexivity].
Defined.

Lemma constructor_makes_empty_table_witness :
  let w1 := state_of (HashMap_ctor_bins 0 None 4 1 hash_at_1 world_a) in
  well_formed w1 1 = true /\ str w1 1 = Ret [] /\ well_formed w1 0 = true.
Proof.
  intros w1.
  destruct (constructor_makes_empty_well_formed_table 0 None hash_at_1 4 1
              world_a 1%nat w1)
    as (H1 & H2 & _ & H3); [vm_compute; reflexivity | lia | reflexivity |].
  split; [exact H1|]. split; [exact H2|]. apply H3. vm_compute. reflexivity.
Defined.


Lemma erase_removes_first_match_witness :
  exists w1,
    erase 0 "a" world_a = Ok 1 w1 /\ str w1 0 = Ret [] /\
    well_formed w1 0 = true.
Proof.
  destruct (erase_removes_first_match world_a 0 "a"
              (mkHashMap hash_first [Some 1%nat] 1 1 1 1) [mkEntry "a" 1])
    as (e & w1 & m1 & Hf & He & Hwf & _ & _ & _ & _ & Hs);
    [vm_compute; reflexivity | vm_compute; reflexivity | vm_compute; reflexivity
    | discriminate | reflexivity |].
  injection Hf as <-. exists w1. split; [exact He|]. split; assumption.
Defined.

Lemma clear_empties_table_witness :
  exists w1,
    clear 0 world_a = Ok tt w1 /\ str w1 0 = Ret [] /\
    size w1 0 = Ret 0 /\ has_key w1 0 "a" = Ret false.
Proof.
  destruct (clear_empties_table world_a 0
              (mkHashMap hash_first [Some 1%nat] 1 1 1 1))
    as (w1 & m1 & Hc & _ & Hm1 & Hu & _ & _ & Hs & Hk);
    [vm_compute; reflexivity | vm_compute; reflexivity |].
  exists w1. split; [exact Hc|]. split; [exact Hs|].
  split; [unfold size, get_table; rewrite Hm1; cbn; rewrite Hu; reflexivity|].
  apply Hk.
Defined.

Lemma traversal_visits_the_entries_witness :
  traverse world_a 0 = Ret [mkEntry "a" 1].
Proof.
  apply (traversal_visits_the_entries_of_str world_a 0
           (mkHashMap hash_first [Some 1%nat] 1 1 1 1) [mkEntry "a" 1]);
    [vm_compute; reflexivity | vm_compute; reflexivity | vm_compute; reflexivity
    | repeat constructor; discriminate | discriminate].
Defined.



Lemma iterable_constructor_witness :
  HashMap_ctor_iterable 0 (Some (9%nat, fun _ => 0)) None
    [mkEntry "a" 1] 1 hash_at_1 no_objects
  = Throw TemplateFunctionError no_objects.
Proof.
  apply (proj1 (iterable_constructor_ignores_constructor_hash 0
                  (Some (9%nat, fun _ => 0)) None hash_at_1
                  [mkEntry "a" 1] 1 no_objects));
    reflexivity.
Defined.

Lemma has_value_agrees_with_str_witness :
  has_value Z.eqb world_a 0 1 = Ret true /\
  has_value Z.eqb world_a 0 2 = Ret false.
Proof.
  split.
  - apply (has_value_agrees_with_str Z.eqb world_a 0 1 [mkEntry "a" 1]).
    vm_compute. reflexivity.
  - apply (has_value_agrees_with_str Z.eqb world_a 0 2 [mkEntry "a" 1]).
    vm_compute. reflexivity.
Defined.

Lemma operator_eq_compares_entries_witness :
  operator_eq Z.eqb world_two_tables 0 0 = Ret true /\
  operator_eq Z.eqb world_two_tables 0 1 = Raise KeyError /\
  operator_ne Z.eqb world_two_tables 0 1 = Raise KeyError.
Proof.
  destruct (operator_eq_compares_entries Z.eqb world_two_tables 0 1
              (mkHashMap hash_first [Some 2%nat] 1 1 1 1)
              (mkHashMap hash_first [Some 3%nat] 1 1 1 1)
              [mkEntry "a" 1] [mkEntry "b" 1])
    as (Hrefl & Hd); try (vm_compute; reflexivity).
  { repeat constructor; discriminate. }
  destruct (Hd ltac:(discriminate)) as [Heq Hne].
  split; [exact Hrefl|]. split; [exact Heq|exact Hne].
Defined.

Lemma destructor_frees_the_chains_witness :
  let w := state_of (put_int 0 "b" 2 world_a) in
  exists w1,
    destructor 0 w = Ok tt w1 /\
    nodes w1 !! 6%nat = Some None /\
    nodes w1 !! 1%nat = Some (Some (mkLN (mkEntry "a" 1) (Some 0%nat))).
Proof.
  intros w.
  destruct (destructor_frees_the_chains w 0 [6; 5; 2; 4; 3]%nat)
    as (w1 & Hd & _ & _ & Hin & Hout);
    [vm_compute; reflexivity | vm_compute; reflexivity |].
  exists w1. split; [exact Hd|]. split.
  - apply Hin. apply elem_of_cons. left. reflexivity.
  - rewrite Hout; [reflexivity|]. intros H.
    repeat (apply elem_of_cons in H as [H|H]; [discriminate|]). inversion H.
Defined.



Lemma erase_forgets_key_witness :
  exists v w1,
    erase 0 "a" world_a = Ok v w1 /\ has_key w1 0 "a" = Ret false /\
    operator_index_const w1 0 "a" = Raise KeyError.
Proof.
  destruct (erase_forgets_key world_a 0 "a"
              (mkHashMap hash_first [Some 1%nat] 1 1 1 1) [mkEntry "a" 1])
    as (v & w1 & l1 & Her & _ & _ & _ & Hk & Hg);
    [vm_compute; reflexivity | vm_compute; reflexivity | vm_compute; reflexivity
    | reflexivity | discriminate | reflexivity |].
  exists v, w1. split; [exact Her|]. split; assumption.
Defined.


Lemma erase_keeps_the_others_witness :
  exists v w1,
    erase 0 "a" (state_of client_a_c) = Ok v w1 /\
    has_key w1 0 "c" = Ret true /\
    operator_index_const w1 0 "c" = Ret 2.
Proof.
  destruct (erase_keeps_the_others (state_of client_a_c) 0 "a"
              (mkHashMap hash_first [Some 6%nat; Some 4%nat] 1 2 2 2)
              [mkEntry "c" 2; mkEntry EmptyString 0; mkEntry "a" 1])
    as (v & w1 & Her & Hk);
    [vm_compute; reflexivity | vm_compute; reflexivity | vm_compute; reflexivity
    | discriminate | reflexivity |].
  exists v, w1. split; [exact Her|].
  destruct (Hk "c" ltac:(discriminate)) as [H1 H2].
  split; [rewrite H1; vm_compute; reflexivity|].
  rewrite H2; [vm_compute; reflexivity|discriminate].
Defined.

Lemma iterator_erase_removes_entry_witness :
  exists it1 w1,
    Iterator_erase begin_a world_a = Ok (mkEntry "a" 1, it1) w1 /\
    str w1 0 = Ret [] /\ well_formed w1 0 = true /\ can_erase it1 = false.
Proof.
  destruct (iterator_erase_removes_entry_under_cursor world_a begin_a
              (mkHashMap hash_first [Some 1%nat] 1 1 1 1) [mkEntry "a" 1]
              [1; 0]%nat 1%nat (mkLN (mkEntry "a" 1) (Some 0%nat)))
    as (it1 & w1 & m1 & He & Hwf & _ & _ & _ & Hs & _ & _ & Hc & _);
    try (vm_compute; reflexivity); try discriminate.
  exists it1, w1. split; [exact He|]. split; [exact Hs|].
  split; assumption.
Defined.


End MoreEvaluation.

End ics.
